(** * notion-to-ssg: the synchronisation engine of [src/index.js]

    A shallow embedding of the exporter (property normaliser, slug and
    permalink builder, image cache, link rewriting, page writer, directory
    cleaning and the two-pass orchestrator), of the loading of its
    configuration, of its command line and of the comments plugin, followed
    by the properties established about them.

    Conventions.
    - Remote data and configuration are JSON: they are embedded as an
      untyped [value], and every JavaScript operator the source applies to
      them ([.], [?.], [??], [||], [!], [===], [String], [Array.isArray],
      [.map], [.filter], [.join]) is given its JavaScript meaning on that
      type, including the [TypeError] raised by reading a property of
      [null] or [undefined].
    - Strings are sequences of 8-bit code units read as ASCII.  Numbers are
      integers ([NaN] and fractions do not occur in the properties below).
    - Code that throws returns [Throw]; stateful code threads a [world]. *)

From Stdlib Require Import ZArith String Ascii List Bool Lia DecimalString.
From stdpp Require Import base gmap strings list fin_maps.

#[local] Set Warnings "-register-all,-clear-no-such-hyp".

(** ** JavaScript values *)

Inductive exn : Type :=
| TypeError (msg : string)
| Error (msg : string).

Inductive res (A : Type) : Type :=
| Ok (a : A)
| Throw (e : exn).
Arguments Ok {A} a.
Arguments Throw {A} e.

Definition rbind {A B} (m : res A) (k : A -> res B) : res B :=
  match m with
  | Ok a => k a
  | Throw e => Throw e
  end.

Notation "'let?' x ':=' m 'in' k" := (rbind m (fun x => k))
  (at level 10, x name, m at level 100, k at level 200).

Fixpoint mapM {A B} (f : A -> res B) (l : list A) : res (list B) :=
  match l with
  | [] => Ok []
  | x :: l' =>
      let? y := f x in
      let? ys := mapM f l' in
      Ok (y :: ys)
  end.

Inductive value : Type :=
| VUndef
| VNull
| VBool (b : bool)
| VNum (n : Z)
| VStr (s : string)
| VArr (l : list value)
| VObj (o : list (string * value)).

Definition string_of_Z (n : Z) : string := NilZero.string_of_int (Z.to_int n).

(** [String(v)]; also the per-element conversion of [Array.prototype.join],
    which prints [null] and [undefined] elements as the empty string. *)
Fixpoint js_String (v : value) : string :=
  match v with
  | VUndef => "undefined"
  | VNull => "null"
  | VBool true => "true"
  | VBool false => "false"
  | VNum n => string_of_Z n
  | VStr s => s
  | VArr l =>
      (fix join (l : list value) : string :=
         match l with
         | [] => ""
         | x :: rest =>
             let sx := match x with
                       | VUndef | VNull => ""
                       | _ => js_String x
                       end in
             match rest with
             | [] => sx
             | _ :: _ => sx +:+ "," +:+ join rest
             end
         end) l
  | VObj _ => "[object Object]"
  end.

Definition join_elt (v : value) : string :=
  match v with
  | VUndef | VNull => ""
  | _ => js_String v
  end.

(** [l.join("")] *)
Definition js_join_empty (l : list value) : string :=
  fold_right (fun v acc => join_elt v +:+ acc) "" l.

(** Truthiness: [!v] is [negb (truthy v)]. *)
Definition truthy (v : value) : bool :=
  match v with
  | VUndef | VNull => false
  | VBool b => b
  | VNum n => negb (n =? 0)%Z
  | VStr s => negb (String.eqb s "")
  | VArr _ | VObj _ => true
  end.

Definition nullish (v : value) : bool :=
  match v with
  | VUndef | VNull => true
  | _ => false
  end.

(** [a || b] and [a ?? b] with an already evaluated right operand. *)
Definition js_or (a b : value) : value := if truthy a then a else b.
Definition js_coalesce (a b : value) : value := if nullish a then b else a.

(** [v === "lit"] *)
Definition is_str (lit : string) (v : value) : bool :=
  match v with
  | VStr s => String.eqb s lit
  | _ => false
  end.

Definition isArray (v : value) : bool :=
  match v with
  | VArr _ => true
  | _ => false
  end.

Fixpoint field (k : string) (o : list (string * value)) : value :=
  match o with
  | [] => VUndef
  | (k', v) :: o' => if String.eqb k' k then v else field k o'
  end.

Definition index_keys {A} (l : list A) : list (string * A) :=
  imap (fun i x => (string_of_Z (Z.of_nat i), x)) l.

(** [Object.entries(v)] for a [v] that is neither [null] nor [undefined]:
    the own enumerable string-keyed properties, in property order. *)
Definition entries (v : value) : list (string * value) :=
  match v with
  | VObj o => o
  | VArr l => index_keys l
  | VStr s => index_keys (List.map (fun c => VStr (String c "")) (list_ascii_of_string s))
  | _ => []
  end.

(** Own properties as seen by a property read: the entries, and [length]
    on arrays and strings.  None of the keys the exporter reads is a member
    of a built-in prototype, so nothing else is visible. *)
Definition own (k : string) (v : value) : value :=
  match v with
  | VObj o => field k o
  | VArr l => if String.eqb k "length" then VNum (Z.of_nat (length l)) else field k (entries v)
  | VStr s =>
      if String.eqb k "length" then VNum (Z.of_nat (String.length s)) else field k (entries v)
  | _ => VUndef
  end.

(** [v.k] and [v[k]] *)
Definition get (k : string) (v : value) : res value :=
  match v with
  | VUndef =>
      Throw (TypeError ("Cannot read properties of undefined (reading '" +:+ k +:+ "')"))
  | VNull => Throw (TypeError ("Cannot read properties of null (reading '" +:+ k +:+ "')"))
  | _ => Ok (own k v)
  end.

(** [v?.k] and [v?.[k]] *)
Definition get_opt (k : string) (v : value) : value := own k v.

(** [v.map(f)]: calling [map] on anything but an array is a [TypeError]
    (on [null] and [undefined] for the read, elsewhere for the call). *)
Definition js_map (f : value -> res value) (v : value) : res (list value) :=
  match v with
  | VArr l => mapM f l
  | VUndef | VNull => let? _ := get "map" v in Ok []
  | _ => Throw (TypeError "map is not a function")
  end.

Definition elements_of (v : value) : list value :=
  match v with
  | VArr l => l
  | _ => []
  end.

(** ** Property normaliser *)

Definition normalizeRichText (rtArray : value) : res value :=
  match rtArray with
  | VArr _ =>
      let? l := js_map (fun t => let? p := get "plain_text" t in Ok (js_or p (VStr ""))) rtArray in
      Ok (VStr (js_join_empty l))
  | _ => Ok (VStr "")
  end.

Definition normalizePeople (peopleArray : value) : res value :=
  match peopleArray with
  | VArr l =>
      Ok (VArr (List.filter truthy
                  (List.map (fun p =>
                     js_or (get_opt "name" p)
                       (js_or (get_opt "email" (get_opt "person" p)) (get_opt "id" p))) l)))
  | _ => Ok (VArr [])
  end.

Definition normalizeFiles (files : value) : res value :=
  match files with
  | VArr _ =>
      let? l := js_map (fun f =>
                  let? ty := get "type" f in
                  if is_str "file" ty then
                    let? o := get "file" f in get "url" o
                  else if is_str "external" ty then
                    let? o := get "external" f in get "url" o
                  else Ok VNull) files in
      Ok (VArr (List.filter truthy l))
  | _ => Ok (VArr [])
  end.

Definition normalizeRelation (rel : value) : res value :=
  match rel with
  | VArr _ =>
      let? l := js_map (fun r => get "id" r) rel in
      Ok (VArr (List.filter truthy l))
  | _ => Ok (VArr [])
  end.

(** [(x || []).map((m) => m.name)] *)
Definition option_names (x : value) : res value :=
  let? l := js_map (fun m => get "name" m) (js_or x (VArr [])) in
  Ok (VArr l).

(** Nesting depth of a value: the recursion of [normalizeRollup] descends
    through [rollup.array[i].rollup], so it is bounded by it. *)
Fixpoint depth (v : value) : nat :=
  match v with
  | VArr l => S (fold_right (fun x acc => Nat.max (depth x) acc) 0%nat l)
  | VObj o =>
      S ((fix go (o : list (string * value)) : nat :=
            match o with
            | [] => 0%nat
            | (_, x) :: o' => Nat.max (depth x) (go o')
            end) o)
  | _ => 0%nat
  end.

Definition is_not_null (v : value) : bool :=
  match v with
  | VNull => false
  | _ => true
  end.

(** The callback of the [array] case of [normalizeRollup]; [self] is the
    recursive call. *)
Definition rollup_element (self : value -> res value) (el : value) : res value :=
  if negb (truthy el) then Ok VNull else
  let? ety := get "type" el in
  if negb (truthy ety) then Ok VNull
  else if is_str "title" ety then let? x := get "title" el in normalizeRichText x
  else if is_str "rich_text" ety then let? x := get "rich_text" el in normalizeRichText x
  else if is_str "people" ety then let? x := get "people" el in normalizePeople x
  else if is_str "relation" ety then let? x := get "relation" el in normalizeRelation x
  else if is_str "files" ety then let? x := get "files" el in normalizeFiles x
  else if is_str "number" ety then let? x := get "number" el in Ok (js_coalesce x VNull)
  else if is_str "date" ety then
    let? x := get "date" el in Ok (js_coalesce (get_opt "start" x) VNull)
  else if is_str "rollup" ety then let? x := get "rollup" el in self x
  else if is_str "select" ety then
    let? x := get "select" el in Ok (js_coalesce (get_opt "name" x) VNull)
  else if is_str "multi_select" ety then
    let? x := get "multi_select" el in option_names x
  else if is_str "status" ety then
    let? x := get "status" el in Ok (js_coalesce (get_opt "name" x) VNull)
  else Ok VNull.

Fixpoint normalizeRollup_rec (fuel : nat) (rollup : value) : res value :=
  if negb (truthy rollup) then Ok VNull else
  let? ty := get "type" rollup in
  if is_str "number" ty then
    let? n := get "number" rollup in Ok (js_coalesce n VNull)
  else if is_str "date" ty then
    let? d := get "date" rollup in Ok (js_coalesce (get_opt "start" d) VNull)
  else if is_str "array" ty then
    let? arr := get "array" rollup in
    let? l := js_map (rollup_element
                        (match fuel with
                         | O => fun _ => Ok VNull
                         | S fuel' => normalizeRollup_rec fuel'
                         end)) (js_or arr (VArr [])) in
    Ok (VArr (List.filter is_not_null l))
  else Ok VNull.

(** [normalizeRollup]: the recursion budget is the nesting depth of the
    argument, which the recursion cannot exhaust (see
    [normalizeRollup_rec_fuel]). *)
Definition normalizeRollup (rollup : value) : res value :=
  normalizeRollup_rec (depth rollup) rollup.

Definition extractPropValue (prop : value) : res value :=
  if negb (truthy prop) then Ok VNull else
  let? ty := get "type" prop in
  if negb (truthy ty) then Ok VNull
  else if is_str "title" ty then let? x := get "title" prop in normalizeRichText x
  else if is_str "rich_text" ty then let? x := get "rich_text" prop in normalizeRichText x
  else if is_str "select" ty then
    let? x := get "select" prop in Ok (js_coalesce (get_opt "name" x) VNull)
  else if is_str "multi_select" ty then
    let? x := get "multi_select" prop in option_names x
  else if is_str "url" ty then let? x := get "url" prop in Ok (js_coalesce x VNull)
  else if is_str "date" ty then
    let? x := get "date" prop in Ok (js_coalesce (get_opt "start" x) VNull)
  else if is_str "email" ty then let? x := get "email" prop in Ok (js_coalesce x VNull)
  else if is_str "phone_number" ty then
    let? x := get "phone_number" prop in Ok (js_coalesce x VNull)
  else if is_str "number" ty then let? x := get "number" prop in Ok (js_coalesce x VNull)
  else if is_str "checkbox" ty then let? x := get "checkbox" prop in Ok (VBool (truthy x))
  else if is_str "people" ty then let? x := get "people" prop in normalizePeople x
  else if is_str "files" ty then let? x := get "files" prop in normalizeFiles x
  else if is_str "relation" ty then let? x := get "relation" prop in normalizeRelation x
  else if is_str "status" ty then
    let? x := get "status" prop in Ok (js_coalesce (get_opt "name" x) VNull)
  else if is_str "formula" ty then
    let? f := get "formula" prop in
    if negb (truthy f) then Ok VNull else
    let? fty := get "type" f in
    if is_str "string" fty then let? x := get "string" f in Ok (js_coalesce x VNull)
    else if is_str "number" fty then let? x := get "number" f in Ok (js_coalesce x VNull)
    else if is_str "boolean" fty then let? x := get "boolean" f in Ok (js_coalesce x VNull)
    else if is_str "date" fty then
      let? x := get "date" f in Ok (js_coalesce (get_opt "start" x) VNull)
    else Ok VNull
  else if is_str "rollup" ty then let? x := get "rollup" prop in normalizeRollup x
  else Ok VNull.

(** *** Shapes of property values

    What the normaliser relies on: the elements of list payloads are
    objects, an entry of a file list carries the object its [type] names,
    and scalars have the type of their variant.  Unknown variants are
    unconstrained. *)

Definition is_string (v : value) : bool :=
  match v with
  | VStr _ => true
  | _ => false
  end.





















(** *** Object update

    Own property order: array-index keys in ascending order first, then the
    other keys in the order of their creation. *)

Definition array_index (k : string) : option Z :=
  match NilZero.int_of_string k with
  | Some i =>
      let z := Z.of_int i in
      if (0 <=? z)%Z && (z <? 4294967295)%Z && String.eqb (string_of_Z z) k then Some z
      else None
  | None => None
  end.

Fixpoint replace_field (k : string) (v : value) (o : list (string * value))
  : option (list (string * value)) :=
  match o with
  | [] => None
  | (k', v') :: o' =>
      if String.eqb k' k then Some ((k, v) :: o')
      else match replace_field k v o' with
           | Some o'' => Some ((k', v') :: o'')
           | None => None
           end
  end.

Fixpoint insert_index (n : Z) (k : string) (v : value) (o : list (string * value))
  : list (string * value) :=
  match o with
  | [] => [(k, v)]
  | (k', v') :: o' =>
      match array_index k' with
      | Some n' => if (n' <? n)%Z then (k', v') :: insert_index n k v o' else (k, v) :: o
      | None => (k, v) :: o
      end
  end.

(** [o[k] = v] on a plain object *)
Definition obj_set (k : string) (v : value) (o : list (string * value))
  : list (string * value) :=
  match replace_field k v o with
  | Some o' => o'
  | None =>
      match array_index k with
      | Some n => insert_index n k v o
      | None => o ++ [(k, v)]
      end
  end.

(** [{ ...o, ...extra }] *)
Definition obj_spread (o : list (string * value)) (extra : value) : list (string * value) :=
  fold_left (fun acc '(k, v) => obj_set k v acc) (entries extra) o.

(** ** Strings

    String algorithms work on the list of code units. *)

Abbreviation chars := list_ascii_of_string.
Abbreviation str := string_of_list_ascii.

Definition in_range (lo hi c : ascii) : bool :=
  ((N_of_ascii lo <=? N_of_ascii c) && (N_of_ascii c <=? N_of_ascii hi))%N.

Definition is_digit (c : ascii) : bool := in_range "0" "9" c.
Definition is_upper (c : ascii) : bool := in_range "A" "Z" c.
Definition is_lower (c : ascii) : bool := in_range "a" "z" c.
Definition is_alnum (c : ascii) : bool := is_digit c || is_upper c || is_lower c.
(** [[a-f0-9]] *)
Definition is_hex (c : ascii) : bool := is_digit c || in_range "a" "f" c.
(** [\s] and the characters removed by [trim], on ASCII *)
Definition is_space (c : ascii) : bool := Ascii.is_space c.

Definition to_lower (c : ascii) : ascii :=
  if is_upper c then ascii_of_N (N_of_ascii c + 32) else c.

Definition toLowerCase (s : string) : string := str (List.map to_lower (chars s)).

Fixpoint trim_start (l : list ascii) : list ascii :=
  match l with
  | c :: l' => if is_space c then trim_start l' else l
  | [] => []
  end.

Definition trim_chars (l : list ascii) : list ascii :=
  rev (trim_start (rev (trim_start l))).

(** [s.trim()] *)
Definition js_trim (s : string) : string := str (trim_chars (chars s)).

Fixpoint strip_prefix (p l : list ascii) : option (list ascii) :=
  match p, l with
  | [], _ => Some l
  | c :: p', d :: l' => if Ascii.eqb c d then strip_prefix p' l' else None
  | _ :: _, [] => None
  end.

(** First occurrence of [pat]: the text before it and the text after it. *)
Fixpoint split_first (pat l : list ascii) : option (list ascii * list ascii) :=
  match strip_prefix pat l with
  | Some rest => Some ([], rest)
  | None =>
      match l with
      | [] => None
      | c :: l' =>
          match split_first pat l' with
          | Some (b, a) => Some (c :: b, a)
          | None => None
          end
      end
  end.

(** [s.includes(pat)] *)
Definition includes (pat s : string) : bool :=
  match split_first (chars pat) (chars s) with
  | Some _ => true
  | None => false
  end.

(** [s.startsWith(p)] and [s.endsWith(p)] *)
Definition startsWith (p s : string) : bool :=
  match strip_prefix (chars p) (chars s) with
  | Some _ => true
  | None => false
  end.

Definition endsWith (p s : string) : bool :=
  match strip_prefix (rev (chars p)) (rev (chars s)) with
  | Some _ => true
  | None => false
  end.

(** The replacement patterns of [String.prototype.replace] when the pattern
    is a string (no capture group exists, so [$1] and the like stay as
    they are). *)
Fixpoint expand_replacement (repl matched before after : list ascii) : list ascii :=
  match repl with
  | [] => []
  | c :: r =>
      if Ascii.eqb c "$" then
        match r with
        | d :: r' =>
            if Ascii.eqb d "$" then "$"%char :: expand_replacement r' matched before after
            else if Ascii.eqb d "&" then matched ++ expand_replacement r' matched before after
            else if Ascii.eqb d "`" then before ++ expand_replacement r' matched before after
            else if Ascii.eqb d "'" then after ++ expand_replacement r' matched before after
            else c :: expand_replacement r matched before after
        | [] => [c]
        end
      else c :: expand_replacement r matched before after
  end.

(** [s.replace(pat, repl)] with a string pattern: the first occurrence only. *)
Definition js_replace (pat repl s : string) : string :=
  match split_first (chars pat) (chars s) with
  | Some (before, after) =>
      str (before ++ expand_replacement (chars repl) (chars pat) before after ++ after)
  | None => s
  end.

(** [s.replace(/-/g, "")] *)
Definition remove_dashes (s : string) : string :=
  str (List.filter (fun c => negb (Ascii.eqb c "-")) (chars s)).

(** [s.split("?")[0]] *)
Fixpoint before_char (sep : ascii) (l : list ascii) : list ascii :=
  match l with
  | [] => []
  | c :: l' => if Ascii.eqb c sep then [] else c :: before_char sep l'
  end.

(** *** Paths ([path.join], [path.relative] on absolute paths) *)

Fixpoint split_on (sep : ascii) (l : list ascii) : list (list ascii) :=
  match l with
  | [] => [[]]
  | c :: l' =>
      if Ascii.eqb c sep then [] :: split_on sep l'
      else match split_on sep l' with
           | seg :: segs => (c :: seg) :: segs
           | [] => [[c]]
           end
  end.

Definition normalize_segments (segs : list (list ascii)) : list (list ascii) :=
  fold_left (fun acc seg =>
    match seg with
    | [] => acc
    | _ =>
        if bool_decide (seg = chars ".") then acc
        else if bool_decide (seg = chars "..") then removelast acc
        else acc ++ [seg]
    end) segs [].

Definition segments (p : string) : list (list ascii) :=
  normalize_segments (split_on "/" (chars p)).

Definition of_segments (segs : list (list ascii)) : string :=
  str (flat_map (fun seg => "/"%char :: seg) segs).

(** [path.join(a, b)] for an absolute [a] *)
Definition path_join (a b : string) : string :=
  of_segments (normalize_segments (split_on "/" (chars a) ++ split_on "/" (chars b))).

Fixpoint drop_common (a b : list (list ascii)) : list (list ascii) * list (list ascii) :=
  match a, b with
  | x :: a', y :: b' => if bool_decide (x = y) then drop_common a' b' else (a, b)
  | _, _ => (a, b)
  end.

(** [path.relative(from, to)] for absolute paths *)
Definition path_relative (from to : string) : string :=
  let '(up, down) := drop_common (segments from) (segments to) in
  let segs := List.map (fun _ => chars "..") up ++ down in
  match segs with
  | [] => ""
  | seg :: rest => str (seg ++ flat_map (fun s => "/"%char :: s) rest)
  end.

(** ** The platform: packages and remote workspace

    What the exporter is run against and does not define itself. *)

Inductive download : Type :=
| Download200 (body : string)
| DownloadStatus (code : Z)
| DownloadRequestError (msg : string).

Inductive fs_op : Type :=
| OpMkdir (dir : string)
| OpUnlink (dir name : string)
| OpRename (dir from to : string)
| OpWrite (dir name : string).

Record platform : Type := {
  (** the character table of the [slugify] package, its [fr] locale first *)
  charMap : ascii -> option string;
  (** [yaml.dump] *)
  yaml_dump : value -> res string;
  (** [crypto.createHash("md5")] over the streamed bytes, [digest("hex")] *)
  md5_hex : string -> string;
  (** [process.cwd()], an absolute path *)
  cwd : string;
  (** [process.env.NOTION_TOKEN] *)
  env_token : value;
  (** [loadConfig(configPath)]: the parsed configuration file *)
  load_config : value -> res value;
  (** the value of the n-th call of [Date.now()] *)
  date_now : nat -> Z;
  (** file-system operations that fail (permissions, full disk, ...) *)
  fs_fault : fs_op -> bool;
  (** [notion.databases.retrieve] *)
  databases_retrieve : string -> res value;
  (** [notion.databases.query]: the responses to the successive listing
      requests for one database *)
  databases_query : string -> list (res value);
  (** [n2m.toMarkdownString(await n2m.pageToMarkdown(pageId)).parent || ""],
      a string, or the exception of the conversion *)
  page_markdown : value -> res string;
  (** the outcome of [http(s).get(url)] streamed to a file *)
  http_get : string -> download
}.

(** ** Slug and permalink *)

(** The [remove] option of [toSlug]: the characters asterisk, plus, tilde,
    dot, both parentheses, single and double quote, colon, at, slash and
    question mark. *)
Definition slug_remove (c : ascii) : bool :=
  existsb (Ascii.eqb c)
    ["*"; "+"; "~"; "."; "("; ")"; "'"; "034"; ":"; "@"; "/"; "?"]%char.

(** [/\s+/g] replaced by ["-"] *)
Fixpoint dash_spaces (in_run : bool) (l : list ascii) : list ascii :=
  match l with
  | [] => []
  | c :: l' =>
      if is_space c then
        if in_run then dash_spaces true l' else "-"%char :: dash_spaces true l'
      else c :: dash_spaces false l'
  end.

(** ** The world: disk, image cache, and what the run did *)

Inductive entry : Type :=
| EFile (content : string)
| EDir.

Inductive remote_call : Type :=
| CallRetrieve (dbId : string)
| CallQuery (dbId : string) (cursor : value)
| CallPageMarkdown (pageId : value)
| CallHttpGet (url : string).

Inductive console_event : Type :=
| LogImageReused (filename : string)
| LogImageDownloaded (filename : string)
| WarnImageFailed (message : string)
| LogResolvedLink (altText permalink : string)
| WarnMarkdownError (pageId : value) (message : string)
| LogCleaning (dir : string)
| LogRemovedMarkdown (n : nat)
| LogCleaningImages (dir : string)
| LogRemovedImages (n : nat)
| LogExporting (n : nat) (title : value) (dir : string)
| LogWritten (path : string).

Record world : Type := {
  (** directory path to its entries; a directory exists when it has a key *)
  disk : gmap string (gmap string entry);
  (** the module-level [imageCache] *)
  imageCache : gmap string string;
  (** remote calls made, latest first *)
  calls : list remote_call;
  (** [fs.writeFileSync] calls made (path, data), latest first *)
  writes : list (string * string);
  (** console output, latest first *)
  console : list console_event;
  (** number of [Date.now()] calls so far *)
  ticks : nat
}.

Definition set_disk (d : gmap string (gmap string entry)) (w : world) : world :=
  {| disk := d; imageCache := imageCache w; calls := calls w; writes := writes w;
     console := console w; ticks := ticks w |}.
Definition set_imageCache (c : gmap string string) (w : world) : world :=
  {| disk := disk w; imageCache := c; calls := calls w; writes := writes w;
     console := console w; ticks := ticks w |}.
Definition add_call (c : remote_call) (w : world) : world :=
  {| disk := disk w; imageCache := imageCache w; calls := c :: calls w; writes := writes w;
     console := console w; ticks := ticks w |}.
Definition add_write (p data : string) (w : world) : world :=
  {| disk := disk w; imageCache := imageCache w; calls := calls w;
     writes := (p, data) :: writes w; console := console w; ticks := ticks w |}.
Definition add_console (e : console_event) (w : world) : world :=
  {| disk := disk w; imageCache := imageCache w; calls := calls w; writes := writes w;
     console := e :: console w; ticks := ticks w |}.
Definition tick (w : world) : world :=
  {| disk := disk w; imageCache := imageCache w; calls := calls w; writes := writes w;
     console := console w; ticks := S (ticks w) |}.

(** Computations that read and change the world and may throw; the world
    reached when an exception is thrown is kept. *)
Definition M (A : Type) : Type := world -> res A * world.

Definition ret {A} (a : A) : M A := fun w => (Ok a, w).
Definition throw {A} (e : exn) : M A := fun w => (Throw e, w).
Definition lift {A} (r : res A) : M A := fun w => (r, w).
Definition bind {A B} (m : M A) (k : A -> M B) : M B :=
  fun w => match m w with
           | (Ok a, w') => k a w'
           | (Throw e, w') => (Throw e, w')
           end.
(** [try { m } catch (error) { handler(error) }] *)
Definition try_catch {A} (m : M A) (handler : exn -> M A) : M A :=
  fun w => match m w with
           | (Ok a, w') => (Ok a, w')
           | (Throw e, w') => handler e w'
           end.
Definition modify (f : world -> world) : M unit := fun w => (Ok tt, f w).
Definition gets {A} (f : world -> A) : M A := fun w => (Ok (f w), w).

Notation "'do' x <- m ; k" := (bind m (fun x => k))
  (at level 10, x name, m at level 100, k at level 200).
Notation "'do' ' pat <- m ; k" := (bind m (fun x => match x with pat => k end))
  (at level 10, pat pattern, m at level 100, k at level 200).
Notation "m ;; k" := (bind m (fun _ => k)) (at level 100, right associativity).

Fixpoint forM {A B} (f : A -> M B) (l : list A) : M (list B) :=
  match l with
  | [] => ret []
  | x :: l' =>
      do y <- f x;
      do ys <- forM f l';
      ret (y :: ys)
  end.

Definition message (e : exn) : string :=
  match e with
  | TypeError m => m
  | Error m => m
  end.

Section Engine.

Variable P : platform.

(** The [slugify] package as [toSlug] calls it: replacement ["-"],
    [strict], [trim], the [remove] set above, locale [fr]. *)
Definition slugify_char (c : ascii) : list ascii :=
  let appendChar := match charMap P c with
                    | Some s => chars s
                    | None => [c]
                    end in
  let appendChar := if bool_decide (appendChar = ["-"%char]) then [" "%char] else appendChar in
  List.filter (fun d => negb (slug_remove d)) appendChar.

Definition slugify (lower : bool) (s : string) : string :=
  let slug := flat_map slugify_char (chars s) in
  let slug := List.filter (fun c => is_alnum c || is_space c) slug in
  let slug := trim_chars slug in
  let slug := dash_spaces false slug in
  str (if lower then List.map to_lower slug else slug).

(** [toSlug(str, { lower })] *)
Definition toSlug (s : value) (lower : bool) : string :=
  slugify lower (js_String (js_or s (VStr ""))).

(** The title test of [getFirstTitleText] on one property. *)
Definition is_filled_title (prop : value) : bool :=
  is_str "title" (get_opt "type" prop)
  && match get_opt "title" prop with
     | VArr (_ :: _) => true
     | _ => false
     end.

Definition title_text (title : value) : res value :=
  let? l := js_map (fun t => let? p := get "plain_text" t in Ok (js_or p (VStr ""))) title in
  Ok (js_or (VStr (js_trim (js_join_empty l))) VNull).

Fixpoint first_title (props : list (string * value)) : res value :=
  match props with
  | [] => Ok VNull
  | (_, prop) :: props' =>
      if is_filled_title prop then title_text (get_opt "title" prop)
      else first_title props'
  end.

Definition getFirstTitleText (page : value) : res value :=
  let props := get_opt "properties" page in
  if negb (truthy props) then Ok VNull else first_title (entries props).

(** [v !== false] *)
Definition is_not_false (v : value) : bool :=
  match v with
  | VBool false => false
  | _ => true
  end.

(** The first half of [buildSlug]: the base named by [slugConf.from]. *)
Definition slug_base (page slugConf : value) : res value :=
  let? from := get "from" slugConf in
  if is_str "title" from then getFirstTitleText page
  else if is_str "id" from then get "id" page
  else if truthy from then
    let? props := get "properties" page in
    let prop := get_opt (js_String from) props in
    if truthy prop then extractPropValue prop else Ok VNull
  else Ok VNull.

(** [!base || String(base).trim() === ""] *)
Definition is_blank (base : value) : bool :=
  negb (truthy base) || String.eqb (js_trim (js_String base)) "".

(** The second half: the fallback for a blank base. *)
Definition with_fallback (page slugConf base : value) : res value :=
  if is_blank base then
    let? fallback := get "fallback" slugConf in
    if is_str "id" fallback then get "id" page
    else
      let? t := getFirstTitleText page in
      if truthy t then Ok t else get "id" page
  else Ok base.

Definition buildSlug (page slugConf : value) : res string :=
  let? base := slug_base page slugConf in
  let? base := with_fallback page slugConf base in
  let? lower := get "lower" slugConf in
  Ok (toSlug (VStr (js_String base)) (is_not_false lower)).

(** [renderPermalink(tpl, { slug })] *)
Definition renderPermalink (tpl : value) (slug : string) : res string :=
  match tpl with
  | VStr t => Ok (js_replace "{slug}" slug t)
  | _ => let? _ := get "replace" tpl in Throw (TypeError "tpl.replace is not a function")
  end.

(** ** Database configuration *)

Fixpoint take_hex (n : nat) (l : list ascii) : option (list ascii) :=
  match n with
  | O => Some []
  | S n' =>
      match l with
      | c :: l' =>
          if is_hex c then
            match take_hex n' l' with
            | Some h => Some (c :: h)
            | None => None
            end
          else None
      | [] => None
      end
  end.

(** [s.match(/[a-f0-9]{32}/)]: the leftmost run of 32 hexadecimal digits *)
Fixpoint find_hex32 (l : list ascii) : option (list ascii) :=
  match take_hex 32 l with
  | Some h => Some h
  | None =>
      match l with
      | [] => None
      | _ :: l' => find_hex32 l'
      end
  end.

(** [/^[a-f0-9]{32}$/] *)
Definition is_hex32 (s : string) : bool :=
  (String.length s =? 32)%nat && forallb is_hex (chars s).

Definition extractDatabaseId (idOrUrl : value) : res string :=
  match idOrUrl with
  | VStr s =>
      if is_hex32 s then Ok s
      else match find_hex32 (chars s) with
           | Some h => Ok (str h)
           | None => Throw (Error ("Invalid Notion database ID or URL: " +:+ s))
           end
  | _ => let? _ := get "match" idOrUrl in Throw (TypeError "idOrUrl.match is not a function")
  end.

Record dbCfg : Type := {
  dir : string;
  imagesDir : string;
  basePath : value;
  layout : value;
  excludeProps : list value;
  slugConf : value;
  permalinkTpl : value;
  fmExtras : value;
  cleanBeforeSync : bool
}.

(** [path.join(process.cwd(), p)] *)
Definition join_cwd (p : value) : res string :=
  match p with
  | VStr s => Ok (path_join (cwd P) s)
  | _ => Throw (TypeError "The path argument must be of type string")
  end.

(** [new Set(v)] *)
Definition set_of (v : value) : res (list value) :=
  match v with
  | VArr l => Ok l
  | VStr s => Ok (List.map snd (entries v))
  | _ => Throw (TypeError "object is not iterable")
  end.

Definition default_slugConf : value :=
  VObj [("from", VStr "title"); ("fallback", VStr "id"); ("lower", VBool true)].

Definition detectDbConfig (dbConf dbMeta : value) : res dbCfg :=
  let? srcDir := get "srcDir" dbConf in
  if negb (truthy srcDir) then
    Throw (Error "Missing required field 'srcDir' in database config") else
  let? basePath := get "basePath" dbConf in
  if negb (truthy basePath) then
    Throw (Error "Missing required field 'basePath' in database config") else
  let? layout := get "layout" dbConf in
  if negb (truthy layout) then
    Throw (Error "Missing required field 'layout' in database config") else
  let? dir := join_cwd srcDir in
  let? srcDirImages := get "srcDirImages" dbConf in
  let? imagesDir := join_cwd (js_or srcDirImages (VStr "src/images/notion")) in
  let? excludeProperties := get "excludeProperties" dbConf in
  let? excludeProps := set_of (js_or excludeProperties (VArr [])) in
  let? slug := get "slug" dbConf in
  let? permalink := get "permalink" dbConf in
  let? frontMatter := get "frontMatter" dbConf in
  let? clean := get "cleanBeforeSync" dbConf in
  Ok {| dir := dir;
        imagesDir := imagesDir;
        basePath := basePath;
        layout := layout;
        excludeProps := excludeProps;
        slugConf := js_or slug default_slugConf;
        permalinkTpl := js_or permalink (VStr (js_String basePath +:+ "/{slug}/"));
        fmExtras := js_or frontMatter (VObj []);
        cleanBeforeSync := is_not_false clean |}.

(** ** File system helpers *)

Definition dir_entries (d : string) (w : world) : gmap string entry :=
  default ∅ (disk w !! d).

Definition existsSync (d name : string) (w : world) : bool :=
  bool_decide (is_Some (dir_entries d w !! name)).

Definition ensureDir (d : string) : M unit :=
  do present <- gets (fun w => bool_decide (is_Some (disk w !! d)));
  if present : bool then ret tt
  else if fs_fault P (OpMkdir d) then throw (Error ("EACCES: mkdir " +:+ d))
  else modify (fun w => set_disk (<[d := ∅]> (disk w)) w).

Definition unlinkSync (d name : string) : M unit :=
  do present <- gets (existsSync d name);
  if fs_fault P (OpUnlink d name) then throw (Error ("EPERM: unlink " +:+ name))
  else if negb present then throw (Error ("ENOENT: unlink " +:+ name))
  else modify (fun w => set_disk (<[d := delete name (dir_entries d w)]> (disk w)) w).

Definition renameSync (d from to : string) : M unit :=
  do src <- gets (fun w => dir_entries d w !! from);
  if fs_fault P (OpRename d from to) then throw (Error ("EPERM: rename " +:+ from))
  else match src with
       | None => throw (Error ("ENOENT: rename " +:+ from))
       | Some e =>
           modify (fun w =>
             set_disk (<[d := <[to := e]> (delete from (dir_entries d w))]> (disk w)) w)
       end.

(** [fs.writeFileSync(path.join(d, name), data)] *)
Definition writeFileSync (d name data : string) : M unit :=
  do target <- gets (fun w => (disk w !! d, dir_entries d w !! name));
  if fs_fault P (OpWrite d name) then throw (Error ("EACCES: open " +:+ name))
  else match target with
       | (None, _) => throw (Error ("ENOENT: open " +:+ name))
       | (Some _, Some EDir) => throw (Error ("EISDIR: open " +:+ name))
       | (Some es, _) =>
           modify (fun w => set_disk (<[d := <[name := EFile data]> es]> (disk w)) w);;
           modify (add_write (path_join d name) data)
       end.

Definition is_file (e : entry) : bool :=
  match e with
  | EFile _ => true
  | EDir => false
  end.

(** [cleanDirectory(dir, pattern)]; [pattern] is absent or a test on the
    entry name. *)
Definition cleanDirectory (d : string) (pattern : option (string -> bool)) : M (list string) :=
  do present <- gets (fun w => bool_decide (is_Some (disk w !! d)));
  if negb present then ret []
  else
    do files <- gets (fun w => map_to_list (dir_entries d w));
    do deleted <- forM (fun '(file, e) =>
      if is_file e && match pattern with
                      | None => true
                      | Some matches => matches file
                      end
      then unlinkSync d file;; ret [path_join d file]
      else ret []) files;
    ret (concat deleted).

(** ** Image download and cache *)

Definition image_extensions : list string := ["jpg"; "jpeg"; "png"; "gif"; "webp"; "svg"].

Definition getImageExtension (url : string) : string :=
  let urlWithoutQuery := toLowerCase (str (before_char "?" (chars url))) in
  match List.find (fun ext => endsWith ("." +:+ ext) urlWithoutQuery) image_extensions with
  | Some ext => ext
  | None => "jpg"
  end.

Definition put_file (d name data : string) (w : world) : world :=
  set_disk (<[d := <[name := EFile data]> (dir_entries d w)]> (disk w)) w.

Definition drop_file (d name : string) (w : world) : world :=
  set_disk (<[d := delete name (dir_entries d w)]> (disk w)) w.

(** [downloadImage(url, path.join(d, name))]: resolves with the content
    hash.  The write stream fails when the platform says so (the [error]
    event of [file]); otherwise the outcome is that of the request.  A
    response other than 200 rejects and leaves the empty file behind; the
    two [error] handlers unlink it. *)
Definition downloadImage (url d name : string) : M string :=
  modify (add_call (CallHttpGet url));;
  if fs_fault P (OpWrite d name) then
    modify (drop_file d name);;
    throw (Error ("EACCES: open " +:+ name))
  else
    match http_get P url with
    | Download200 body =>
        modify (put_file d name body);;
        ret (String.substring 0 8 (md5_hex P body))
    | DownloadStatus code =>
        modify (put_file d name "");;
        throw (Error ("Failed to download image: " +:+ string_of_Z code +:+ " " +:+ url))
    | DownloadRequestError msg =>
        modify (drop_file d name);;
        throw (Error msg)
    end.

Definition tempFilename (now : Z) (imageIndex ext : string) : string :=
  "temp-" +:+ string_of_Z now +:+ "-" +:+ imageIndex +:+ "." +:+ ext.

Definition imageFilename (pageSlug imageIndex contentHash ext : string) : string :=
  pageSlug +:+ "-" +:+ imageIndex +:+ "-" +:+ contentHash +:+ "." +:+ ext.

Definition relative_to_src (d name : string) : string :=
  "/" +:+ path_relative (path_join (cwd P) "src") (path_join d name).

Definition saveNotionImage (imageUrl : value) (pageSlug imageIndex imagesDir : string)
  : M value :=
  do cached <- gets (fun w => match imageUrl with
                              | VStr url => imageCache w !! url
                              | _ => None
                              end);
  match cached with
  | Some path => ret (VStr path)
  | None =>
      try_catch
        (ensureDir imagesDir;;
         do url <- lift (match imageUrl with
                         | VStr url => Ok url
                         | _ => Throw (TypeError "url.split is not a function")
                         end);
         let ext := getImageExtension url in
         do now <- gets (fun w => date_now P (ticks w));
         modify tick;;
         let temp := tempFilename now imageIndex ext in
         do contentHash <- downloadImage url imagesDir temp;
         let filename := imageFilename pageSlug imageIndex contentHash ext in
         do present <- gets (existsSync imagesDir filename);
         if present : bool then
           unlinkSync imagesDir temp;;
           modify (add_console (LogImageReused filename));;
           let relativePath := relative_to_src imagesDir filename in
           modify (fun w => set_imageCache (<[url := relativePath]> (imageCache w)) w);;
           ret (VStr relativePath)
         else
           renameSync imagesDir temp filename;;
           modify (add_console (LogImageDownloaded filename));;
           let relativePath := relative_to_src imagesDir filename in
           modify (fun w => set_imageCache (<[url := relativePath]> (imageCache w)) w);;
           ret (VStr relativePath))
        (fun error =>
           modify (add_console (WarnImageFailed (message error)));;
           ret imageUrl)
  end.

(** ** Page body: link scanning and rewriting *)

Record link_match : Type := {
  fullMatch : list ascii;
  altText : list ascii;
  linkUrl : list ascii
}.

Fixpoint span_until (stop : ascii) (l : list ascii) : list ascii * list ascii :=
  match l with
  | [] => ([], [])
  | c :: l' =>
      if Ascii.eqb c stop then ([], l)
      else let '(a, b) := span_until stop l' in (c :: a, b)
  end.

(** One attempt of [linkRegex] at the head of [l]: an optional exclamation
    mark, an opening bracket, the text up to the first closing bracket, an
    opening parenthesis right after it, and a non-empty target up to the
    first closing parenthesis. *)
Definition match_link_at (l : list ascii) : option link_match :=
  let '(bang, l1) := match l with
                     | c :: l' => if Ascii.eqb c "!" then (["!"%char], l') else ([], l)
                     | [] => ([], l)
                     end in
  match l1 with
  | c :: l2 =>
      if Ascii.eqb c "[" then
        let '(alt, l3) := span_until "]" l2 in
        match l3 with
        | _ :: p :: l4 =>
            if Ascii.eqb p "(" then
              let '(url, l5) := span_until ")" l4 in
              match url, l5 with
              | _ :: _, _ :: _ =>
                  Some {| fullMatch := bang ++ "["%char :: alt ++ "]"%char :: "("%char :: url ++ [")"%char];
                          altText := alt;
                          linkUrl := url |}
              | _, _ => None
              end
            else None
        | _ => None
        end
      else None
  | [] => None
  end.

(** The [exec] loop of the global regular expression: matches from left to
    right, each search resuming where the previous match ended. *)
Fixpoint scan_links (skip : nat) (l : list ascii) : list link_match :=
  match l with
  | [] => []
  | _ :: l' =>
      match skip with
      | S k => scan_links k l'
      | O =>
          match match_link_at l with
          | Some m => m :: scan_links (length (fullMatch m) - 1) l'
          | None => scan_links 0 l'
          end
      end
  end.

Definition is_segment_char (c : ascii) : bool := is_alnum c || Ascii.eqb c "-".

Fixpoint span_while (f : ascii -> bool) (l : list ascii) : list ascii * list ascii :=
  match l with
  | [] => ([], [])
  | c :: l' =>
      if f c then let '(a, b) := span_while f l' in (c :: a, b)
      else ([], l)
  end.

(** One attempt at the head of [l] of the page-link pattern: [http],
    optional [s], [://], optional [www.], [notion.so/], an optional path
    segment with its slash, then the 32 hexadecimal digits that are
    captured. *)
Definition match_notion_at (l : list ascii) : option (list ascii) :=
  match strip_prefix (chars "http") l with
  | None => None
  | Some l1 =>
      let l2 := match l1 with
                | c :: r => if Ascii.eqb c "s" then r else l1
                | [] => l1
                end in
      match strip_prefix (chars "://") l2 with
      | None => None
      | Some l3 =>
          let l4 := match strip_prefix (chars "www.") l3 with
                    | Some r => r
                    | None => l3
                    end in
          match strip_prefix (chars "notion.so/") l4 with
          | None => None
          | Some l5 =>
              let '(seg, r) := span_while is_segment_char l5 in
              let with_segment :=
                match seg, r with
                | _ :: _, c :: r' => if Ascii.eqb c "/" then take_hex 32 r' else None
                | _, _ => None
                end in
              match with_segment with
              | Some id => Some id
              | None => take_hex 32 l5
              end
          end
      end
  end.

Fixpoint find_notion_id (l : list ascii) : option (list ascii) :=
  match match_notion_at l with
  | Some id => Some id
  | None =>
      match l with
      | [] => None
      | _ :: l' => find_notion_id l'
      end
  end.

Definition is_notion_asset (url : string) : bool :=
  includes "notion" url || includes "secure.notion-static.com" url || includes "s3.us-west" url.

Record replacement : Type := {
  original : string;
  replacement_text : string
}.

(** The body of the scanning loop for one match; [replacements] is the
    list collected so far, in order. *)
Definition scan_step (slug imagesDir : string) (pageMap : gmap string string)
    (replacements : list replacement) (m : link_match) : M (list replacement) :=
  let url := str (linkUrl m) in
  match fullMatch m with
  | "!"%char :: _ =>
      if is_notion_asset url then
        do localPath <- saveNotionImage (VStr url) slug
                          (string_of_Z (Z.of_nat (length replacements))) imagesDir;
        ret (replacements ++
             [{| original := str (fullMatch m);
                 replacement_text :=
                   "![" +:+ str (altText m) +:+ "](" +:+ js_String localPath +:+ ")" |}])
      else ret replacements
  | _ =>
      match find_notion_id (linkUrl m) with
      | Some notionId =>
          match pageMap !! str notionId with
          | Some localPermalink =>
              modify (add_console (LogResolvedLink (str (altText m)) localPermalink));;
              ret (replacements ++
                   [{| original := str (fullMatch m);
                       replacement_text :=
                         "[" +:+ str (altText m) +:+ "](" +:+ localPermalink +:+ ")" |}])
          | None => ret replacements
          end
      | None => ret replacements
      end
  end.

Fixpoint scan_loop (slug imagesDir : string) (pageMap : gmap string string)
    (replacements : list replacement) (ms : list link_match) : M (list replacement) :=
  match ms with
  | [] => ret replacements
  | m :: ms' =>
      do replacements' <- scan_step slug imagesDir pageMap replacements m;
      scan_loop slug imagesDir pageMap replacements' ms'
  end.

(** The replacements are applied from the last to the first. *)
Definition apply_replacements (markdown : string) (replacements : list replacement) : string :=
  fold_right (fun r md => js_replace (original r) (replacement_text r) md)
             markdown replacements.

Definition pageBodyMarkdown (pageId : value) (slug imagesDir : string)
    (pageMap : gmap string string) : M string :=
  try_catch
    (modify (add_call (CallPageMarkdown pageId));;
     do markdown <- lift (page_markdown P pageId);
     do replacements <- scan_loop slug imagesDir pageMap [] (scan_links 0 (chars markdown));
     ret (apply_replacements markdown replacements))
    (fun e =>
       modify (add_console (WarnMarkdownError pageId (message e)));;
       ret "").

(** ** Page writer *)

(** [val !== null && val !== undefined && val !== ""] *)
Definition keeps (val : value) : bool :=
  match val with
  | VNull | VUndef => false
  | VStr s => negb (String.eqb s "")
  | _ => true
  end.

Definition excluded (cfg : dbCfg) (name : string) : bool :=
  existsb (is_str name) (excludeProps cfg).

(** The loop over [Object.entries(page.properties || {})]. *)
Fixpoint front_properties (cfg : dbCfg) (props : list (string * value))
    (front : list (string * value)) : res (list (string * value)) :=
  match props with
  | [] => Ok front
  | (name, prop) :: props' =>
      if excluded cfg name then front_properties cfg props' front
      else
        let? val := extractPropValue prop in
        front_properties cfg props'
          (if keeps val then obj_set (js_trim name) val front else front)
  end.

(** [c.type === "external" ? c.external?.url : c.file?.url] *)
Definition image_url (c : value) : value :=
  if is_str "external" (get_opt "type" c) then get_opt "url" (get_opt "external" c)
  else get_opt "url" (get_opt "file" c).

Definition toFrontMatterYaml (obj : value) : res string :=
  let? y := yaml_dump P obj in
  Ok ("---" +:+ String "010" "" +:+ y +:+ "---" +:+ String "010" "").

(** The front matter object of [writePage] before the cover and the icon. *)
Definition front_base (cfg : dbCfg) (page : value) (slug permalink : string)
  : res (list (string * value)) :=
  let? title := getFirstTitleText page in
  let? id := get "id" page in
  let front := obj_spread [("layout", layout cfg);
                           ("title", js_or title (VStr slug));
                           ("permalink", VStr permalink);
                           ("notionPageId", id)] (fmExtras cfg) in
  let? props := get "properties" page in
  front_properties cfg (entries (js_or props (VObj []))) front.

Definition front_cover (cfg : dbCfg) (page : value) (slug : string)
    (front : list (string * value)) : M (list (string * value)) :=
  do cover <- lift (get "cover" page);
  if truthy cover then
    let coverUrl := image_url cover in
    if truthy coverUrl then
      do localCoverPath <- saveNotionImage coverUrl slug "cover" (imagesDir cfg);
      ret (obj_set "coverImage" localCoverPath front)
    else ret front
  else ret front.

Definition front_icon (cfg : dbCfg) (page : value) (slug : string)
    (front : list (string * value)) : M (list (string * value)) :=
  do icon <- lift (get "icon" page);
  if truthy icon
     && (is_str "external" (get_opt "type" icon) || is_str "file" (get_opt "type" icon)) then
    let iconUrl := image_url icon in
    if truthy iconUrl then
      do localIconPath <- saveNotionImage iconUrl slug "icon" (imagesDir cfg);
      ret (obj_set "iconImage" localIconPath front)
    else ret front
  else ret front.

(** The front matter object that [writePage] serialises. *)
Definition front_matter (cfg : dbCfg) (page : value) (slug permalink : string)
  : M (list (string * value)) :=
  do front <- lift (front_base cfg page slug permalink);
  do front <- front_cover cfg page slug front;
  front_icon cfg page slug front.

Definition writePage (cfg : dbCfg) (page : value) (pageMap : gmap string string)
  : M string :=
  do slug <- lift (buildSlug page (slugConf cfg));
  do permalink <- lift (renderPermalink (permalinkTpl cfg) slug);
  do front <- front_matter cfg page slug permalink;
  do fm <- lift (toFrontMatterYaml (VObj front));
  do id <- lift (get "id" page);
  do body <- pageBodyMarkdown id slug (imagesDir cfg) pageMap;
  ensureDir (dir cfg);;
  writeFileSync (dir cfg) (slug +:+ ".md") (fm +:+ body);;
  ret (path_join (dir cfg) (slug +:+ ".md")).

(** ** Remote listing *)

Definition fetchDatabaseMeta (database_id : string) : M value :=
  modify (add_call (CallRetrieve database_id));;
  lift (databases_retrieve P database_id).

(** [results.push(...v)] *)
Definition iterate (v : value) : res (list value) :=
  match v with
  | VArr l => Ok l
  | VStr _ => Ok (List.map snd (entries v))
  | _ => Throw (TypeError "Spread syntax requires ...iterable[Symbol.iterator] to be a function")
  end.

(** The [while (hasMore)] loop of [fetchAllPages], one response of the
    platform per request; a request beyond the last response is rejected. *)
Fixpoint fetch_pages (database_id : string) (responses : list (res value))
    (start_cursor : value) (results : list value) : M (list value) :=
  modify (add_call (CallQuery database_id start_cursor));;
  match responses with
  | [] => throw (Error "request failed")
  | r :: responses' =>
      do resp <- lift r;
      do batch <- lift (let? rs := get "results" resp in iterate rs);
      do hasMore <- lift (get "has_more" resp);
      do next <- lift (get "next_cursor" resp);
      if truthy hasMore then fetch_pages database_id responses' next (results ++ batch)
      else ret (results ++ batch)
  end.

Definition fetchAllPages (database_id : string) : M (list value) :=
  fetch_pages database_id (databases_query P database_id) VUndef [].

(** ** Orchestrator *)

Record options : Type := {
  notionToken : value;
  configPath : value;
  config : value
}.

Record db_pages : Type := {
  pages : list value;
  dbMeta : value;
  dbCfg_of : dbCfg
}.

Record result : Type := {
  databaseId : value;
  databaseTitle : value;
  pagesExported : nat;
  filesWritten : list string;
  filesDeleted : list string
}.

Record pass1_state : Type := {
  pageMap : gmap string string;
  allDbPages : gmap string db_pages
}.

(** [page.id.replace(/-/g, "")] *)
Definition page_key (page : value) : res string :=
  let? id := get "id" page in
  match id with
  | VStr s => Ok (remove_dashes s)
  | _ => let? _ := get "replace" id in Throw (TypeError "page.id.replace is not a function")
  end.

Fixpoint map_pages (cfg : dbCfg) (ps : list value) (pageMap : gmap string string)
  : res (gmap string string) :=
  match ps with
  | [] => Ok pageMap
  | page :: ps' =>
      let? slug := buildSlug page (slugConf cfg) in
      let? permalink := renderPermalink (permalinkTpl cfg) slug in
      let? key := page_key page in
      map_pages cfg ps' (<[key := permalink]> pageMap)
  end.

(** The body of the first loop: one source is enumerated. *)
Definition enumerate_source (st : pass1_state) (dbConf : value) : M pass1_state :=
  do rawId <- lift (get "databaseId" dbConf);
  if negb (truthy rawId) then
    throw (Error "Each database config must have a 'databaseId' field")
  else
    do dbId <- lift (extractDatabaseId rawId);
    do meta <- fetchDatabaseMeta dbId;
    do cfg <- lift (detectDbConfig dbConf meta);
    do ps <- fetchAllPages dbId;
    let all := <[dbId := {| pages := ps; dbMeta := meta; dbCfg_of := cfg |}]> (allDbPages st) in
    do pm <- lift (map_pages cfg ps (pageMap st));
    ret {| pageMap := pm; allDbPages := all |}.

Fixpoint first_pass (st : pass1_state) (databases : list value) : M pass1_state :=
  match databases with
  | [] => ret st
  | dbConf :: rest =>
      do st' <- enumerate_source st dbConf;
      first_pass st' rest
  end.

(** [writtenFiles.add(outPath)] *)
Definition set_add (x : string) (l : list string) : list string :=
  if bool_decide (x ∈ l) then l else l ++ [x].

Fixpoint write_pages (cfg : dbCfg) (pageMap : gmap string string) (ps : list value)
    (writtenFiles : list string) : M (list string) :=
  match ps with
  | [] => ret writtenFiles
  | page :: ps' =>
      do outPath <- writePage cfg page pageMap;
      modify (add_console (LogWritten (path_relative (cwd P) outPath)));;
      write_pages cfg pageMap ps' (set_add outPath writtenFiles)
  end.

Definition is_markdown_name (file : string) : bool := endsWith ".md" file.

(** The body of the second loop: one source is cleaned and written. *)
Definition write_source (st : pass1_state) (dbConf : value) : M result :=
  do dbId <- lift (get "databaseId" dbConf);
  match (match dbId with
         | VStr s => allDbPages st !! s
         | _ => None
         end) with
  | None => throw (TypeError "Cannot destructure property 'pages' of undefined")
  | Some db =>
      let cfg := dbCfg_of db in
      ensureDir (dir cfg);;
      ensureDir (imagesDir cfg);;
      do deletedFiles <-
        (if cleanBeforeSync cfg then
           modify (add_console (LogCleaning (dir cfg)));;
           do deletedMd <- cleanDirectory (dir cfg) (Some is_markdown_name);
           modify (add_console (LogRemovedMarkdown (length deletedMd)));;
           do srcDirImages <- lift (get "srcDirImages" dbConf);
           if truthy srcDirImages then
             modify (add_console (LogCleaningImages (imagesDir cfg)));;
             do deletedImages <- cleanDirectory (imagesDir cfg) None;
             modify (add_console (LogRemovedImages (length deletedImages)));;
             ret (deletedMd ++ deletedImages)
           else ret deletedMd
         else ret []);
      let title := js_or (get_opt "plain_text" (get_opt "0" (get_opt "title" (dbMeta db)))) dbId in
      modify (add_console (LogExporting (length (pages db)) title (dir cfg)));;
      do writtenFiles <- write_pages cfg (pageMap st) (pages db) [];
      ret {| databaseId := dbId;
             databaseTitle := title;
             pagesExported := length (pages db);
             filesWritten := writtenFiles;
             filesDeleted := deletedFiles |}
  end.

Definition second_pass (st : pass1_state) (databases : list value) : M (list result) :=
  forM (write_source st) databases.

Definition exportNotionToSSG (opts : options) : M (list result) :=
  let token := js_or (notionToken opts) (env_token P) in
  if negb (truthy token) then
    throw (Error "Missing NOTION_TOKEN. Provide it via options or environment variable.")
  else
    do cfg <- lift (if truthy (config opts) then Ok (config opts)
                    else load_config P (configPath opts));
    do databases <- lift (get "databases" cfg);
    match databases with
    | VArr dbs =>
        do st <- first_pass {| pageMap := ∅; allDbPages := ∅ |} dbs;
        second_pass st dbs
    | _ => throw (Error "Config must have a 'databases' array with at least one database")
    end.

End Engine.

(** ** Listing the Markdown files of a directory *)

Definition getAllMarkdownFilesInDir (d : string) : M (list string) :=
  do present <- gets (fun w => bool_decide (is_Some (disk w !! d)));
  if negb present then ret []
  else
    do files <- gets (fun w => List.map fst (map_to_list (dir_entries d w)));
    ret (List.map (path_join d) (List.filter is_markdown_name files)).

(** ** Loading the configuration file *)

(** The files that [loadConfig] reads and the two parsers. *)
Record config_files : Type := {
  (** [fs.existsSync(p)] *)
  config_exists : string -> bool;
  (** [fs.readFileSync(p, "utf8")] *)
  config_read : string -> res string;
  (** [JSON.parse] *)
  JSON_parse : string -> res value;
  (** [yaml.load] *)
  yaml_load : string -> res value
}.

Definition default_config_names : list string :=
  ["notion.config.json"; "notion.config.yaml"; "notion.config.yml"].

Section LoadConfig.

Variable F : config_files.
Variable cwd : string.

Definition tryPaths (configPath : value) : list value :=
  if truthy configPath then [configPath]
  else List.map (fun name => VStr (path_join cwd name)) default_config_names.

(** The body of the loop for a path that exists. *)
Definition read_config (p : string) : res value :=
  if endsWith ".json" p then
    let? text := config_read F p in JSON_parse F text
  else
    let? text := config_read F p in yaml_load F text.

(** The loop over [tryPaths]: the value returned from inside it, if any.
    A path that is not a string does not exist. *)
Fixpoint try_paths (paths : list value) : option (res value) :=
  match paths with
  | [] => None
  | VStr p :: rest => if config_exists F p then Some (read_config p) else try_paths rest
  | _ :: rest => try_paths rest
  end.

Definition loadConfig (configPath : value) : res value :=
  match try_paths (tryPaths configPath) with
  | Some r => r
  | None =>
      if truthy configPath then
        Throw (Error ("Config file not found: " +:+ js_String configPath))
      else
        Throw (Error ("No notion.config.json, notion.config.yaml, or notion.config.yml "
                      +:+ "found in project root"))
  end.

End LoadConfig.

(** ** The command line ([main]) *)

Record cli_flags : Type := {
  argConfigPath : value;
  showHelp : bool;
  showVersion : bool
}.

(** The loop over [process.argv.slice(2)]. *)
Fixpoint parse_args (args : list string) (flags : cli_flags) : cli_flags :=
  match args with
  | [] => flags
  | arg :: rest =>
      if String.eqb arg "-h" || String.eqb arg "--help" then
        parse_args rest {| argConfigPath := argConfigPath flags;
                           showHelp := true;
                           showVersion := showVersion flags |}
      else if String.eqb arg "-v" || String.eqb arg "--version" then
        parse_args rest {| argConfigPath := argConfigPath flags;
                           showHelp := showHelp flags;
                           showVersion := true |}
      else if String.eqb arg "-c" || String.eqb arg "--config" then
        match rest with
        | next :: rest' =>
            parse_args rest' {| argConfigPath := VStr next;
                                showHelp := showHelp flags;
                                showVersion := showVersion flags |}
        | [] => {| argConfigPath := VUndef;
                   showHelp := showHelp flags;
                   showVersion := showVersion flags |}
        end
      else if negb (startsWith "-" arg) then
        parse_args rest {| argConfigPath := VStr arg;
                           showHelp := showHelp flags;
                           showVersion := showVersion flags |}
      else parse_args rest flags
  end.

Inductive cli_output : Type :=
| PrintVersion (version : value)
| PrintHelp
| PrintStarting
| PrintCompleted
| PrintSummary (databaseTitle : value) (pagesExported : nat)
| PrintStale (n : nat)
| PrintError (message : string)
| PrintStack.

(** What a run of the command leaves: the argument of [process.exit] if it
    was called, the lines printed in order, and the world. *)
Record cli_run : Type := {
  exit_code : option Z;
  output : list cli_output;
  final : world
}.

Definition summary (results : list result) : list cli_output :=
  flat_map (fun r =>
    PrintSummary (databaseTitle r) (pagesExported r)
    :: (if (0 <? length (filesDeleted r))%nat then [PrintStale (length (filesDeleted r))]
        else [])) results.

(** The [try] block of [main]; [debug] is [process.env.DEBUG]. *)
Definition run_export (P : platform) (debug : value) (configPath : value) (w : world)
  : cli_run :=
  match exportNotionToSSG P {| notionToken := env_token P;
                               configPath := configPath;
                               config := VUndef |} w with
  | (Ok results, w') =>
      {| exit_code := None;
         output := PrintStarting :: PrintCompleted :: summary results;
         final := w' |}
  | (Throw error, w') =>
      {| exit_code := Some 1%Z;
         output := PrintStarting :: PrintError (message error)
                   :: (if truthy debug then [PrintStack] else []);
         final := w' |}
  end.

(** [main]; [version] is the [version] of [package.json]. *)
Definition main (P : platform) (version debug : value) (args : list string) (w : world)
  : cli_run :=
  let flags := parse_args args {| argConfigPath := VNull;
                                  showHelp := false;
                                  showVersion := false |} in
  if showVersion flags then
    {| exit_code := Some 0%Z; output := [PrintVersion version]; final := w |}
  else if showHelp flags then
    {| exit_code := Some 0%Z; output := [PrintHelp]; final := w |}
  else run_export P debug (argConfigPath flags) w.

(** * The comments plugin of [src/eleventy-plugin-notion-comments.js] *)

(** What the plugin keeps from its options. *)
Record comment_settings : Type := {
  commentsDatabaseId : string;
  commentFormAction : value;
  enableModeration : bool;
  cacheComments : bool
}.

(** The prologue of the plugin function: validation of the options;
    [envToken] is [process.env.NOTION_TOKEN].  The plugin carries its own
    copy of [extractDatabaseId], the same text as in [index.js]. *)
Definition pluginSettings (envToken options : value) : res comment_settings :=
  let options := match options with
                 | VUndef => VObj []
                 | _ => options
                 end in
  let? notionToken := get "notionToken" options in
  if negb (truthy (js_or notionToken envToken)) then
    Throw (Error ("Notion Comments Plugin: Missing notionToken. Provide it via plugin "
                  +:+ "options or NOTION_TOKEN environment variable."))
  else
    let? databaseId := get "databaseId" options in
    if negb (truthy databaseId) then
      Throw (Error ("Notion Comments Plugin: Missing databaseId option. Provide the "
                    +:+ "Notion database ID for storing comments."))
    else
      let? id := extractDatabaseId databaseId in
      let? action := get "commentFormAction" options in
      let? moderation := get "enableModeration" options in
      let? cache := get "cacheComments" options in
      Ok {| commentsDatabaseId := id;
            commentFormAction := js_or action (VStr "/api/comments");
            enableModeration := is_not_false moderation;
            cacheComments := is_not_false cache |}.

(** [(x || []).map((t) => t.plain_text || "").join("")] *)
Definition plain_texts (x : value) : res value :=
  let? l := js_map (fun t => let? p := get "plain_text" t in Ok (js_or p (VStr "")))
              (js_or x (VArr [])) in
  Ok (VStr (js_join_empty l)).

Definition extractPlainText (prop : value) : res value :=
  if negb (truthy prop) then Ok (VStr "")
  else
    let? ty := get "type" prop in
    if is_str "title" ty then let? x := get "title" prop in plain_texts x
    else if is_str "rich_text" ty then let? x := get "rich_text" prop in plain_texts x
    else if is_str "email" ty then let? x := get "email" prop in Ok (js_or x (VStr ""))
    else Ok (VStr "").

(** The replacement of one character by [escapeHtml]. *)
Definition escape_char (c : ascii) : list ascii :=
  if Ascii.eqb c "&" then chars "&amp;"
  else if Ascii.eqb c "<" then chars "&lt;"
  else if Ascii.eqb c ">" then chars "&gt;"
  else if Ascii.eqb c "034" then chars "&quot;"
  else if Ascii.eqb c "'" then chars "&#039;"
  else [c].

Definition escapeHtml (text : value) : res string :=
  match text with
  | VStr s => Ok (str (flat_map escape_char (chars s)))
  | _ => let? _ := get "replace" text in Throw (TypeError "text.replace is not a function")
  end.

(** The Notion client of the plugin and the clock. *)
Record notion_client : Type := {
  (** [notion.databases.query] *)
  query_database : value -> res value;
  (** [notion.pages.create] *)
  pages_create : value -> res value;
  (** [new Date().toISOString()] *)
  now_iso : string
}.

(** What a call of the plugin sends and prints, in order. *)
Inductive plugin_event : Type :=
| SentQuery (request : value)
| SentCreate (request : value)
| PrintedFetchError (pageId : value) (message : string)
| PrintedSubmitError (message : string).

Section Comments.

Variable client : notion_client.
Variable settings : comment_settings.

Definition published_filter : value :=
  VObj [("property", VStr "published"); ("checkbox", VObj [("equals", VBool true)])].

(** The argument of [notion.databases.query] in [fetchComments]. *)
Definition comments_query (pageId : value) : value :=
  VObj [("database_id", VStr (commentsDatabaseId settings));
        ("filter",
         VObj [("and",
                VArr (VObj [("property", VStr "pageId");
                            ("rich_text", VObj [("equals", pageId)])]
                      :: (if enableModeration settings then [published_filter] else [])))]);
        ("sorts",
         VArr [VObj [("property", VStr "createdAt"); ("direction", VStr "ascending")]])].

(** The callback of [response.results.map]. *)
Definition comment_of (page : value) : res value :=
  let? props := get "properties" page in
  let? id := get "id" page in
  let? author := (let? p := get "author" props in extractPlainText p) in
  let? email := (let? p := get "email" props in extractPlainText p) in
  let? content := (let? p := get "content" props in extractPlainText p) in
  let? created := get "createdAt" props in
  let? created_time := get "created_time" page in
  let? published := get "published" props in
  Ok (VObj [("id", id);
            ("author", author);
            ("email", email);
            ("content", content);
            ("createdAt", js_or (get_opt "start" (get_opt "date" created)) created_time);
            ("published", js_or (get_opt "checkbox" published) (VBool false))]).

Definition fetchComments (pageId : value) : list value * list plugin_event :=
  let request := comments_query pageId in
  match (let? response := query_database client request in
         let? results := get "results" response in
         js_map comment_of results) with
  | Ok comments => (comments, [SentQuery request])
  | Throw error => ([], [SentQuery request; PrintedFetchError pageId (message error)])
  end.

Definition rich_content (s : value) : value :=
  VArr [VObj [("text", VObj [("content", VStr (js_String s))])]].

(** The argument of [notion.pages.create] in [submitComment]. *)
Definition comment_page (pageId author email content : value) : value :=
  VObj [("parent", VObj [("database_id", VStr (commentsDatabaseId settings))]);
        ("properties",
         VObj [("pageId", VObj [("rich_text", rich_content pageId)]);
               ("author", VObj [("title", rich_content author)]);
               ("email", VObj [("email", VStr (js_String email))]);
               ("content", VObj [("rich_text", rich_content content)]);
               ("published", VObj [("checkbox", VBool (negb (enableModeration settings)))]);
               ("createdAt", VObj [("date", VObj [("start", VStr (now_iso client))])])])].

(** [const { pageId, author, email, content } = commentData] and the check
    of the four fields. *)
Definition checked_comment (commentData : value) : res value :=
  match commentData with
  | VUndef | VNull =>
      Throw (TypeError "Cannot destructure property 'pageId' of 'commentData'")
  | _ =>
      let pageId := own "pageId" commentData in
      let author := own "author" commentData in
      let email := own "email" commentData in
      let content := own "content" commentData in
      if negb (truthy pageId) || negb (truthy author) || negb (truthy email)
         || negb (truthy content) then
        Throw (Error "Missing required fields: pageId, author, email, content")
      else Ok (comment_page pageId author email content)
  end.

Definition submitComment (commentData : value) : res value * list plugin_event :=
  match checked_comment commentData with
  | Throw e => (Throw e, [])
  | Ok request =>
      match pages_create client request with
      | Ok response => (Ok response, [SentCreate request])
      | Throw error => (Throw error, [SentCreate request; PrintedSubmitError (message error)])
      end
  end.

End Comments.

(** ** Vocabulary of the statements *)




(** [providedConfig || loadConfig(configPath)] *)
Definition the_config (P : platform) (opts : options) : res value :=
  if truthy (config opts) then Ok (config opts) else load_config P (configPath opts).

Definition empty_state : pass1_state := {| pageMap := ∅; allDbPages := ∅ |}.

(** Only remote calls were added between two worlds. *)
Definition only_calls (w w' : world) : Prop :=
  disk w' = disk w /\ imageCache w' = imageCache w /\ writes w' = writes w
  /\ console w' = console w /\ ticks w' = ticks w
  /\ exists new, calls w' = new ++ calls w.

(** A computation that adds remote calls and nothing else. *)
Definition calls_only {A} (m : M A) : Prop := forall w, only_calls w (snd (m w)).

(** Every source is filed under a bare 32-digit identifier. *)
Definition keys_bare (st : pass1_state) : Prop :=
  forall k, is_Some (allDbPages st !! k) -> is_hex32 k = true.


(** File-system steps leave the console and the image cache alone. *)
Definition quiet {A} (m : M A) : Prop :=
  forall w, console (snd (m w)) = console w /\ imageCache (snd (m w)) = imageCache w.

(** [name] is a Markdown file of directory [d]. *)
Definition is_md_file (d : string) (w : world) (name : string) : Prop :=
  is_markdown_name name = true /\ exists content, dir_entries d w !! name = Some (EFile content).

(** The entries with a Markdown name are the same in two worlds. *)
Definition same_md (w w' : world) : Prop :=
  forall d n, is_markdown_name n = true -> dir_entries d w' !! n = dir_entries d w !! n.

Definition md_stable {A} (m : M A) : Prop := forall w, same_md w (snd (m w)).


(** The test and the loop body of [cleanDirectory]. *)
Definition pattern_matches (pattern : option (string -> bool)) (file : string) : bool :=
  match pattern with
  | None => true
  | Some matches => matches file
  end.

Definition clean_step (P : platform) (d : string) (pattern : option (string -> bool))
    (fe : string * entry) : M (list string) :=
  let '(file, e) := fe in
  if is_file e && match pattern with
                  | None => true
                  | Some matches => matches file
                  end
  then unlinkSync P d file;; ret [path_join d file]
  else ret [].


(** *** Two runs on the same snapshot

    A second run differs from the first in what it finds on disk, in the
    clock, and in what it prints; it starts with the same image cache. *)

Definition no_faults (P : platform) : Prop := forall op, fs_fault P op = false.

(** The directories hold regular files only. *)
Definition files_only (w : world) : Prop :=
  map_Forall (fun _ es => map_Forall (fun _ e => is_file e = true) es) (disk w).

Definition same_run (w1 w2 : world) : Prop :=
  imageCache w1 = imageCache w2 /\ calls w1 = calls w2 /\ writes w1 = writes w2
  /\ files_only w1 /\ files_only w2.

(** Two results of one source that differ at most in the deletions. *)
Definition same_output (r1 r2 : result) : Prop :=
  databaseId r1 = databaseId r2 /\ databaseTitle r1 = databaseTitle r2
  /\ pagesExported r1 = pagesExported r2 /\ filesWritten r1 = filesWritten r2.

Definition agrees {A} (Q : A -> A -> Prop) (o1 o2 : res A * world) : Prop :=
  same_run (snd o1) (snd o2)
  /\ match fst o1, fst o2 with
     | Ok a1, Ok a2 => Q a1 a2
     | Throw e1, Throw e2 => e1 = e2
     | _, _ => False
     end.

Definition sim {A} (Q : A -> A -> Prop) (m1 m2 : M A) : Prop :=
  forall w1 w2, same_run w1 w2 -> agrees Q (m1 w1) (m2 w2).

(** The local path of a successfully fetched image. *)
Definition saved_path (P : platform) (url pageSlug imageIndex imagesDir : string)
  : option string :=
  match http_get P url with
  | Download200 body =>
      Some (relative_to_src P imagesDir
              (imageFilename pageSlug imageIndex (String.substring 0 8 (md5_hex P body))
                 (getImageExtension url)))
  | _ => None
  end.

(** [c] occurs in [s]. *)
Definition has_char (c : ascii) (s : string) : bool := existsb (Ascii.eqb c) (chars s).

(** [text] has no opening bracket and does not end with an exclamation
    mark: nothing in it starts a link or turns what follows into an image. *)
Definition plain_text (text : list ascii) : bool :=
  negb (existsb (Ascii.eqb "[") text) && negb (Ascii.eqb (List.last text " "%char) "!").



(** ** An example workspace

    Used to run the definitions on concrete inputs. *)

(** The ASCII entries of the character table of [slugify] under locale
    [fr]. *)
Definition charMap_fr (c : ascii) : option string :=
  if Ascii.eqb c "$" then Some "dollar"
  else if Ascii.eqb c "%" then Some "pourcent"
  else if Ascii.eqb c "&" then Some "et"
  else if Ascii.eqb c "<" then Some "plus petit"
  else if Ascii.eqb c ">" then Some "plus grand"
  else if Ascii.eqb c "|" then Some "ou"
  else None.

Definition blog_id : string := "aaaaaaaaaaaaaaaaaaaaaaaaaaaaaaaa".
Definition docs_id : string := "bbbbbbbbbbbbbbbbbbbbbbbbbbbbbbbb".
Definition post_id : string := "11111111-1111-1111-1111-111111111111".
Definition guide_id : string := "22222222-2222-2222-2222-222222222222".

Definition concat_strings (l : list string) : string :=
  fold_right String.append "" l.

Definition rich (s : string) : value := VArr [VObj [("plain_text", VStr s)]].

Definition title_prop (s : string) : value :=
  VObj [("type", VStr "title"); ("title", rich s)].

Definition page_of (id : string) (props : list (string * value)) : value :=
  VObj [("id", VStr id); ("properties", VObj props)].

Definition example_cfg : dbCfg :=
  {| dir := "/site/src/blog";
     imagesDir := "/site/src/images/notion";
     basePath := VStr "/blog";
     layout := VStr "post.njk";
     excludeProps := [VStr "Done"];
     slugConf := default_slugConf;
     permalinkTpl := VStr "/blog/{slug}/";
     fmExtras := VObj [("tags", VStr "post")];
     cleanBeforeSync := true |}.


Definition ok_or {A} (d : A) (r : res A) : A :=
  match r with
  | Ok a => a
  | Throw _ => d
  end.


Definition listing (ps : list value) : list (res value) :=
  [Ok (VObj [("results", VArr ps); ("has_more", VBool false); ("next_cursor", VNull)])].

Definition fresh (d : gmap string (gmap string entry)) : world :=
  {| disk := d; imageCache := ∅; calls := []; writes := []; console := []; ticks := 0 |}.

Definition source_of (databaseId srcDir : string) (more : list (string * value)) : value :=
  VObj ([("databaseId", VStr databaseId); ("srcDir", VStr srcDir);
         ("basePath", VStr ("/" +:+ srcDir)); ("layout", VStr "post.njk")] ++ more).

Definition options_of (sources : list value) : options :=
  {| notionToken := VStr "secret";
     configPath := VUndef;
     config := VObj [("databases", VArr sources)] |}.

(** A workspace with two databases: a blog whose page links to a page of
    the documentation, twice (by bare identifier, and by the address with
    the title in front), and carries one hosted image; and the
    documentation, whose page carries an image with the same bytes under
    another address. *)

Definition post_body : string :=
  "See [the guide](https://www.notion.so/22222222222222222222222222222222), also "
  +:+ "[here](https://www.notion.so/Guide-22222222222222222222222222222222). "
  +:+ "![logo](https://files.notion.example/one/logo.png)".

Definition guide_body : string :=
  "![logo](https://files.notion.example/two/logo.png)".

Definition example_platform : platform := {|
  charMap := charMap_fr;
  yaml_dump := fun v =>
    Ok (concat_strings (List.map (fun '(k, x) => k +:+ ": " +:+ js_String x +:+ String "010" "")
                          (entries v)));
  md5_hex := fun body => if String.eqb body "PNG" then "0f0f0f0f0f0f0f0f0f0f0f0f0f0f0f0f"
                         else "00000000000000000000000000000000";
  cwd := "/site";
  env_token := VUndef;
  load_config := fun _ => Throw (Error "Config file not found");
  date_now := fun n => (1700000000000 + Z.of_nat n)%Z;
  fs_fault := fun _ => false;
  databases_retrieve := fun id =>
    if String.eqb id blog_id then Ok (VObj [("title", rich "Blog")])
    else if String.eqb id docs_id then Ok (VObj [("title", rich "Docs")])
    else Throw (Error "Could not find database");
  databases_query := fun id =>
    if String.eqb id blog_id then listing [page_of post_id [("Name", title_prop "My First Post")]]
    else if String.eqb id docs_id then listing [page_of guide_id [("Name", title_prop "Guide")]]
    else [Throw (Error "Could not find database")];
  page_markdown := fun pageId =>
    if is_str post_id pageId then Ok post_body
    else if is_str guide_id pageId then Ok guide_body
    else Ok "";
  http_get := fun url =>
    if endsWith "/logo.png" url then Download200 "PNG" else DownloadStatus 404
|}.

Definition two_sources : options :=
  options_of [source_of blog_id "src/blog" []; source_of docs_id "src/docs" []].

(** The disk that a first run of the example leaves behind. *)
Definition disk_after_first_run : gmap string (gmap string entry) :=
  disk (snd (exportNotionToSSG example_platform two_sources (fresh ∅))).


Definition old_disk : gmap string (gmap string entry) :=
  {[ "/site/src/blog" := {[ "old-post.md" := EFile "old" ]} ]}.



(** The same workspace, where the body of the blog page is one sentence
    with one link to the page of the documentation, a source that comes
    later in the configuration. *)
Definition linked_body : string :=
  "See [the guide](https://www.notion.so/22222222222222222222222222222222) for more.".

Definition linked_platform : platform := {|
  charMap := charMap example_platform;
  yaml_dump := yaml_dump example_platform;
  md5_hex := md5_hex example_platform;
  cwd := cwd example_platform;
  env_token := env_token example_platform;
  load_config := load_config example_platform;
  date_now := date_now example_platform;
  fs_fault := fs_fault example_platform;
  databases_retrieve := databases_retrieve example_platform;
  databases_query := databases_query example_platform;
  page_markdown := fun pageId =>
    if is_str post_id pageId then Ok linked_body else Ok "";
  http_get := http_get example_platform
|}.

Definition linked_sources : list value :=
  [source_of blog_id "src/blog" []; source_of docs_id "src/docs" []].

Definition linked_enumerated : res pass1_state * world :=
  first_pass linked_platform empty_state linked_sources (fresh ∅).

(** The pages of the example, the state that the first pass returns for
    it, and the blog page as the second pass writes it. *)
Definition guide_page : value := page_of guide_id [("Name", title_prop "Guide")].
Definition post_page : value := page_of post_id [("Name", title_prop "My First Post")].

Definition linked_state : pass1_state := ok_or empty_state (fst linked_enumerated).

Definition linked_source (id : string) : db_pages :=
  default {| pages := []; dbMeta := VUndef; dbCfg_of := example_cfg |}
          (allDbPages linked_state !! id).


(** The test of the loop of [cleanDirectory] on one entry. *)
Definition cleaned (pattern : option (string -> bool)) (fe : string * entry) : bool :=
  is_file (snd fe) && pattern_matches pattern (fst fe).

(** The pages of one listing response. *)
Definition batch (resp : value) : list value := elements_of (own "results" resp).

(** The listing requests recorded for the cursors [cs], oldest first. *)
Definition queried (id : string) (cs : list value) (w : world) : world :=
  fold_left (fun w c => add_call (CallQuery id c) w) cs w.

(** A database that answers a listing in two parts. *)
Definition first_answer : value :=
  VObj [("results", VArr [post_page]); ("has_more", VBool true); ("next_cursor", VStr "c1")].

Definition last_answer : value :=
  VObj [("results", VArr [guide_page]); ("has_more", VBool false); ("next_cursor", VNull)].

(** The example workspace with other answers to the listing requests and
    another conversion of the pages. *)
Definition platform_with (answers : string -> list (res value))
    (markdown : value -> res string) : platform := {|
  charMap := charMap example_platform;
  yaml_dump := yaml_dump example_platform;
  md5_hex := md5_hex example_platform;
  cwd := cwd example_platform;
  env_token := env_token example_platform;
  load_config := load_config example_platform;
  date_now := date_now example_platform;
  fs_fault := fs_fault example_platform;
  databases_retrieve := databases_retrieve example_platform;
  databases_query := answers;
  page_markdown := markdown;
  http_get := http_get example_platform
|}.

Definition paged_platform (answers : list (res value)) : platform :=
  platform_with (fun _ => answers) (page_markdown example_platform).

(** Words of letters and digits separated by single dashes: [dashed true]
    accepts the non-empty lists that neither start nor end with a dash and
    have no two dashes in a row; the flag tells that a dash may not come
    next. *)
Fixpoint dashed (after_dash : bool) (l : list ascii) : bool :=
  match l with
  | [] => negb after_dash
  | c :: l' =>
      if Ascii.eqb c "-" then negb after_dash && dashed true l'
      else is_alnum c && dashed false l'
  end.

Definition is_help (arg : string) : bool := String.eqb arg "-h" || String.eqb arg "--help".
Definition is_version (arg : string) : bool :=
  String.eqb arg "-v" || String.eqb arg "--version".
Definition is_config_flag (arg : string) : bool :=
  String.eqb arg "-c" || String.eqb arg "--config".

(** The arguments that do not start with a dash. *)
Definition positional (args : list string) : list string :=
  List.filter (fun arg => negb (startsWith "-" arg)) args.

(** The four characters that [escapeHtml] never lets through. *)
Definition is_markup (c : ascii) : bool :=
  Ascii.eqb c "<" || Ascii.eqb c ">" || Ascii.eqb c "034" || Ascii.eqb c "'".

(** The four fields of a comment are all given. *)
Definition complete_comment (commentData : value) : bool :=
  truthy (own "pageId" commentData) && truthy (own "author" commentData)
  && truthy (own "email" commentData) && truthy (own "content" commentData).

(** * Properties *)

(** ** The normaliser *)

Lemma get_non_nullish k v : nullish v = false -> get k v = Ok (own k v).
Proof. by destruct v. Qed.

Lemma truthy_non_nullish v : truthy v = true -> nullish v = false.
Proof. by destruct v. Qed.

Lemma get_truthy k v : truthy v = true -> get k v = Ok (own k v).
Proof. intros H. by apply get_non_nullish, truthy_non_nullish. Qed.

Lemma depth_field k o : depth (field k o) < depth (VObj o).
Proof.
  induction o as [|[k' v] o IH]; simpl in *; [lia|].
  destruct (String.eqb k' k); lia.
Qed.

Lemma depth_elem l el : In el l -> depth el < depth (VArr l).
Proof.
  induction l as [|x l IH]; simpl; [done|].
  intros [->|H]; [lia|]. specialize (IH H). simpl in IH. lia.
Qed.

Lemma field_In k o : field k o = VUndef \/ In (field k o) (List.map snd o).
Proof.
  induction o as [|[k' v] o IH]; simpl; [by left|].
  destruct (String.eqb k' k); [right; by left|].
  destruct IH; [by left|right; by right].
Qed.


Lemma imap_snd {A B} (f : nat -> A -> B * A) (l : list A) :
  (forall i x, snd (f i x) = x) -> List.map snd (imap f l) = l.
Proof.
  revert f. induction l as [|x l IH]; intros f Hf; simpl; [done|].
  rewrite Hf. f_equal. apply IH. intros i y. apply Hf.
Qed.

Lemma index_keys_snd {A} (l : list A) : List.map snd (index_keys l) = l.
Proof. unfold index_keys. by apply imap_snd. Qed.

Lemma depth_own k v : depth (own k v) <= Nat.pred (depth v).
Proof.
  destruct v as [| | | |s|l|o]; simpl; try lia.
  - destruct (String.eqb k "length"); simpl; [lia|].
    destruct (field_In k (index_keys (List.map (fun c => VStr (String c "")) (chars s))))
      as [->|Hin]; [simpl; lia|].
    rewrite index_keys_snd in Hin. apply in_map_iff in Hin as (c & <- & _). simpl. lia.
  - destruct (String.eqb k "length"); simpl; [lia|].
    destruct (field_In k (index_keys l)) as [->|Hin]; [simpl; lia|].
    rewrite index_keys_snd in Hin. apply depth_elem in Hin. simpl in Hin. lia.
  - pose proof (depth_field k o) as H. simpl in H. lia.
Qed.

Lemma mapM_ext {A B} (f g : A -> res B) l :
  (forall x, In x l -> f x = g x) -> mapM f l = mapM g l.
Proof.
  induction l as [|x l IH]; simpl; intros H; [done|].
  rewrite (H x) by (by left). rewrite IH; [done|]. intros y Hy. apply H. by right.
Qed.

Lemma js_map_ext f g v :
  (forall x, In x (elements_of v) -> f x = g x) -> js_map f v = js_map g v.
Proof. destruct v; simpl; try done. apply mapM_ext. Qed.

Lemma rollup_element_ext f g el :
  (truthy el = true -> f (own "rollup" el) = g (own "rollup" el)) ->
  rollup_element f el = rollup_element g el.
Proof.
  intros H. unfold rollup_element.
  destruct (truthy el) eqn:Hel; simpl; [|done].
  rewrite !get_truthy by done. simpl.
  repeat (match goal with |- context [if ?b then _ else _] => destruct b; [done|] end).
  match goal with |- context [if ?b then _ else _] => destruct b end; [by apply H|].
  done.
Qed.

Lemma elements_or_empty arr x :
  In x (elements_of (js_or arr (VArr []))) -> In x (elements_of arr).
Proof. unfold js_or. destruct (truthy arr); simpl; [done|tauto]. Qed.

Lemma depth_elements x v : In x (elements_of v) -> depth x < depth v.
Proof. destruct v; simpl; try done. apply (depth_elem l). Qed.

Lemma depth_nested_rollup rollup el :
  In el (elements_of (js_or (own "array" rollup) (VArr []))) ->
  S (S (depth (own "rollup" el))) <= depth rollup.
Proof.
  intros H%elements_or_empty%depth_elements.
  pose proof (depth_own "array" rollup). pose proof (depth_own "rollup" el). lia.
Qed.

Lemma normalizeRollup_rec_fuel n m v :
  depth v <= n -> depth v <= m -> normalizeRollup_rec n v = normalizeRollup_rec m v.
Proof.
  revert m v. induction n as [|n IH]; intros m v Hn Hm.
  - destruct m as [|m]; [done|]. simpl.
    destruct (truthy v) eqn:Hv; simpl; [|done].
    rewrite !get_truthy by done. simpl.
    repeat (match goal with |- context [if ?b then _ else _] => destruct b; [done|] end).
    match goal with |- context [if ?b then _ else _] => destruct b end; [|done].
    erewrite js_map_ext; [done|]. intros el Hel.
    apply depth_nested_rollup in Hel. lia.
  - destruct m as [|m]; simpl.
    + destruct (truthy v) eqn:Hv; simpl; [|done].
      rewrite !get_truthy by done. simpl.
      repeat (match goal with |- context [if ?b then _ else _] => destruct b; [done|] end).
      match goal with |- context [if ?b then _ else _] => destruct b end; [|done].
      erewrite js_map_ext; [done|]. intros el Hel.
      apply depth_nested_rollup in Hel. lia.
    + destruct (truthy v) eqn:Hv; simpl; [|done].
      rewrite !get_truthy by done. simpl.
      repeat (match goal with |- context [if ?b then _ else _] => destruct b; [done|] end).
      match goal with |- context [if ?b then _ else _] => destruct b end; [|done].
      erewrite js_map_ext; [done|]. intros el Hel.
      apply rollup_element_ext. intros _.
      apply depth_nested_rollup in Hel. apply IH; lia.
Qed.










Lemma get_own k v : get k v = Ok (own k v) \/ nullish v = true.
Proof. destruct v; simpl; auto. Qed.











(** ** The front matter *)








(** *** Reasoning about world computations *)

Lemma bind_Ok {A B} (m : M A) (k : A -> M B) w b w' :
  bind m k w = (Ok b, w') -> exists a w1, m w = (Ok a, w1) /\ k a w1 = (Ok b, w').
Proof. unfold bind. destruct (m w) as [[a|e] w1]; [eauto|done]. Qed.

Lemma lift_Ok {A} (r : res A) w a w' : lift r w = (Ok a, w') -> r = Ok a /\ w' = w.
Proof. unfold lift. by intros [= -> ->]. Qed.

Lemma ret_Ok {A} (x : A) w a w' : ret x w = (Ok a, w') -> a = x /\ w' = w.
Proof. unfold ret. by intros [= -> ->]. Qed.






(** ** Slugs *)

Lemma alnum_survives c :
  is_alnum c = true ->
  c <> "-"%char /\ slug_remove c = false /\ is_space c = false.
Proof.
  destruct c as [[] [] [] [] [] [] [] []]; intros H; vm_compute in H; try discriminate H;
    repeat split; first [discriminate | reflexivity].
Qed.







Lemma toSlug_string P s lower : toSlug P (VStr s) lower = slugify P lower s.
Proof. unfold toSlug, js_or. simpl. by destruct s. Qed.




(** ** The first pass *)

Lemma only_calls_refl w : only_calls w w.
Proof. unfold only_calls. repeat split; try done. by exists []. Qed.

Lemma only_calls_trans w1 w2 w3 : only_calls w1 w2 -> only_calls w2 w3 -> only_calls w1 w3.
Proof.
  intros (? & ? & ? & ? & ? & n1 & ?) (? & ? & ? & ? & ? & n2 & ?).
  unfold only_calls. repeat split; try congruence.
  exists (n2 ++ n1). rewrite <- app_assoc. congruence.
Qed.

Lemma only_calls_add c w : only_calls w (add_call c w).
Proof. unfold only_calls. repeat split; try done. by exists [c]. Qed.

Lemma calls_only_bind {A B} (m : M A) (k : A -> M B) :
  calls_only m -> (forall a, calls_only (k a)) -> calls_only (bind m k).
Proof.
  intros Hm Hk w. unfold bind. specialize (Hm w). destruct (m w) as [[a|e] w1]; [|done].
  eapply only_calls_trans; [exact Hm|apply Hk].
Qed.

Lemma calls_only_lift {A} (r : res A) : calls_only (lift r).
Proof. intros w. apply only_calls_refl. Qed.

Lemma calls_only_ret {A} (a : A) : calls_only (ret a).
Proof. intros w. apply only_calls_refl. Qed.

Lemma calls_only_throw {A} e : calls_only (@throw A e).
Proof. intros w. apply only_calls_refl. Qed.

Lemma calls_only_add_call c : calls_only (modify (add_call c)).
Proof. intros w. apply only_calls_add. Qed.

Lemma calls_only_fetchDatabaseMeta P id : calls_only (fetchDatabaseMeta P id).
Proof.
  unfold fetchDatabaseMeta. apply calls_only_bind; [apply calls_only_add_call|].
  intros _. apply calls_only_lift.
Qed.

Lemma calls_only_fetch_pages id responses cursor results :
  calls_only (fetch_pages id responses cursor results).
Proof.
  revert cursor results. induction responses as [|r rs IH]; intros cursor results; simpl.
  - apply calls_only_bind; [apply calls_only_add_call|]. intros _. apply calls_only_throw.
  - apply calls_only_bind; [apply calls_only_add_call|]. intros _.
    repeat (apply calls_only_bind; [apply calls_only_lift|]; intros ?).
    match goal with |- context [if ?b then _ else _] => destruct b end;
      [apply IH|apply calls_only_ret].
Qed.

Lemma calls_only_enumerate_source P st dbConf : calls_only (enumerate_source P st dbConf).
Proof.
  unfold enumerate_source. apply calls_only_bind; [apply calls_only_lift|]. intros rawId.
  destruct (negb (truthy rawId)); [apply calls_only_throw|].
  apply calls_only_bind; [apply calls_only_lift|]. intros dbId.
  apply calls_only_bind; [apply calls_only_fetchDatabaseMeta|]. intros meta.
  apply calls_only_bind; [apply calls_only_lift|]. intros cfg.
  apply calls_only_bind; [apply calls_only_fetch_pages|]. intros ps.
  apply calls_only_bind; [apply calls_only_lift|]. intros pm. apply calls_only_ret.
Qed.

Lemma calls_only_first_pass P st dbs : calls_only (first_pass P st dbs).
Proof.
  revert st. induction dbs as [|dbConf dbs IH]; intros st; simpl; [apply calls_only_ret|].
  apply calls_only_bind; [apply calls_only_enumerate_source|]. intros st'. apply IH.
Qed.

Lemma get_Ok k v x : get k v = Ok x -> x = own k v /\ nullish v = false.
Proof. destruct v; unfold get; intros [= <-]; done. Qed.








(** *** Database identifiers *)

Lemma take_hex_spec n l h :
  take_hex n l = Some h -> length h = n /\ forallb is_hex h = true.
Proof.
  revert l h. induction n as [|n IH]; intros l h; simpl.
  - by intros [= <-].
  - destruct l as [|c l]; [done|]. destruct (is_hex c) eqn:Hc; [|done].
    destruct (take_hex n l) as [h'|] eqn:E; [|done]. intros [= <-].
    destruct (IH _ _ E) as [<- Hh]. simpl. by rewrite Hc, Hh.
Qed.

Lemma find_hex32_spec l h :
  find_hex32 l = Some h -> length h = 32 /\ forallb is_hex h = true.
Proof.
  induction l as [|c l IH]; cbn [find_hex32].
  - destruct (take_hex 32 []) eqn:E; [|done]. intros [= <-]. by apply take_hex_spec in E.
  - destruct (take_hex 32 (c :: l)) eqn:E; [|done]. intros [= <-]. by apply take_hex_spec in E.
Qed.

Lemma length_str l : String.length (str l) = length l.
Proof. induction l; simpl; congruence. Qed.

Lemma is_hex32_str h : length h = 32 -> forallb is_hex h = true -> is_hex32 (str h) = true.
Proof.
  intros Hlen Hhex. unfold is_hex32.
  rewrite length_str, Hlen, list_ascii_of_string_of_list_ascii, Hhex. done.
Qed.

Lemma extractDatabaseId_Ok v id :
  extractDatabaseId v = Ok id ->
  is_hex32 id = true /\ exists s, v = VStr s /\ (is_hex32 s = true -> id = s).
Proof.
  unfold extractDatabaseId. destruct v as [| | | |s| |]; try done.
  destruct (is_hex32 s) eqn:Hs.
  - intros [= <-]. eauto.
  - destruct (find_hex32 (chars s)) as [h|] eqn:E; [|done]. intros [= <-].
    apply find_hex32_spec in E as [? ?]. split; [by apply is_hex32_str|].
    exists s. split; [done|]. congruence.
Qed.

Lemma extractDatabaseId_bare s : is_hex32 s = true -> extractDatabaseId (VStr s) = Ok s.
Proof. intros H. unfold extractDatabaseId. by rewrite H. Qed.

Lemma grown_calls c w w' : only_calls w w' -> In c (calls w) -> In c (calls w').
Proof. intros (_ & _ & _ & _ & _ & new & ->) H. apply in_app_iff. by right. Qed.

Lemma fetch_pages_calls id responses cursor results w :
  In (CallQuery id cursor) (calls (snd (fetch_pages id responses cursor results w))).
Proof.
  assert (forall (k : M (list value)), calls_only k ->
            In (CallQuery id cursor)
               (calls (snd ((modify (add_call (CallQuery id cursor));; k) w)))) as Hk.
  { intros k Hframe. unfold bind, modify. eapply grown_calls; [apply Hframe|]. by left. }
  destruct responses as [|r rs]; cbn [fetch_pages]; apply Hk.
  - apply calls_only_throw.
  - repeat (apply calls_only_bind; [apply calls_only_lift|]; intros ?).
    match goal with |- context [if ?b then _ else _] => destruct b end;
      [apply calls_only_fetch_pages|apply calls_only_ret].
Qed.

Lemma enumerate_source_Ok P st dbConf w st' w' :
  enumerate_source P st dbConf w = (Ok st', w') ->
  exists s id meta cfg ps,
    own "databaseId" dbConf = VStr s
    /\ extractDatabaseId (VStr s) = Ok id
    /\ detectDbConfig P dbConf meta = Ok cfg
    /\ allDbPages st' = <[id := {| pages := ps; dbMeta := meta; dbCfg_of := cfg |}]> (allDbPages st)
    /\ map_pages P cfg ps (pageMap st) = Ok (pageMap st')
    /\ In (CallRetrieve id) (calls w') /\ In (CallQuery id VUndef) (calls w').
Proof.
  unfold enumerate_source.
  intros (rawId & w0 & [[-> _]%get_Ok ->]%lift_Ok & H)%bind_Ok.
  destruct (truthy (own "databaseId" dbConf)); cbn [negb] in H; [|done].
  apply bind_Ok in H as (id & w0 & [Hid ->]%lift_Ok & H).
  destruct (extractDatabaseId_Ok _ _ Hid) as (_ & s & Hs & _). rewrite Hs in Hid.
  apply bind_Ok in H as (meta & w1 & Hmeta & H).
  apply bind_Ok in H as (cfg & w1' & [Hcfg ->]%lift_Ok & H).
  apply bind_Ok in H as (ps & w2 & Hps & H).
  apply bind_Ok in H as (pm & w2' & [Hpm ->]%lift_Ok & [-> ->]%ret_Ok).
  exists s, id, meta, cfg, ps. repeat split; try done.
  - pose proof (calls_only_fetch_pages id (databases_query P id) VUndef [] w1) as Hframe.
    unfold fetchAllPages in Hps. rewrite Hps in Hframe. eapply grown_calls; [exact Hframe|].
    unfold fetchDatabaseMeta, bind, modify, lift in Hmeta. simpl in Hmeta.
    injection Hmeta as _ <-. by left.
  - pose proof (fetch_pages_calls id (databases_query P id) VUndef [] w1) as Hq.
    unfold fetchAllPages in Hps. by rewrite Hps in Hq.
Qed.

Lemma first_pass_Ok P st dbs w st' w' :
  first_pass P st dbs w = (Ok st', w') ->
  (keys_bare st -> keys_bare st')
  /\ (forall k, is_Some (allDbPages st !! k) -> is_Some (allDbPages st' !! k))
  /\ forall dbConf, In dbConf dbs ->
       exists s id, own "databaseId" dbConf = VStr s
                    /\ extractDatabaseId (VStr s) = Ok id
                    /\ is_Some (allDbPages st' !! id)
                    /\ In (CallRetrieve id) (calls w') /\ In (CallQuery id VUndef) (calls w').
Proof.
  revert st w. induction dbs as [|dbConf dbs IH]; intros st w; simpl.
  - intros [-> ->]%ret_Ok. repeat split; try done.
  - intros (st1 & w1 & Hen & Hrest)%bind_Ok.
    destruct (enumerate_source_Ok _ _ _ _ _ _ Hen)
      as (s & id & meta & cfg & ps & Hs & Hid & _ & Hall & _ & Hc1 & Hc2).
    destruct (IH _ _ Hrest) as (Hbare & Hmono & Hin).
    pose proof (calls_only_first_pass P st1 dbs w1) as Hframe. rewrite Hrest in Hframe.
    split; [|split].
    + intros Hst. apply Hbare. intros k. rewrite Hall.
      destruct (decide (id = k)) as [<-|Hne].
      * intros _. by apply extractDatabaseId_Ok in Hid as [? _].
      * rewrite lookup_insert_ne by done. apply Hst.
    + intros k Hk. apply Hmono. rewrite Hall.
      destruct (decide (id = k)) as [<-|Hne];
        [rewrite lookup_insert_eq; by eauto|by rewrite lookup_insert_ne].
    + intros d [<-|Hd]; [|by apply Hin].
      exists s, id. repeat split; try done.
      * apply Hmono. rewrite Hall, lookup_insert_eq. by eauto.
      * by eapply grown_calls.
      * by eapply grown_calls.
Qed.

Lemma write_source_unknown P st dbConf s w :
  own "databaseId" dbConf = VStr s -> allDbPages st !! s = None ->
  write_source P st dbConf w
  = (Throw (TypeError "Cannot destructure property 'pages' of undefined"), w).
Proof.
  intros Hs Hnone. unfold write_source, bind, lift.
  rewrite get_non_nullish by (destruct dbConf; done). by rewrite Hs, Hnone.
Qed.

Lemma write_source_Ok P st dbConf w r w' :
  write_source P st dbConf w = (Ok r, w') ->
  exists s, own "databaseId" dbConf = VStr s /\ is_Some (allDbPages st !! s).
Proof.
  unfold write_source. intros (dbId & w0 & [[-> _]%get_Ok ->]%lift_Ok & H)%bind_Ok.
  destruct (own "databaseId" dbConf) as [| | | |s| |]; try (by discriminate H).
  exists s. split; [done|]. destruct (allDbPages st !! s); [by eauto|by discriminate H].
Qed.

Lemma forM_Ok {A B} (f : A -> M B) l w rs w' :
  forM f l w = (Ok rs, w') -> forall x, In x l -> exists w1 r w2, f x w1 = (Ok r, w2).
Proof.
  revert w rs w'. induction l as [|y l IH]; intros w rs w'; simpl; [done|].
  intros (r & w1 & Hy & (rs' & w2 & Hl & _)%bind_Ok)%bind_Ok x [<-|Hx]; [by eauto|].
  by eapply IH.
Qed.

Lemma forM_Throw {A B} (f : A -> M B) l x w :
  In x l -> (forall w1, exists e w2, f x w1 = (Throw e, w2)) ->
  exists e w', forM f l w = (Throw e, w').
Proof.
  intros Hx Hf. revert w. induction l as [|y l IH]; intros w; simpl; [done|].
  unfold bind at 1. destruct (f y w) as [[r|e] w1] eqn:E; [|by eauto].
  destruct Hx as [->|Hx].
  - destruct (Hf w) as (e & w2 & Hw). congruence.
  - unfold bind. destruct (IH Hx w1) as (e & w2 & ->). by eauto.
Qed.

Lemma exportNotionToSSG_passes P opts w cfg dbs :
  truthy (js_or (notionToken opts) (env_token P)) = true ->
  the_config P opts = Ok cfg ->
  own "databases" cfg = VArr dbs ->
  nullish cfg = false ->
  exportNotionToSSG P opts w
  = (do st <- first_pass P empty_state dbs; second_pass P st dbs) w.
Proof.
  intros Htok Hcfg Hdbs Hn. unfold exportNotionToSSG. rewrite Htok. cbn [negb].
  unfold bind at 1. unfold lift at 1. fold (the_config P opts). rewrite Hcfg.
  unfold bind at 1. unfold lift at 1. rewrite get_non_nullish by done. by rewrite Hdbs.
Qed.

(** C9.  The first pass files each source under the identifier extracted
    from its [databaseId], the second pass looks it up under the configured
    value.  So a run that completes has only sources whose [databaseId]
    already is its extracted form; and for a source configured otherwise
    (an address) the run throws, the second pass finding nothing under the
    configured value, after the first pass has fetched the metadata and the
    listing of that database. *)
Theorem export_needs_bare_database_ids P opts w cfg dbs :
  truthy (js_or (notionToken opts) (env_token P)) = true ->
  the_config P opts = Ok cfg ->
  own "databases" cfg = VArr dbs ->
  (forall results w',
     exportNotionToSSG P opts w = (Ok results, w') ->
     forall dbConf, In dbConf dbs ->
       exists s, own "databaseId" dbConf = VStr s /\ extractDatabaseId (VStr s) = Ok s)
  /\ (forall dbConf s,
        In dbConf dbs -> own "databaseId" dbConf = VStr s -> is_hex32 s = false ->
        (exists e w', exportNotionToSSG P opts w = (Throw e, w'))
        /\ (forall st w1,
              first_pass P empty_state dbs w = (Ok st, w1) ->
              exists id,
                extractDatabaseId (VStr s) = Ok id /\ id <> s
                /\ is_Some (allDbPages st !! id) /\ allDbPages st !! s = None
                /\ In (CallRetrieve id) (calls w1) /\ In (CallQuery id VUndef) (calls w1)
                /\ (forall w2,
                      write_source P st dbConf w2
                      = (Throw (TypeError "Cannot destructure property 'pages' of undefined"),
                         w2))
                /\ exportNotionToSSG P opts w = second_pass P st dbs w1)).
Proof.
  intros Htok Hcfg Hdbs.
  assert (nullish cfg = false) as Hn by (destruct cfg; done).
  pose proof (exportNotionToSSG_passes P opts w cfg dbs Htok Hcfg Hdbs Hn) as Hexp.
  assert (keys_bare empty_state) as Hbare0.
  { intros k [x Hx]. simpl in Hx. by rewrite lookup_empty in Hx. }
  assert (forall dbConf s st w1,
            In dbConf dbs -> own "databaseId" dbConf = VStr s -> is_hex32 s = false ->
            first_pass P empty_state dbs w = (Ok st, w1) ->
            exists id,
              extractDatabaseId (VStr s) = Ok id /\ id <> s
              /\ is_Some (allDbPages st !! id) /\ allDbPages st !! s = None
              /\ In (CallRetrieve id) (calls w1) /\ In (CallQuery id VUndef) (calls w1)) as Hkey.
  { intros dbConf s st w1 Hin Hs Hnot Hfp.
    destruct (first_pass_Ok _ _ _ _ _ _ Hfp) as (Hbare & _ & Hsrc).
    destruct (Hsrc _ Hin) as (s' & id & Hs' & Hid & Hsome & Hc1 & Hc2).
    rewrite Hs in Hs'. injection Hs' as <-.
    exists id. repeat split; try done.
    - intros ->. apply extractDatabaseId_Ok in Hid as [Hid _]. congruence.
    - destruct (allDbPages st !! s) eqn:E; [|done].
      assert (is_hex32 s = true) by (apply (Hbare Hbare0); by eauto). congruence. }
  split.
  - intros results w' Hrun dbConf Hin. rewrite Hexp in Hrun.
    apply bind_Ok in Hrun as (st & w1 & Hfp & Hsp).
    destruct (forM_Ok _ _ _ _ _ Hsp _ Hin) as (w2 & r & w3 & Hws).
    apply write_source_Ok in Hws as (s & Hs & Hsome).
    exists s. split; [done|]. apply extractDatabaseId_bare.
    destruct (first_pass_Ok _ _ _ _ _ _ Hfp) as (Hbare & _). by apply (Hbare Hbare0).
  - intros dbConf s Hin Hs Hnot. split.
    + rewrite Hexp. unfold bind.
      destruct (first_pass P empty_state dbs w) as [[st|e] w1] eqn:Hfp; [|by eauto].
      destruct (Hkey _ _ _ _ Hin Hs Hnot eq_refl) as (id & _ & _ & _ & Hnone & _).
      apply (forM_Throw _ _ dbConf); [done|]. intros w2.
      rewrite (write_source_unknown _ _ _ _ _ Hs Hnone). by eauto.
    + intros st w1 Hfp.
      destruct (Hkey _ _ _ _ Hin Hs Hnot Hfp) as (id & ? & ? & ? & Hnone & ? & ?).
      exists id. repeat split; try done.
      * intros w2. by apply (write_source_unknown _ _ _ s).
      * rewrite Hexp. unfold bind. by rewrite Hfp.
Qed.

(** C9, witness: the blog configured by the address of its database. *)
Lemma export_needs_bare_database_ids_witness :
  exists e w',
    exportNotionToSSG example_platform
      (options_of [source_of ("https://www.notion.so/ws/" +:+ blog_id +:+ "?v=1") "src/blog" []])
      (fresh ∅) = (Throw e, w').
Proof.
  destruct (export_needs_bare_database_ids example_platform
              (options_of [source_of ("https://www.notion.so/ws/" +:+ blog_id +:+ "?v=1")
                             "src/blog" []])
              (fresh ∅) _ _ eq_refl eq_refl eq_refl) as [_ H].
  apply (H (source_of ("https://www.notion.so/ws/" +:+ blog_id +:+ "?v=1") "src/blog" [])
           ("https://www.notion.so/ws/" +:+ blog_id +:+ "?v=1"));
    [by left|reflexivity|reflexivity].
Defined.

(** ** Images *)

Lemma dir_entries_insert d d' es w :
  dir_entries d (set_disk (<[d' := es]> (disk w)) w)
  = if decide (d' = d) then es else dir_entries d w.
Proof.
  unfold dir_entries. simpl. destruct (decide (d' = d)) as [->|Hne].
  - by rewrite lookup_insert_eq.
  - by rewrite lookup_insert_ne.
Qed.

Lemma dir_entries_ensureDir P d d' w :
  dir_entries d (snd (ensureDir P d' w)) = dir_entries d w.
Proof.
  unfold ensureDir, bind, gets, modify, throw, ret. simpl.
  destruct (bool_decide (is_Some (disk w !! d'))) eqn:E; [done|].
  destruct (fs_fault P (OpMkdir d')); [done|]. simpl.
  rewrite dir_entries_insert. destruct (decide (d' = d)) as [->|]; [|done].
  apply bool_decide_eq_false in E. unfold dir_entries.
  destruct (disk w !! d) eqn:E'; [|done]. exfalso. apply E. by eauto.
Qed.

Lemma quiet_bind {A B} (m : M A) (k : A -> M B) :
  quiet m -> (forall a, quiet (k a)) -> quiet (bind m k).
Proof.
  intros Hm Hk w. unfold bind. specialize (Hm w). destruct (m w) as [[a|e] w1]; [|done].
  specialize (Hk a w1). simpl in *. destruct Hk, Hm. split; congruence.
Qed.

Lemma quiet_pure {A} (r : res A) : quiet (lift r).
Proof. by intros w. Qed.

Lemma quiet_throw {A} e : quiet (@throw A e).
Proof. by intros w. Qed.

Lemma quiet_ret {A} (a : A) : quiet (ret a).
Proof. by intros w. Qed.

Lemma quiet_gets {A} (f : world -> A) : quiet (gets f).
Proof. by intros w. Qed.

Lemma quiet_set_disk (f : world -> gmap string (gmap string entry)) :
  quiet (modify (fun w => set_disk (f w) w)).
Proof. by intros w. Qed.

Lemma quiet_ensureDir P d : quiet (ensureDir P d).
Proof.
  unfold ensureDir. apply quiet_bind; [apply quiet_gets|]. intros [|]; [apply quiet_ret|].
  destruct (fs_fault P (OpMkdir d)); [apply quiet_throw|apply quiet_set_disk].
Qed.

Lemma quiet_unlinkSync P d n : quiet (unlinkSync P d n).
Proof.
  unfold unlinkSync. apply quiet_bind; [apply quiet_gets|]. intros present.
  destruct (fs_fault P (OpUnlink d n)); [apply quiet_throw|].
  destruct (negb present); [apply quiet_throw|apply quiet_set_disk].
Qed.

Lemma quiet_renameSync P d a b : quiet (renameSync P d a b).
Proof.
  unfold renameSync. apply quiet_bind; [apply quiet_gets|]. intros src.
  destruct (fs_fault P (OpRename d a b)); [apply quiet_throw|].
  destruct src; [apply quiet_set_disk|apply quiet_throw].
Qed.

Lemma quiet_downloadImage P url d n : quiet (downloadImage P url d n).
Proof.
  unfold downloadImage. apply quiet_bind; [by intros w|]. intros _.
  destruct (fs_fault P (OpWrite d n)).
  { apply quiet_bind; [by intros w|]. intros _. apply quiet_throw. }
  destruct (http_get P url);
    (apply quiet_bind; [by intros w|]; intros _; first [apply quiet_ret|apply quiet_throw]).
Qed.

Lemma existsSync_put_file d n data x w :
  existsSync d x (put_file d n data w)
  = bool_decide (is_Some (dir_entries d w !! x)) || String.eqb x n.
Proof.
  unfold existsSync, put_file. rewrite dir_entries_insert, decide_True by done.
  destruct (String.eqb x n) eqn:E.
  - apply String.eqb_eq in E as ->. rewrite lookup_insert_eq, orb_true_r.
    apply bool_decide_eq_true. by eauto.
  - apply String.eqb_neq in E. rewrite lookup_insert_ne by done. by rewrite orb_false_r.
Qed.

Lemma existsSync_same d n data w : existsSync d n (put_file d n data w) = true.
Proof. rewrite existsSync_put_file, String.eqb_refl. apply orb_true_r. Qed.

Lemma existsSync_frame d n f w :
  disk (f w) = disk w -> existsSync d n (f w) = existsSync d n w.
Proof. unfold existsSync, dir_entries. by intros ->. Qed.




(** C4 fails on the code: two addresses that serve the same bytes, saved
    for two pages, are both downloaded and get two local paths (the page
    slug and the index are part of the file name); saved for the same page
    and index they get one path, and are still both downloaded. *)
Lemma same_bytes_two_downloads :
  let one := "https://files.notion.example/one/logo.png" in
  let two := "https://files.notion.example/two/logo.png" in
  let images := "/site/src/images/notion" in
  let first := saveNotionImage example_platform (VStr one) "my-first-post" "0" images (fresh ∅) in
  let other_page := saveNotionImage example_platform (VStr two) "guide" "0" images (snd first) in
  let same_page :=
    saveNotionImage example_platform (VStr two) "my-first-post" "0" images (snd first) in
  http_get example_platform one = http_get example_platform two
  /\ fst first = Ok (VStr "/images/notion/my-first-post-0-0f0f0f0f.png")
  /\ fst other_page = Ok (VStr "/images/notion/guide-0-0f0f0f0f.png")
  /\ calls (snd other_page) = [CallHttpGet two; CallHttpGet one]
  /\ fst same_page = Ok (VStr "/images/notion/my-first-post-0-0f0f0f0f.png")
  /\ calls (snd same_page) = [CallHttpGet two; CallHttpGet one].
Proof. vm_compute. repeat split. Qed.

(** ** Markdown files of a directory *)

Lemma chars_app a b : chars (a +:+ b) = chars a ++ chars b.
Proof. induction a as [|c a IH]; simpl; [done|]. by rewrite IH. Qed.

Lemma append_assoc a b c : (a +:+ b) +:+ c = a +:+ b +:+ c.
Proof.
  induction a as [|x a IH]; [done|].
  change ((String x a +:+ b) +:+ c) with (String x ((a +:+ b) +:+ c)). by rewrite IH.
Qed.

Lemma strip_prefix_app p z : strip_prefix p (p ++ z) = Some z.
Proof. induction p as [|c p IH]; simpl; [done|]. by rewrite Ascii.eqb_refl. Qed.

Lemma endsWith_app p a : endsWith p (a +:+ p) = true.
Proof. unfold endsWith. by rewrite chars_app, rev_app_distr, strip_prefix_app. Qed.

Lemma markdown_name_of_slug slug : is_markdown_name (slug +:+ ".md") = true.
Proof. apply endsWith_app. Qed.

Lemma image_name_not_markdown pre ext :
  In ext image_extensions -> is_markdown_name (pre +:+ "." +:+ ext) = false.
Proof.
  intros Hext. unfold is_markdown_name, endsWith.
  rewrite chars_app, rev_app_distr.
  simpl in Hext. decompose [or] Hext; subst; try done.
Qed.

Lemma getImageExtension_in url : In (getImageExtension url) image_extensions.
Proof.
  unfold getImageExtension.
  destruct (find _ image_extensions) as [ext|] eqn:E; [|simpl; tauto].
  by apply find_some in E as [? _].
Qed.

Lemma tempFilename_not_markdown now idx url :
  is_markdown_name (tempFilename now idx (getImageExtension url)) = false.
Proof.
  unfold tempFilename. 
  replace ("temp-" +:+ string_of_Z now +:+ "-" +:+ idx +:+ "." +:+ getImageExtension url)
    with (("temp-" +:+ string_of_Z now +:+ "-" +:+ idx) +:+ "." +:+ getImageExtension url).
  - apply image_name_not_markdown, getImageExtension_in.
  - by rewrite !append_assoc.
Qed.

Lemma imageFilename_not_markdown slug idx hash url :
  is_markdown_name (imageFilename slug idx hash (getImageExtension url)) = false.
Proof.
  unfold imageFilename.
  replace (slug +:+ "-" +:+ idx +:+ "-" +:+ hash +:+ "." +:+ getImageExtension url)
    with ((slug +:+ "-" +:+ idx +:+ "-" +:+ hash) +:+ "." +:+ getImageExtension url).
  - apply image_name_not_markdown, getImageExtension_in.
  - by rewrite !append_assoc.
Qed.

Lemma same_md_refl w : same_md w w.
Proof. by intros d n _. Qed.

Lemma same_md_trans w1 w2 w3 : same_md w1 w2 -> same_md w2 w3 -> same_md w1 w3.
Proof. intros H12 H23 d n Hn. by rewrite H23, H12. Qed.

Lemma same_md_disk w w' : disk w' = disk w -> same_md w w'.
Proof. intros H d n _. unfold dir_entries. by rewrite H. Qed.

Lemma md_stable_bind {A B} (m : M A) (k : A -> M B) :
  md_stable m -> (forall a, md_stable (k a)) -> md_stable (bind m k).
Proof.
  intros Hm Hk w. unfold bind. specialize (Hm w). destruct (m w) as [[a|e] w1]; [|done].
  eapply same_md_trans; [exact Hm|apply Hk].
Qed.

Lemma md_stable_try {A} (m : M A) (h : exn -> M A) :
  md_stable m -> (forall e, md_stable (h e)) -> md_stable (try_catch m h).
Proof.
  intros Hm Hh w. unfold try_catch. specialize (Hm w). destruct (m w) as [[a|e] w1]; [done|].
  eapply same_md_trans; [exact Hm|apply Hh].
Qed.

Lemma md_stable_lift {A} (r : res A) : md_stable (lift r).
Proof. intros w. apply same_md_refl. Qed.

Lemma md_stable_ret {A} (a : A) : md_stable (ret a).
Proof. intros w. apply same_md_refl. Qed.

Lemma md_stable_throw {A} e : md_stable (@throw A e).
Proof. intros w. apply same_md_refl. Qed.

Lemma md_stable_gets {A} (f : world -> A) : md_stable (gets f).
Proof. intros w. apply same_md_refl. Qed.

Lemma md_stable_modify f : (forall w, disk (f w) = disk w) -> md_stable (modify f).
Proof. intros H w. apply same_md_disk. apply H. Qed.

Lemma md_stable_ensureDir P d : md_stable (ensureDir P d).
Proof. intros w d' n _. by rewrite dir_entries_ensureDir. Qed.

Lemma same_md_put_file d n data w :
  is_markdown_name n = false -> same_md w (put_file d n data w).
Proof.
  intros Hn d' n' Hn'. unfold put_file. rewrite dir_entries_insert.
  destruct (decide (d = d')) as [->|]; [|done].
  rewrite lookup_insert_ne; [done|]. congruence.
Qed.

Lemma same_md_drop_file d n w : is_markdown_name n = false -> same_md w (drop_file d n w).
Proof.
  intros Hn d' n' Hn'. unfold drop_file. rewrite dir_entries_insert.
  destruct (decide (d = d')) as [->|]; [|done].
  rewrite lookup_delete_ne; [done|]. congruence.
Qed.

Lemma md_stable_unlinkSync P d n : is_markdown_name n = false -> md_stable (unlinkSync P d n).
Proof.
  intros Hn. unfold unlinkSync. apply md_stable_bind; [apply md_stable_gets|]. intros present.
  destruct (fs_fault P (OpUnlink d n)); [apply md_stable_throw|].
  destruct (negb present); [apply md_stable_throw|].
  intros w. by apply same_md_drop_file.
Qed.

Lemma md_stable_renameSync P d a b :
  is_markdown_name a = false -> is_markdown_name b = false -> md_stable (renameSync P d a b).
Proof.
  intros Ha Hb. unfold renameSync. apply md_stable_bind; [apply md_stable_gets|]. intros src.
  destruct (fs_fault P (OpRename d a b)); [apply md_stable_throw|].
  destruct src as [e|]; [|apply md_stable_throw].
  intros w d' n' Hn'. simpl. rewrite dir_entries_insert.
  destruct (decide (d = d')) as [->|]; [|done].
  rewrite lookup_insert_ne by congruence. rewrite lookup_delete_ne by congruence. done.
Qed.

Lemma md_stable_downloadImage P url d n :
  is_markdown_name n = false -> md_stable (downloadImage P url d n).
Proof.
  intros Hn. unfold downloadImage.
  apply md_stable_bind; [by apply md_stable_modify|]. intros _.
  destruct (fs_fault P (OpWrite d n)).
  { apply md_stable_bind; [intros w; by apply same_md_drop_file|]. intros _.
    apply md_stable_throw. }
  destruct (http_get P url).
  - apply md_stable_bind; [intros w; by apply same_md_put_file|]. intros _. apply md_stable_ret.
  - apply md_stable_bind; [intros w; by apply same_md_put_file|]. intros _. apply md_stable_throw.
  - apply md_stable_bind; [intros w; by apply same_md_drop_file|]. intros _. apply md_stable_throw.
Qed.

Lemma md_stable_saveNotionImage P imageUrl slug idx d :
  md_stable (saveNotionImage P imageUrl slug idx d).
Proof.
  unfold saveNotionImage. apply md_stable_bind; [apply md_stable_gets|]. intros [path|].
  { apply md_stable_ret. }
  apply md_stable_try.
  - apply md_stable_bind; [apply md_stable_ensureDir|]. intros _.
    apply md_stable_bind; [apply md_stable_lift|]. intros url.
    apply md_stable_bind; [apply md_stable_gets|]. intros now.
    apply md_stable_bind; [by apply md_stable_modify|]. intros _.
    apply md_stable_bind; [apply md_stable_downloadImage, tempFilename_not_markdown|].
    intros hash.
    apply md_stable_bind; [apply md_stable_gets|]. intros [|].
    + apply md_stable_bind; [apply md_stable_unlinkSync, tempFilename_not_markdown|]. intros _.
      repeat (apply md_stable_bind; [by apply md_stable_modify|]; intros _).
      apply md_stable_ret.
    + apply md_stable_bind;
        [apply md_stable_renameSync;
         [apply tempFilename_not_markdown|apply imageFilename_not_markdown]|]. intros _.
      repeat (apply md_stable_bind; [by apply md_stable_modify|]; intros _).
      apply md_stable_ret.
  - intros e. apply md_stable_bind; [by apply md_stable_modify|]. intros _. apply md_stable_ret.
Qed.

Lemma md_stable_scan_step P slug d pm rs m : md_stable (scan_step P slug d pm rs m).
Proof.
  unfold scan_step. destruct (fullMatch m) as [|c rest].
  - destruct (find_notion_id (linkUrl m)); [|apply md_stable_ret].
    destruct (pm !! _); [|apply md_stable_ret].
    apply md_stable_bind; [by apply md_stable_modify|]. intros _. apply md_stable_ret.
  - destruct c as [[] [] [] [] [] [] [] []];
      try (destruct (find_notion_id (linkUrl m)); [|apply md_stable_ret];
           destruct (pm !! _); [|apply md_stable_ret];
           apply md_stable_bind; [by apply md_stable_modify|]; intros _; apply md_stable_ret).
    destruct (is_notion_asset _); [|apply md_stable_ret].
    apply md_stable_bind; [apply md_stable_saveNotionImage|]. intros p. apply md_stable_ret.
Qed.

Lemma md_stable_scan_loop P slug d pm rs ms : md_stable (scan_loop P slug d pm rs ms).
Proof.
  revert rs. induction ms as [|m ms IH]; intros rs; simpl; [apply md_stable_ret|].
  apply md_stable_bind; [apply md_stable_scan_step|]. intros rs'. apply IH.
Qed.

Lemma md_stable_pageBodyMarkdown P id slug d pm : md_stable (pageBodyMarkdown P id slug d pm).
Proof.
  unfold pageBodyMarkdown. apply md_stable_try.
  - apply md_stable_bind; [by apply md_stable_modify|]. intros _.
    apply md_stable_bind; [apply md_stable_lift|]. intros md.
    apply md_stable_bind; [apply md_stable_scan_loop|]. intros rs. apply md_stable_ret.
  - intros e. apply md_stable_bind; [by apply md_stable_modify|]. intros _. apply md_stable_ret.
Qed.

Lemma md_stable_front_matter P cfg page slug permalink :
  md_stable (front_matter P cfg page slug permalink).
Proof.
  unfold front_matter. apply md_stable_bind; [apply md_stable_lift|]. intros f0.
  apply md_stable_bind.
  - unfold front_cover. apply md_stable_bind; [apply md_stable_lift|]. intros cover.
    destruct (truthy cover); [|apply md_stable_ret].
    destruct (truthy (image_url cover)); [|apply md_stable_ret].
    apply md_stable_bind; [apply md_stable_saveNotionImage|]. intros p. apply md_stable_ret.
  - intros f1. unfold front_icon. apply md_stable_bind; [apply md_stable_lift|]. intros icon.
    match goal with |- context [if ?b then _ else _] => destruct b end; [|apply md_stable_ret].
    destruct (truthy (image_url icon)); [|apply md_stable_ret].
    apply md_stable_bind; [apply md_stable_saveNotionImage|]. intros p. apply md_stable_ret.
Qed.

Lemma writeFileSync_Ok P d name data w w' :
  writeFileSync P d name data w = (Ok tt, w') ->
  forall d', dir_entries d' w'
             = if decide (d = d') then <[name := EFile data]> (dir_entries d w)
               else dir_entries d' w.
Proof.
  unfold writeFileSync, bind, gets, modify, throw. simpl.
  destruct (fs_fault P (OpWrite d name)); [done|].
  destruct (disk w !! d) as [es|] eqn:Ed; [|done].
  assert (dir_entries d w = es) as Hes by (unfold dir_entries; by rewrite Ed).
  destruct (dir_entries d w !! name) as [[content|]|] eqn:En; simpl; try done.
  all: intros [= <-] d'; unfold dir_entries at 1; simpl.
  all: destruct (decide (d = d')) as [->|Hne];
    [rewrite lookup_insert_eq; simpl; congruence|by rewrite lookup_insert_ne].
Qed.

Lemma is_md_file_same w w' d n : same_md w w' -> is_md_file d w' n <-> is_md_file d w n.
Proof. intros H. unfold is_md_file. split; intros [Hn Hc]; (split; [done|]); by rewrite H in *. Qed.

Lemma writePage_markdown P cfg page pm w out w' :
  writePage P cfg page pm w = (Ok out, w') ->
  exists slug,
    buildSlug P page (slugConf cfg) = Ok slug
    /\ out = path_join (dir cfg) (slug +:+ ".md")
    /\ forall n, is_md_file (dir cfg) w' n <-> is_md_file (dir cfg) w n \/ n = slug +:+ ".md".
Proof.
  unfold writePage.
  intros (slug & w0 & [Hslug ->]%lift_Ok & H)%bind_Ok.
  apply bind_Ok in H as (permalink & w0 & [_ ->]%lift_Ok & H).
  apply bind_Ok in H as (front & w1 & Hfront & H).
  apply bind_Ok in H as (fm & w1' & [_ ->]%lift_Ok & H).
  apply bind_Ok in H as (id & w1' & [_ ->]%lift_Ok & H).
  apply bind_Ok in H as (body & w2 & Hbody & H).
  apply bind_Ok in H as ([] & w3 & Hdir & H).
  apply bind_Ok in H as ([] & w4 & Hwrite & [-> ->]%ret_Ok).
  exists slug. split; [done|]. split; [done|].
  assert (same_md w w3) as Hsame.
  { pose proof (md_stable_front_matter P cfg page slug permalink w) as H1.
    pose proof (md_stable_pageBodyMarkdown P id slug (imagesDir cfg) pm w1) as H2.
    pose proof (md_stable_ensureDir P (dir cfg) w2) as H3.
    rewrite Hfront in H1. rewrite Hbody in H2. rewrite Hdir in H3.
    eapply same_md_trans; [|exact H3]. eapply same_md_trans; [exact H1|exact H2]. }
  intros n. rewrite <- (is_md_file_same w w3) by done.
  pose proof (writeFileSync_Ok _ _ _ _ _ _ Hwrite (dir cfg)) as Hd.
  rewrite decide_True in Hd by done.
  unfold is_md_file. rewrite Hd. destruct (decide (n = slug +:+ ".md")) as [->|Hne].
  - rewrite lookup_insert_eq. split; [by auto|]. intros _.
    split; [apply markdown_name_of_slug|by eauto].
  - rewrite lookup_insert_ne by done. tauto.
Qed.


Lemma unlinkSync_Ok P d n w w' :
  unlinkSync P d n w = (Ok tt, w') ->
  forall d', dir_entries d' w'
             = if decide (d = d') then delete n (dir_entries d w) else dir_entries d' w.
Proof.
  unfold unlinkSync, bind, gets, modify, throw. simpl.
  destruct (fs_fault P (OpUnlink d n)); [done|].
  destruct (negb (existsSync d n w)); [done|]. intros [= <-] d'. apply dir_entries_insert.
Qed.













(** ** Two runs on the same snapshot *)

Lemma sim_bind {A B} (Q : A -> A -> Prop) (Q' : B -> B -> Prop) m1 m2 k1 k2 :
  sim Q m1 m2 -> (forall a1 a2, Q a1 a2 -> sim Q' (k1 a1) (k2 a2)) ->
  sim Q' (bind m1 k1) (bind m2 k2).
Proof.
  intros Hm Hk w1 w2 Hw. specialize (Hm w1 w2 Hw). unfold bind, agrees in *.
  destruct (m1 w1) as [[a1|e1] w1'], (m2 w2) as [[a2|e2] w2']; simpl in *;
    destruct Hm as [Hw' Ha]; try done.
  by apply Hk.
Qed.

Lemma sim_try {A} (Q : A -> A -> Prop) m1 m2 h1 h2 :
  sim Q m1 m2 -> (forall e, sim Q (h1 e) (h2 e)) -> sim Q (try_catch m1 h1) (try_catch m2 h2).
Proof.
  intros Hm Hh w1 w2 Hw. specialize (Hm w1 w2 Hw). unfold try_catch, agrees in *.
  destruct (m1 w1) as [[a1|e1] w1'], (m2 w2) as [[a2|e2] w2']; simpl in *;
    destruct Hm as [Hw' Ha]; try done.
  subst. by apply Hh.
Qed.

Lemma sim_ret {A} (Q : A -> A -> Prop) a1 a2 : Q a1 a2 -> sim Q (ret a1) (ret a2).
Proof. by intros H w1 w2 Hw. Qed.

Lemma sim_lift {A} (r : res A) : sim eq (lift r) (lift r).
Proof. intros w1 w2 Hw. split; [done|]. by destruct r. Qed.

Lemma sim_throw {A} (Q : A -> A -> Prop) e : sim Q (throw e) (throw e).
Proof. by intros w1 w2 Hw. Qed.

Lemma sim_weaken {A} (Q Q' : A -> A -> Prop) m1 m2 :
  (forall a1 a2, Q a1 a2 -> Q' a1 a2) -> sim Q m1 m2 -> sim Q' m1 m2.
Proof.
  intros HQ Hm w1 w2 Hw. destruct (Hm w1 w2 Hw) as [Hw' Ha]. split; [done|].
  destruct (m1 w1).1, (m2 w2).1; auto.
Qed.

Lemma files_only_disk w w' : disk w' = disk w -> files_only w -> files_only w'.
Proof. unfold files_only. by intros ->. Qed.

Lemma sim_console e1 e2 : sim eq (modify (add_console e1)) (modify (add_console e2)).
Proof.
  intros w1 w2 (? & ? & ? & ? & ?). split; [|done].
  repeat split; simpl; try done; by eapply files_only_disk.
Qed.

Lemma sim_tick : sim eq (modify tick) (modify tick).
Proof.
  intros w1 w2 (? & ? & ? & ? & ?). split; [|done].
  repeat split; simpl; try done; by eapply files_only_disk.
Qed.

Lemma sim_add_call c : sim eq (modify (add_call c)) (modify (add_call c)).
Proof.
  intros w1 w2 (? & ? & ? & ? & ?). split; [|done].
  repeat split; simpl; try congruence; by eapply files_only_disk.
Qed.

(** A value read from the world that the two runs may see differently. *)
Lemma sim_gets_any {A B} (Q : B -> B -> Prop) (f g : world -> A) k1 k2 :
  (forall a b, sim Q (k1 a) (k2 b)) -> sim Q (bind (gets f) k1) (bind (gets g) k2).
Proof. intros Hk w1 w2 Hw. unfold bind, gets. by apply Hk. Qed.

Lemma sim_gets_cache {A} (f : gmap string string -> A) :
  sim eq (gets (fun w => f (imageCache w))) (gets (fun w => f (imageCache w))).
Proof. intros w1 w2 Hw. split; [done|]. simpl. destruct Hw as [-> _]. done. Qed.

Lemma files_only_lookup w d n e : files_only w -> dir_entries d w !! n = Some e -> is_file e = true.
Proof.
  unfold files_only, dir_entries. intros Hw. destruct (disk w !! d) as [es|] eqn:Ed; simpl.
  - intros Hn. by eapply (Hw d es Ed n e).
  - by rewrite lookup_empty.
Qed.

Lemma files_only_set w d es :
  files_only w -> map_Forall (fun _ e => is_file e = true) es ->
  files_only (set_disk (<[d := es]> (disk w)) w).
Proof. intros Hw Hes. unfold files_only. simpl. by apply map_Forall_insert_2. Qed.

Lemma files_only_entries w d : files_only w -> map_Forall (fun _ e => is_file e = true) (dir_entries d w).
Proof.
  intros Hw n e. by apply files_only_lookup.
Qed.

Lemma files_only_put w d n data : files_only w -> files_only (put_file d n data w).
Proof.
  intros Hw. apply files_only_set; [done|].
  apply map_Forall_insert_2; [done|]. by apply files_only_entries.
Qed.

Lemma files_only_drop w d n : files_only w -> files_only (drop_file d n w).
Proof.
  intros Hw. apply files_only_set; [done|].
  apply map_Forall_delete. by apply files_only_entries.
Qed.

Lemma ensureDir_no_fault P d w :
  no_faults P -> files_only w ->
  exists w0,
    ensureDir P d w = (Ok tt, w0)
    /\ console w0 = console w /\ imageCache w0 = imageCache w /\ ticks w0 = ticks w
    /\ calls w0 = calls w /\ writes w0 = writes w
    /\ (forall d', dir_entries d' w0 = dir_entries d' w)
    /\ is_Some (disk w0 !! d) /\ files_only w0.
Proof.
  intros HP Hw.
  pose proof (fun d' => dir_entries_ensureDir P d' d w) as Hdir. revert Hdir.
  unfold ensureDir, bind, gets, modify, throw, ret. simpl.
  destruct (bool_decide (is_Some (disk w !! d))) eqn:E; simpl.
  { intros _. exists w. apply bool_decide_eq_true in E. repeat split; done. }
  rewrite HP. simpl. intros Hdir. eexists. split; [reflexivity|].
  repeat split; try done.
  - simpl. rewrite lookup_insert_eq. by eauto.
  - apply files_only_set; [done|]. apply map_Forall_empty.
Qed.

Lemma saveNotionImage_miss P url pageSlug imageIndex imagesDir w :
  no_faults P -> files_only w -> imageCache w !! url = None ->
  exists w',
    saveNotionImage P (VStr url) pageSlug imageIndex imagesDir w
    = (Ok (VStr (default url (saved_path P url pageSlug imageIndex imagesDir))), w')
    /\ imageCache w'
       = match saved_path P url pageSlug imageIndex imagesDir with
         | Some path => <[url := path]> (imageCache w)
         | None => imageCache w
         end
    /\ calls w' = CallHttpGet url :: calls w /\ writes w' = writes w /\ files_only w'.
Proof.
  intros HP Hw Hcache. unfold saved_path, saveNotionImage.
  unfold bind at 1. unfold gets at 1. rewrite Hcache.
  unfold try_catch. unfold bind at 1.
  destruct (ensureDir_no_fault P imagesDir w HP Hw)
    as (w0 & -> & Hc & Hi & Ht & Hca & Hwr & Hdir & Hex & Hw0).
  unfold bind at 1. unfold lift at 1.
  unfold bind at 1. unfold gets at 1. rewrite Ht.
  unfold bind at 1. unfold modify at 1.
  set (ext := getImageExtension url). set (temp := tempFilename _ imageIndex ext).
  unfold bind at 1. unfold downloadImage. unfold bind at 1. unfold modify at 1.
  rewrite HP.
  set (w1 := add_call (CallHttpGet url) (tick w0)).
  assert (files_only w1) as Hw1 by (by apply (files_only_disk w0)).
  destruct (http_get P url) as [body|code|msg].
  2:{ unfold bind, modify, throw. eexists. split; [reflexivity|]. simpl.
      repeat split; try congruence. apply (files_only_disk (put_file imagesDir temp "" w1));
        [done|by apply files_only_put]. }
  2:{ unfold bind, modify, throw. eexists. split; [reflexivity|]. simpl.
      repeat split; try congruence. apply (files_only_disk (drop_file imagesDir temp w1));
        [done|by apply files_only_drop]. }
  unfold bind at 1. unfold modify at 1. unfold ret at 1.
  set (w2 := put_file imagesDir temp body w1).
  assert (files_only w2) as Hw2 by (by apply files_only_put).
  assert (dir_entries imagesDir w2 !! temp = Some (EFile body)) as Htemp.
  { unfold w2, put_file. rewrite dir_entries_insert, decide_True by done.
    apply lookup_insert_eq. }
  unfold bind at 1. unfold gets at 1.
  destruct (existsSync imagesDir _ w2).
  - unfold bind at 1. unfold unlinkSync. unfold bind at 1. unfold gets at 1. rewrite HP.
    assert (existsSync imagesDir temp w2 = true) as ->.
    { unfold existsSync. apply bool_decide_eq_true. rewrite Htemp. by eauto. }
    cbn [negb]. unfold bind, modify, ret. eexists. split; [reflexivity|]. simpl.
    repeat split; try congruence.
    apply (files_only_disk (drop_file imagesDir temp w2)); [done|by apply files_only_drop].
  - unfold bind at 1. unfold renameSync. unfold bind at 1. unfold gets at 1. rewrite HP.
    rewrite Htemp. unfold bind, modify, ret. eexists. split; [reflexivity|]. simpl.
    repeat split; try congruence.
    match goal with |- files_only (set_imageCache _ (add_console _ ?w)) =>
      apply (files_only_disk w); [done|] end.
    refine (files_only_set w2 imagesDir _ Hw2 _). apply map_Forall_insert_2; [done|].
    apply map_Forall_delete. by apply files_only_entries.
Qed.

Lemma saveNotionImage_other P v pageSlug imageIndex imagesDir w :
  no_faults P -> files_only w -> is_string v = false ->
  exists w',
    saveNotionImage P v pageSlug imageIndex imagesDir w = (Ok v, w')
    /\ imageCache w' = imageCache w /\ calls w' = calls w /\ writes w' = writes w
    /\ files_only w'.
Proof.
  intros HP Hw Hv. unfold saveNotionImage.
  unfold bind at 1. unfold gets at 1.
  assert (match v with VStr url => imageCache w !! url | _ => None end = None) as ->
    by (by destruct v).
  unfold try_catch. unfold bind at 1.
  destruct (ensureDir_no_fault P imagesDir w HP Hw)
    as (w0 & -> & Hc & Hi & Ht & Hca & Hwr & Hdir & Hex & Hw0).
  unfold bind at 1. unfold lift at 1.
  assert (exists e, match v with
                    | VStr url => Ok url
                    | _ => Throw (TypeError "url.split is not a function")
                    end = Throw e) as [e ->] by (destruct v; by eauto).
  unfold bind, modify, ret. eexists. split; [reflexivity|]. simpl.
  repeat split; try congruence. by apply (files_only_disk w0).
Qed.

Lemma sim_saveNotionImage P v pageSlug imageIndex imagesDir :
  no_faults P ->
  sim eq (saveNotionImage P v pageSlug imageIndex imagesDir)
         (saveNotionImage P v pageSlug imageIndex imagesDir).
Proof.
  intros HP w1 w2 (Hi & Hc & Hwr & Hf1 & Hf2).
  destruct (is_string v) eqn:Hv.
  - destruct v as [| | | |url| |]; try done.
    destruct (imageCache w1 !! url) as [path|] eqn:Hcache.
    + unfold saveNotionImage, bind, gets, ret. rewrite <- Hi, Hcache. by repeat split.
    + destruct (saveNotionImage_miss P url pageSlug imageIndex imagesDir w1 HP Hf1 Hcache)
        as (w1' & -> & Hi1 & Hc1 & Hw1 & Hf1').
      rewrite Hi in Hcache.
      destruct (saveNotionImage_miss P url pageSlug imageIndex imagesDir w2 HP Hf2 Hcache)
        as (w2' & -> & Hi2 & Hc2 & Hw2 & Hf2').
      split; [|done]. unfold same_run. simpl.
      by rewrite Hi1, Hi2, Hi, Hc1, Hc2, Hc, Hw1, Hw2, Hwr.
  - destruct (saveNotionImage_other P v pageSlug imageIndex imagesDir w1 HP Hf1 Hv)
      as (w1' & -> & Hi1 & Hc1 & Hw1 & Hf1').
    destruct (saveNotionImage_other P v pageSlug imageIndex imagesDir w2 HP Hf2 Hv)
      as (w2' & -> & Hi2 & Hc2 & Hw2 & Hf2').
    split; [|done]. unfold same_run. simpl.
    by rewrite Hi1, Hi2, Hi, Hc1, Hc2, Hc, Hw1, Hw2, Hwr.
Qed.

Lemma sim_scan_step P slug d pm rs m :
  no_faults P -> sim eq (scan_step P slug d pm rs m) (scan_step P slug d pm rs m).
Proof.
  intros HP. unfold scan_step.
  assert (sim eq
            (match find_notion_id (linkUrl m) with
             | Some notionId =>
                 match pm !! str notionId with
                 | Some localPermalink =>
                     modify (add_console (LogResolvedLink (str (altText m)) localPermalink));;
                     ret (rs ++ [{| original := str (fullMatch m);
                                    replacement_text :=
                                      "[" +:+ str (altText m) +:+ "](" +:+ localPermalink +:+ ")" |}])
                 | None => ret rs
                 end
             | None => ret rs
             end)
            (match find_notion_id (linkUrl m) with
             | Some notionId =>
                 match pm !! str notionId with
                 | Some localPermalink =>
                     modify (add_console (LogResolvedLink (str (altText m)) localPermalink));;
                     ret (rs ++ [{| original := str (fullMatch m);
                                    replacement_text :=
                                      "[" +:+ str (altText m) +:+ "](" +:+ localPermalink +:+ ")" |}])
                 | None => ret rs
                 end
             | None => ret rs
             end)) as Hlink.
  { destruct (find_notion_id (linkUrl m)); [|by apply sim_ret].
    destruct (pm !! _); [|by apply sim_ret].
    eapply sim_bind; [apply sim_console|]. intros _ _ _. by apply sim_ret. }
  destruct (fullMatch m) as [|c rest]; [exact Hlink|].
  destruct c as [[] [] [] [] [] [] [] []]; try exact Hlink.
  destruct (is_notion_asset _); [|by apply sim_ret].
  eapply sim_bind; [by apply sim_saveNotionImage|]. intros p ? <-. by apply sim_ret.
Qed.

Lemma sim_scan_loop P slug d pm rs ms :
  no_faults P -> sim eq (scan_loop P slug d pm rs ms) (scan_loop P slug d pm rs ms).
Proof.
  intros HP. revert rs. induction ms as [|m ms IH]; intros rs; simpl; [by apply sim_ret|].
  eapply sim_bind; [by apply sim_scan_step|]. intros rs' ? <-. apply IH.
Qed.

Lemma sim_pageBodyMarkdown P id slug d pm :
  no_faults P ->
  sim eq (pageBodyMarkdown P id slug d pm) (pageBodyMarkdown P id slug d pm).
Proof.
  intros HP. unfold pageBodyMarkdown. apply sim_try.
  - eapply sim_bind; [apply sim_add_call|]. intros _ _ _.
    eapply sim_bind; [apply sim_lift|]. intros md ? <-.
    eapply sim_bind; [by apply sim_scan_loop|]. intros rs ? <-. by apply sim_ret.
  - intros e. eapply sim_bind; [apply sim_console|]. intros _ _ _. by apply sim_ret.
Qed.

Lemma sim_front_matter P cfg page slug permalink :
  no_faults P ->
  sim eq (front_matter P cfg page slug permalink) (front_matter P cfg page slug permalink).
Proof.
  intros HP. unfold front_matter.
  eapply sim_bind; [apply sim_lift|]. intros f0 ? <-.
  eapply (sim_bind eq).
  - unfold front_cover. eapply sim_bind; [apply sim_lift|]. intros cover ? <-.
    destruct (truthy cover); [|by apply sim_ret].
    destruct (truthy (image_url cover)); [|by apply sim_ret].
    eapply sim_bind; [by apply sim_saveNotionImage|]. intros p ? <-. by apply sim_ret.
  - intros f1 ? <-. unfold front_icon. eapply sim_bind; [apply sim_lift|]. intros icon ? <-.
    match goal with |- context [if ?b then _ else _] => destruct b end; [|by apply sim_ret].
    destruct (truthy (image_url icon)); [|by apply sim_ret].
    eapply sim_bind; [by apply sim_saveNotionImage|]. intros p ? <-. by apply sim_ret.
Qed.

Lemma sim_ensureDir P d : no_faults P -> sim eq (ensureDir P d) (ensureDir P d).
Proof.
  intros HP w1 w2 (Hi & Hc & Hwr & Hf1 & Hf2).
  destruct (ensureDir_no_fault P d w1 HP Hf1) as (w1' & -> & _ & ? & _ & ? & ? & _ & _ & ?).
  destruct (ensureDir_no_fault P d w2 HP Hf2) as (w2' & -> & _ & ? & _ & ? & ? & _ & _ & ?).
  split; [|done]. unfold same_run. simpl. repeat split; first [congruence|assumption].
Qed.

Lemma writeFileSync_no_fault P d n data w :
  no_faults P -> files_only w -> is_Some (disk w !! d) ->
  exists w',
    writeFileSync P d n data w = (Ok tt, w')
    /\ imageCache w' = imageCache w /\ calls w' = calls w
    /\ writes w' = (path_join d n, data) :: writes w /\ files_only w'.
Proof.
  intros HP Hw [es Hes]. unfold writeFileSync, bind, gets, modify, throw. simpl.
  rewrite HP, Hes.
  assert (dir_entries d w = es) as Hd by (unfold dir_entries; by rewrite Hes).
  assert (files_only (add_write (path_join d n) data
                        (set_disk (<[d:=<[n:=EFile data]> es]> (disk w)) w))) as Hw'.
  { apply (files_only_disk (set_disk (<[d:=<[n:=EFile data]> es]> (disk w)) w)); [done|].
    apply files_only_set; [done|]. apply map_Forall_insert_2; [done|].
    rewrite <- Hd. by apply files_only_entries. }
  destruct (dir_entries d w !! n) as [[c|]|] eqn:En.
  - eexists. split; [reflexivity|]. by repeat split.
  - apply (files_only_lookup _ _ _ _ Hw) in En. done.
  - eexists. split; [reflexivity|]. by repeat split.
Qed.

Lemma sim_ensure_write {A} (Q : A -> A -> Prop) P d n data (k1 k2 : M A) :
  no_faults P -> sim Q k1 k2 ->
  sim Q (ensureDir P d;; writeFileSync P d n data;; k1)
        (ensureDir P d;; writeFileSync P d n data;; k2).
Proof.
  intros HP Hk w1 w2 (Hi & Hc & Hwr & Hf1 & Hf2). unfold bind at 1 3.
  destruct (ensureDir_no_fault P d w1 HP Hf1) as (w1' & -> & _ & ? & _ & ? & ? & _ & Hex1 & ?).
  destruct (ensureDir_no_fault P d w2 HP Hf2) as (w2' & -> & _ & ? & _ & ? & ? & _ & Hex2 & ?).
  unfold bind at 1 2.
  destruct (writeFileSync_no_fault P d n data w1' HP) as (w1'' & -> & ? & ? & ? & ?); [done..|].
  destruct (writeFileSync_no_fault P d n data w2' HP) as (w2'' & -> & ? & ? & ? & ?); [done..|].
  apply Hk. unfold same_run. repeat split; first [congruence|assumption].
Qed.

Lemma sim_writePage P cfg page pm :
  no_faults P -> sim eq (writePage P cfg page pm) (writePage P cfg page pm).
Proof.
  intros HP. unfold writePage.
  eapply sim_bind; [apply sim_lift|]. intros slug ? <-.
  eapply sim_bind; [apply sim_lift|]. intros permalink ? <-.
  eapply sim_bind; [by apply sim_front_matter|]. intros front ? <-.
  eapply sim_bind; [apply sim_lift|]. intros fm ? <-.
  eapply sim_bind; [apply sim_lift|]. intros id ? <-.
  eapply sim_bind; [by apply sim_pageBodyMarkdown|]. intros body ? <-.
  apply sim_ensure_write; [done|]. by apply sim_ret.
Qed.

Lemma sim_write_pages P cfg pm ps written :
  no_faults P ->
  sim eq (write_pages P cfg pm ps written) (write_pages P cfg pm ps written).
Proof.
  intros HP. revert written. induction ps as [|page ps IH]; intros written; simpl.
  - by apply sim_ret.
  - eapply sim_bind; [by apply sim_writePage|]. intros out ? <-.
    eapply sim_bind; [apply sim_console|]. intros _ _ _. apply IH.
Qed.

Lemma unlinkSync_no_fault P d n w :
  no_faults P -> files_only w -> is_Some (dir_entries d w !! n) ->
  exists w',
    unlinkSync P d n w = (Ok tt, w')
    /\ imageCache w' = imageCache w /\ calls w' = calls w /\ writes w' = writes w
    /\ files_only w'
    /\ forall n', n' <> n -> dir_entries d w' !! n' = dir_entries d w !! n'.
Proof.
  intros HP Hw Hn. unfold unlinkSync, bind, gets, modify, throw. simpl. rewrite HP.
  assert (existsSync d n w = true) as -> by (by apply bool_decide_eq_true).
  simpl. eexists. split; [reflexivity|]. repeat split; try done.
  - by apply (files_only_drop w d n).
  - intros n' Hne. rewrite dir_entries_insert, decide_True by done. by apply lookup_delete_ne.
Qed.

Lemma clean_steps_no_fault P d pattern files w :
  no_faults P -> files_only w -> NoDup (List.map fst files) ->
  (forall n e, In (n, e) files -> is_Some (dir_entries d w !! n)) ->
  exists deleted w',
    forM (clean_step P d pattern) files w = (Ok deleted, w')
    /\ imageCache w' = imageCache w /\ calls w' = calls w /\ writes w' = writes w
    /\ files_only w'.
Proof.
  intros HP. revert w. induction files as [|[n e] files IH]; intros w Hw Hnd Hpres; simpl.
  - by exists [], w.
  - apply NoDup_cons in Hnd as [Hn Hnd]. unfold bind at 1. simpl.
    destruct (is_file e && _).
    + unfold bind at 1.
      destruct (unlinkSync_no_fault P d n w HP Hw) as (w1 & -> & Hi & Hc & Hwr & Hw1 & Hrest).
      { apply (Hpres n e). by left. }
      unfold ret at 1.
      destruct (IH w1 Hw1 Hnd) as (deleted & w' & Hsteps & ? & ? & ? & ?).
      { intros n' e' Hin. rewrite Hrest; [apply (Hpres n' e'); by right|].
        intros ->. apply Hn. apply list_elem_of_In. change (In n (List.map fst files)).
        apply List.in_map_iff. by exists (n, e'). }
      unfold bind. rewrite Hsteps. eexists _, w'. split; [reflexivity|].
      repeat split; first [congruence|assumption].
    + unfold ret at 1.
      destruct (IH w Hw Hnd) as (deleted & w' & Hsteps & ? & ? & ? & ?).
      { intros n' e' Hin. apply (Hpres n' e'). by right. }
      unfold bind. rewrite Hsteps. eexists _, w'. split; [reflexivity|].
      repeat split; first [congruence|assumption].
Qed.

Lemma cleanDirectory_no_fault P d pattern w :
  no_faults P -> files_only w ->
  exists deleted w',
    cleanDirectory P d pattern w = (Ok deleted, w')
    /\ imageCache w' = imageCache w /\ calls w' = calls w /\ writes w' = writes w
    /\ files_only w'.
Proof.
  intros HP Hw. unfold cleanDirectory. unfold bind at 1. unfold gets at 1.
  destruct (bool_decide (is_Some (disk w !! d))); cbn [negb]; [|by exists [], w].
  unfold bind at 1. unfold gets at 1.
  destruct (clean_steps_no_fault P d pattern (map_to_list (dir_entries d w)) w HP Hw)
    as (deleted & w' & Hsteps & ? & ? & ? & ?).
  { exact (NoDup_fst_map_to_list (dir_entries d w)). }
  { intros n e Hin. apply list_elem_of_In, elem_of_map_to_list in Hin. by eauto. }
  unfold bind at 1.
  match goal with
  | |- context [forM ?f ?l w] =>
      change (forM f l w) with (forM (clean_step P d pattern) l w)
  end.
  rewrite Hsteps. unfold ret. by exists (concat deleted), w'.
Qed.

Lemma sim_cleanDirectory P d pattern :
  no_faults P ->
  sim (fun _ _ => True) (cleanDirectory P d pattern) (cleanDirectory P d pattern).
Proof.
  intros HP w1 w2 (Hi & Hc & Hwr & Hf1 & Hf2).
  destruct (cleanDirectory_no_fault P d pattern w1 HP Hf1) as (d1 & w1' & -> & ? & ? & ? & ?).
  destruct (cleanDirectory_no_fault P d pattern w2 HP Hf2) as (d2 & w2' & -> & ? & ? & ? & ?).
  split; [|done]. unfold same_run. simpl. repeat split; first [congruence|assumption].
Qed.

Lemma sim_forM {A B} (Q : B -> B -> Prop) (f : A -> M B) l :
  (forall x, sim Q (f x) (f x)) -> sim (Forall2 Q) (forM f l) (forM f l).
Proof.
  intros Hf. induction l as [|x l IH]; simpl; [by apply sim_ret|].
  eapply sim_bind; [apply Hf|]. intros y1 y2 Hy.
  eapply sim_bind; [apply IH|]. intros ys1 ys2 Hys. apply sim_ret. by constructor.
Qed.

Lemma sim_write_source P st dbConf :
  no_faults P -> sim same_output (write_source P st dbConf) (write_source P st dbConf).
Proof.
  intros HP. unfold write_source.
  eapply sim_bind; [apply sim_lift|]. intros dbId ? <-.
  destruct (match dbId with VStr s => allDbPages st !! s | _ => None end) as [db|];
    [|apply sim_throw].
  eapply sim_bind; [by apply sim_ensureDir|]. intros _ _ _.
  eapply sim_bind; [by apply sim_ensureDir|]. intros _ _ _.
  eapply (sim_bind (fun _ _ => True)).
  - destruct (cleanBeforeSync (dbCfg_of db)); [|by apply sim_ret].
    eapply sim_bind; [apply sim_console|]. intros _ _ _.
    eapply sim_bind; [by apply sim_cleanDirectory|]. intros del1 del2 _.
    eapply sim_bind; [apply sim_console|]. intros _ _ _.
    eapply sim_bind; [apply sim_lift|]. intros srcDirImages ? <-.
    destruct (truthy srcDirImages); [|by apply sim_ret].
    eapply sim_bind; [apply sim_console|]. intros _ _ _.
    eapply sim_bind; [by apply sim_cleanDirectory|]. intros del3 del4 _.
    eapply sim_bind; [apply sim_console|]. intros _ _ _. by apply sim_ret.
  - intros deleted1 deleted2 _.
    eapply sim_bind; [apply sim_console|]. intros _ _ _.
    eapply sim_bind; [by apply sim_write_pages|]. intros written ? <-.
    apply sim_ret. by repeat split.
Qed.

Lemma sim_fetch_pages id responses cursor results :
  sim eq (fetch_pages id responses cursor results) (fetch_pages id responses cursor results).
Proof.
  revert cursor results. induction responses as [|r rs IH]; intros cursor results; simpl.
  - eapply sim_bind; [apply sim_add_call|]. intros _ _ _. apply sim_throw.
  - eapply sim_bind; [apply sim_add_call|]. intros _ _ _.
    eapply sim_bind; [apply sim_lift|]. intros resp ? <-.
    eapply sim_bind; [apply sim_lift|]. intros batch ? <-.
    eapply sim_bind; [apply sim_lift|]. intros hasMore ? <-.
    eapply sim_bind; [apply sim_lift|]. intros next ? <-.
    destruct (truthy hasMore); [apply IH|by apply sim_ret].
Qed.

Lemma sim_first_pass P st dbs : sim eq (first_pass P st dbs) (first_pass P st dbs).
Proof.
  revert st. induction dbs as [|dbConf dbs IH]; intros st; simpl; [by apply sim_ret|].
  eapply (sim_bind eq); [|intros st' ? <-; apply IH].
  unfold enumerate_source.
  eapply sim_bind; [apply sim_lift|]. intros rawId ? <-.
  destruct (negb (truthy rawId)); [apply sim_throw|].
  eapply sim_bind; [apply sim_lift|]. intros dbId ? <-.
  eapply (sim_bind eq).
  { unfold fetchDatabaseMeta. eapply sim_bind; [apply sim_add_call|]. intros _ _ _.
    apply sim_lift. }
  intros meta ? <-.
  eapply sim_bind; [apply sim_lift|]. intros cfg ? <-.
  eapply sim_bind; [apply sim_fetch_pages|]. intros ps ? <-.
  eapply sim_bind; [apply sim_lift|]. intros pm ? <-. by apply sim_ret.
Qed.

(** C5.  Two runs of the export on the same snapshot and configuration,
    started with the same image cache on disks that hold regular files
    only, and without failing file operations, end alike: both throw the
    same exception or both return, source by source, the same file names;
    and they have made the same [writeFileSync] calls, with the same paths
    and the same bytes (front matter and body), whatever each of them found
    on disk and whatever the clock said. *)
Theorem rerun_reproduces_output P opts w1 w2 :
  no_faults P -> same_run w1 w2 ->
  agrees (Forall2 same_output) (exportNotionToSSG P opts w1) (exportNotionToSSG P opts w2).
Proof.
  intros HP. revert w1 w2. change (sim (Forall2 same_output) (exportNotionToSSG P opts)
                                     (exportNotionToSSG P opts)).
  unfold exportNotionToSSG.
  destruct (negb (truthy (js_or (notionToken opts) (env_token P)))); [apply sim_throw|].
  eapply sim_bind; [apply sim_lift|]. intros cfg ? <-.
  eapply sim_bind; [apply sim_lift|]. intros databases ? <-.
  destruct databases as [| | | | |dbs|]; try apply sim_throw.
  eapply sim_bind; [apply sim_first_pass|]. intros st ? <-.
  apply sim_forM. intros dbConf. by apply sim_write_source.
Qed.

(** C5, witness: the example is run on an empty disk, then again, in a new
    process, on the disk that the first run left. *)
Lemma rerun_reproduces_output_witness :
  agrees (Forall2 same_output)
    (exportNotionToSSG example_platform two_sources (fresh ∅))
    (exportNotionToSSG example_platform two_sources (fresh disk_after_first_run)).
Proof.
  apply rerun_reproduces_output.
  - intros op. reflexivity.
  - repeat split.
    + apply map_Forall_empty.
    + apply (bool_decide_unpack _). vm_compute. exact I.
Defined.

(** ** Links between pages *)

Lemma str_app a b : str (a ++ b) = str a +:+ str b.
Proof.
  induction a as [|c a IH]; [done|].
  change (str ((c :: a) ++ b)) with (String c (str (a ++ b))). by rewrite IH.
Qed.

Lemma str_chars s : str (chars s) = s.
Proof. apply string_of_list_ascii_of_string. Qed.

Lemma chars_str l : chars (str l) = l.
Proof. apply list_ascii_of_string_of_list_ascii. Qed.

Lemma eqb_false_neq c d : c <> d -> Ascii.eqb c d = false.
Proof. intros H. by apply Ascii.eqb_neq. Qed.

Lemma span_until_app stop a b :
  ~ In stop a -> span_until stop (a ++ stop :: b) = (a, stop :: b).
Proof.
  induction a as [|c a IH]; simpl; intros Hin.
  - by rewrite Ascii.eqb_refl.
  - rewrite eqb_false_neq by (intros ->; apply Hin; by left).
    rewrite IH; [done|]. intros H. apply Hin. by right.
Qed.

Lemma match_link_at_link A U T :
  ~ In "]"%char A -> ~ In ")"%char U -> U <> [] ->
  match_link_at ("["%char :: A ++ "]"%char :: "("%char :: U ++ ")"%char :: T)
  = Some {| fullMatch := "["%char :: A ++ "]"%char :: "("%char :: U ++ [")"%char];
            altText := A; linkUrl := U |}.
Proof.
  intros HA HU Hne. unfold match_link_at. cbn [Ascii.eqb Bool.eqb].
  rewrite span_until_app by done. cbn [Ascii.eqb Bool.eqb].
  rewrite span_until_app by done. destruct U; [done|]. done.
Qed.

Lemma match_link_at_other c l :
  c <> "["%char -> (c = "!"%char -> forall l', l = "["%char :: l' -> False) ->
  match_link_at (c :: l) = None.
Proof.
  intros Hc Hbang. unfold match_link_at.
  destruct (Ascii.eqb c "!") eqn:E.
  - apply Ascii.eqb_eq in E. destruct l as [|d l']; [done|].
    destruct (Ascii.eqb d "[") eqn:E'; [|done].
    apply Ascii.eqb_eq in E' as ->. exfalso. by eapply Hbang.
  - by rewrite eqb_false_neq.
Qed.

Lemma existsb_eqb_false c l : existsb (Ascii.eqb c) l = false -> ~ In c l.
Proof.
  intros H Hin. assert (existsb (Ascii.eqb c) l = true); [|congruence].
  apply existsb_exists. exists c. split; [done|apply Ascii.eqb_refl].
Qed.

Lemma has_char_false c s : has_char c s = false -> ~ In c (chars s).
Proof. apply existsb_eqb_false. Qed.

Lemma last_snoc (t : list ascii) c d : List.last (t ++ [c]) d = c.
Proof. induction t as [|x t IH]; [done|]. simpl. rewrite IH. by destruct t. Qed.

Lemma plain_text_spec text :
  plain_text text = true -> ~ In "["%char text /\ (forall t, text <> t ++ ["!"%char]).
Proof.
  unfold plain_text. intros [Hb Hl]%andb_true_iff. split.
  - apply existsb_eqb_false. by destruct (existsb _ text).
  - intros t ->. rewrite last_snoc in Hl. done.
Qed.

Lemma scan_links_plain B R :
  ~ In "["%char B -> (forall t, B <> t ++ ["!"%char]) ->
  scan_links 0 (B ++ R) = scan_links 0 R.
Proof.
  induction B as [|c B IH]; intros Hin Hend; [done|].
  change ((c :: B) ++ R) with (c :: B ++ R). cbn [scan_links].
  rewrite match_link_at_other.
  - apply IH.
    + intros H. apply Hin. by right.
    + intros t ->. by apply (Hend (c :: t)).
  - intros ->. apply Hin. by left.
  - intros -> l' Hl. destruct B as [|d B].
    + by apply (Hend []).
    + injection Hl as -> _. apply Hin. right. by left.
Qed.

Lemma scan_links_no_bracket T : ~ In "["%char T -> scan_links 0 T = [].
Proof.
  induction T as [|c T IH]; intros Hin; [done|]. cbn [scan_links].
  rewrite match_link_at_other.
  - apply IH. intros H. apply Hin. by right.
  - intros ->. apply Hin. by left.
  - intros -> l' ->. apply Hin. right. by left.
Qed.

Lemma scan_links_skip l R : scan_links (length l) (l ++ R) = scan_links 0 R.
Proof. induction l as [|c l IH]; [done|]. simpl. apply IH. Qed.

Lemma scan_links_single B A U T :
  plain_text B = true -> ~ In "]"%char A -> ~ In ")"%char U -> U <> [] -> ~ In "["%char T ->
  scan_links 0 (B ++ ("["%char :: A ++ "]"%char :: "("%char :: U ++ [")"%char]) ++ T)
  = [{| fullMatch := "["%char :: A ++ "]"%char :: "("%char :: U ++ [")"%char];
        altText := A; linkUrl := U |}].
Proof.
  intros [HB1 HB2]%plain_text_spec HA HU Hne HT. rewrite scan_links_plain by done.
  set (rest := A ++ "]"%char :: "("%char :: U ++ [")"%char]).
  change (("["%char :: rest) ++ T) with ("["%char :: rest ++ T). cbn [scan_links].
  assert (rest ++ T = A ++ "]"%char :: "("%char :: U ++ ")"%char :: T) as Hrest.
  { unfold rest. rewrite <- !app_assoc. simpl. by rewrite <- !app_assoc. }
  rewrite Hrest at 1. rewrite match_link_at_link by done. cbn [fullMatch].
  fold rest. replace (length ("["%char :: rest) - 1) with (length rest) by (simpl; lia).
  rewrite scan_links_skip. by rewrite scan_links_no_bracket.
Qed.




Lemma length_chars s : length (chars s) = String.length s.
Proof. induction s; simpl; congruence. Qed.

Lemma is_hex32_chars key :
  is_hex32 key = true -> length (chars key) = 32 /\ forallb is_hex (chars key) = true.
Proof.
  unfold is_hex32. intros [Hlen Hhex]%andb_true_iff. apply Nat.eqb_eq in Hlen.
  split; [by rewrite length_chars|done].
Qed.


Lemma strip_prefix_mismatch c pat d l : c <> d -> strip_prefix (c :: pat) (d :: l) = None.
Proof. intros H. simpl. by rewrite eqb_false_neq. Qed.

Lemma split_first_at c pat B T :
  ~ In c B -> split_first (c :: pat) (B ++ (c :: pat) ++ T) = Some (B, T).
Proof.
  induction B as [|b B IH]; intros Hin.
  - change ([] ++ (c :: pat) ++ T) with ((c :: pat) ++ T).
    destruct ((c :: pat) ++ T) eqn:E; cbn [split_first]; rewrite <- ?E;
      by rewrite strip_prefix_app.
  - change ((b :: B) ++ (c :: pat) ++ T) with (b :: B ++ (c :: pat) ++ T).
    cbn [split_first]. rewrite strip_prefix_mismatch by (intros ->; apply Hin; by left).
    rewrite IH; [done|]. intros H. apply Hin. by right.
Qed.

Lemma expand_replacement_plain repl matched before after :
  ~ In "$"%char repl -> expand_replacement repl matched before after = repl.
Proof.
  induction repl as [|c r IH]; intros Hin; [done|]. cbn [expand_replacement].
  rewrite eqb_false_neq by (intros ->; apply Hin; by left).
  rewrite IH; [done|]. intros H. apply Hin. by right.
Qed.

Lemma js_replace_at c pat repl B T :
  ~ In c B -> ~ In "$"%char (chars repl) ->
  js_replace (str (c :: pat)) repl (str (B ++ (c :: pat) ++ T))
  = str (B ++ chars repl ++ T).
Proof.
  intros HB Hrepl. unfold js_replace. rewrite !chars_str, split_first_at by done.
  by rewrite expand_replacement_plain.
Qed.



Lemma rbind_Ok {A B} (m : res A) (k : A -> res B) b :
  rbind m k = Ok b -> exists a, m = Ok a /\ k a = Ok b.
Proof. destruct m as [a|e]; simpl; [by eauto|done]. Qed.







(** * Further properties of the exporter *)

(** ** Database identifiers *)

Lemma take_hex_prefix n l h : take_hex n l = Some h -> exists post, l = h ++ post.
Proof.
  revert l h. induction n as [|n IH]; intros l h; simpl.
  - intros [= <-]. by exists l.
  - destruct l as [|c l]; [done|]. destruct (is_hex c); [|done].
    destruct (take_hex n l) as [h'|] eqn:E; [|done]. intros [= <-].
    destruct (IH _ _ E) as [post ->]. by exists post.
Qed.

Lemma take_hex_app h post :
  forallb is_hex h = true -> take_hex (length h) (h ++ post) = Some h.
Proof.
  induction h as [|c h IH]; simpl; [done|].
  intros [-> Hh]%andb_true_iff. by rewrite IH.
Qed.

Lemma find_hex32_occurs l h : find_hex32 l = Some h -> exists pre post, l = pre ++ h ++ post.
Proof.
  induction l as [|c l IH]; cbn [find_hex32].
  - destruct (take_hex 32 []) eqn:E; [|done]. intros [= <-].
    apply take_hex_prefix in E as [post E]. by exists [], post.
  - destruct (take_hex 32 (c :: l)) eqn:E.
    + intros [= <-]. apply take_hex_prefix in E as [post E]. by exists [], post.
    + intros (pre & post & ->)%IH. by exists (c :: pre), post.
Qed.

Lemma find_hex32_complete pre h post :
  length h = 32 -> forallb is_hex h = true -> is_Some (find_hex32 (pre ++ h ++ post)).
Proof.
  intros Hlen Hhex. induction pre as [|c pre IH].
  - change ([] ++ h ++ post) with (h ++ post).
    assert (take_hex 32 (h ++ post) = Some h) as E by (rewrite <- Hlen; by apply take_hex_app).
    destruct (h ++ post); cbn [find_hex32]; rewrite E; by eauto.
  - change ((c :: pre) ++ h ++ post) with (c :: pre ++ h ++ post). cbn [find_hex32].
    destruct (take_hex 32 (c :: pre ++ h ++ post)); [by eauto|done].
Qed.

(** X1.  An accepted input yields a bare identifier, 32 lowercase
    hexadecimal digits, and a bare identifier is a fixed point: extracting
    again from the result returns it unchanged. *)
Theorem extractDatabaseId_idempotent v id :
  extractDatabaseId v = Ok id ->
  is_hex32 id = true /\ extractDatabaseId (VStr id) = Ok id.
Proof.
  intros [Hhex _]%extractDatabaseId_Ok. split; [done|]. by apply extractDatabaseId_bare.
Qed.

Lemma extractDatabaseId_idempotent_witness :
  is_hex32 blog_id = true /\ extractDatabaseId (VStr blog_id) = Ok blog_id.
Proof.
  apply (extractDatabaseId_idempotent
           (VStr ("https://www.notion.so/myworkspace/" +:+ blog_id +:+ "?v=1"))).
  reflexivity.
Defined.

(** X2.  A string is accepted exactly when it contains 32 consecutive
    lowercase hexadecimal digits, and the result then occurs in it; any
    other string is rejected with the error that quotes it. *)
Theorem extractDatabaseId_accepts s :
  ((exists pre h post, s = pre +:+ h +:+ post /\ is_hex32 h = true)
   <-> exists id, extractDatabaseId (VStr s) = Ok id)
  /\ (forall id, extractDatabaseId (VStr s) = Ok id -> exists pre post, s = pre +:+ id +:+ post)
  /\ ((forall id, extractDatabaseId (VStr s) <> Ok id) ->
      extractDatabaseId (VStr s)
      = Throw (Error ("Invalid Notion database ID or URL: " +:+ s))).
Proof.
  assert (forall id, extractDatabaseId (VStr s) = Ok id ->
                     exists pre post, s = pre +:+ id +:+ post) as Hocc.
  { intros id. unfold extractDatabaseId. destruct (is_hex32 s).
    - intros [= <-]. exists "", "". change ("" +:+ s +:+ "") with (s +:+ "").
      rewrite <- (str_chars (s +:+ "")), chars_app. simpl. by rewrite app_nil_r, str_chars.
    - destruct (find_hex32 (chars s)) as [h|] eqn:E; [|done]. intros [= <-].
      apply find_hex32_occurs in E as (pre & post & E). exists (str pre), (str post).
      by rewrite <- (str_chars s), E, !str_app. }
  split; [split|split; [done|]].
  - intros (pre & h & post & -> & Hh). unfold extractDatabaseId.
    destruct (is_hex32 (pre +:+ h +:+ post)); [by eauto|].
    apply is_hex32_chars in Hh as [Hlen Hhex].
    destruct (find_hex32_complete (chars pre) (chars h) (chars post) Hlen Hhex) as [x Hx].
    rewrite !chars_app, Hx. simpl. by eauto.
  - intros [id Hid]. destruct (Hocc _ Hid) as (pre & post & ->).
    exists pre, id, post. split; [done|]. by apply extractDatabaseId_Ok in Hid as [? _].
  - unfold extractDatabaseId. destruct (is_hex32 s); [intros H; by destruct (H s)|].
    destruct (find_hex32 (chars s)) as [h|]; [intros H; by destruct (H (str h))|done].
Qed.

(** ** Cleaning a directory *)

Lemma unlinkSync_frame P d n w w' :
  unlinkSync P d n w = (Ok tt, w') ->
  imageCache w' = imageCache w /\ calls w' = calls w /\ writes w' = writes w
  /\ console w' = console w.
Proof.
  unfold unlinkSync, bind, gets, modify, throw. simpl.
  destruct (fs_fault P (OpUnlink d n)); [done|].
  destruct (negb (existsSync d n w)); [done|]. by intros [= <-].
Qed.

Lemma clean_steps_exact P d pattern files w deleted w' :
  forM (clean_step P d pattern) files w = (Ok deleted, w') ->
  (forall d', d' <> d -> dir_entries d' w' = dir_entries d' w)
  /\ (forall n, dir_entries d w' !! n
                = if existsb (fun fe => String.eqb (fst fe) n && cleaned pattern fe) files
                  then None else dir_entries d w !! n)
  /\ concat deleted = List.map (fun fe => path_join d (fst fe)) (List.filter (cleaned pattern) files)
  /\ imageCache w' = imageCache w /\ calls w' = calls w /\ writes w' = writes w
  /\ console w' = console w.
Proof.
  revert w deleted. induction files as [|[file e] files IH]; intros w deleted; simpl.
  - intros [-> ->]%ret_Ok. done.
  - intros (del1 & w1 & Hstep & (del2 & w2 & Hrest & [-> ->]%ret_Ok)%bind_Ok)%bind_Ok.
    destruct (IH _ _ Hrest) as (Hother & Hd & Hdel & Hi & Hc & Hwr & Hco).
    fold (pattern_matches pattern file) in Hstep. unfold cleaned at 1 3. cbn [fst snd].
    destruct (is_file e && pattern_matches pattern file) eqn:Hm.
    + apply bind_Ok in Hstep as ([] & w1' & Hun & [-> ->]%ret_Ok).
      pose proof (unlinkSync_Ok _ _ _ _ _ Hun) as Hu.
      destruct (unlinkSync_frame _ _ _ _ _ Hun) as (Hi1 & Hc1 & Hwr1 & Hco1).
      split; [|split; [|split]].
      * intros d' Hne. rewrite Hother, Hu by done. by rewrite decide_False.
      * intros n. rewrite Hd, Hu, decide_True by done.
        destruct (String.eqb_spec file n) as [->|Hne]; simpl.
        -- rewrite lookup_delete_eq. by destruct (existsb _ files).
        -- by rewrite lookup_delete_ne.
      * simpl. by rewrite Hdel.
      * repeat split; congruence.
    + apply ret_Ok in Hstep as [-> ->]. split; [done|]. split; [|done].
      intros n. rewrite Hd. by rewrite andb_false_r.
Qed.

Lemma existsb_map_to_list (m : gmap string entry) (test : string * entry -> bool) n :
  existsb (fun fe => String.eqb (fst fe) n && test fe) (map_to_list m)
  = match m !! n with
    | Some e => test (n, e)
    | None => false
    end.
Proof.
  destruct (existsb _ _) eqn:E.
  - apply existsb_exists in E as ([n' e] & Hin & [Hn Ht]%andb_true_iff).
    apply String.eqb_eq in Hn. simpl in Hn. subst n'.
    apply list_elem_of_In, elem_of_map_to_list in Hin. by rewrite Hin.
  - destruct (m !! n) as [e|] eqn:Hn; [|done]. destruct (test (n, e)) eqn:Ht; [|done].
    assert (existsb (fun fe => String.eqb (fst fe) n && test fe) (map_to_list m) = true);
      [|congruence].
    apply existsb_exists. exists (n, e). split.
    + by apply list_elem_of_In, elem_of_map_to_list.
    + simpl. by rewrite String.eqb_refl.
Qed.

Lemma cleanDirectory_steps P d pattern w deleted w' :
  cleanDirectory P d pattern w = (Ok deleted, w') ->
  (dir_entries d w = ∅ /\ deleted = [] /\ w' = w)
  \/ exists del,
       forM (clean_step P d pattern) (map_to_list (dir_entries d w)) w = (Ok del, w')
       /\ deleted = concat del.
Proof.
  unfold cleanDirectory. intros (present & w0 & [-> ->]%ret_Ok & H)%bind_Ok.
  destruct (bool_decide (is_Some (disk w !! d))) eqn:Ed; cbn [negb] in H.
  - apply bind_Ok in H as (files & w0 & [-> ->]%ret_Ok & H).
    apply bind_Ok in H as (del & w1 & Hsteps & [-> ->]%ret_Ok).
    right. by exists del.
  - apply ret_Ok in H as [-> ->]. left. split; [|done].
    unfold dir_entries. apply bool_decide_eq_false in Ed.
    destruct (disk w !! d) eqn:E; [exfalso; apply Ed; by eauto|done].
Qed.

Lemma cleanDirectory_removed P d pattern w deleted w' :
  cleanDirectory P d pattern w = (Ok deleted, w') ->
  (forall n, dir_entries d w' !! n
             = match dir_entries d w !! n with
               | Some e => if cleaned pattern (n, e) then None else Some e
               | None => None
               end)
  /\ deleted = List.map (fun fe => path_join d (fst fe))
                 (List.filter (cleaned pattern) (map_to_list (dir_entries d w))).
Proof.
  intros [(Hempty & -> & ->)|(del & Hsteps & ->)]%cleanDirectory_steps.
  - rewrite Hempty, map_to_list_empty. split; [|done]. intros n. by rewrite lookup_empty.
  - apply clean_steps_exact in Hsteps as (_ & Hd & Hdel & _). split; [|done].
    intros n. rewrite Hd, existsb_map_to_list.
    by destruct (dir_entries d w !! n) as [e|]; [destruct (cleaned pattern (n, e))|].
Qed.

(** X3.  When [cleanDirectory] returns, the directory has lost exactly its
    regular files whose name matches the pattern (all regular files when no
    pattern is given): subdirectories and the other files are as before, no
    other directory is touched, and the returned list is the paths of the
    removed files, in the order of the listing. *)
Theorem cleanDirectory_exact P d pattern w deleted w' :
  cleanDirectory P d pattern w = (Ok deleted, w') ->
  (forall n, dir_entries d w' !! n
             = match dir_entries d w !! n with
               | Some e => if cleaned pattern (n, e) then None else Some e
               | None => None
               end)
  /\ (forall d', d' <> d -> dir_entries d' w' = dir_entries d' w)
  /\ deleted = List.map (fun fe => path_join d (fst fe))
                 (List.filter (cleaned pattern) (map_to_list (dir_entries d w)))
  /\ imageCache w' = imageCache w /\ calls w' = calls w /\ writes w' = writes w
  /\ console w' = console w.
Proof.
  intros Hclean. destruct (cleanDirectory_removed _ _ _ _ _ _ Hclean) as [Hd Hdel].
  split; [done|]. split; [|split; [done|]].
  - apply cleanDirectory_steps in Hclean as [(_ & _ & ->)|(del & Hsteps & _)]; [done|].
    by apply clean_steps_exact in Hsteps as (Hother & _).
  - apply cleanDirectory_steps in Hclean as [(_ & _ & ->)|(del & Hsteps & _)]; [done|].
    by apply clean_steps_exact in Hsteps as (_ & _ & _ & Hframe).
Qed.

Lemma cleanDirectory_exact_witness :
  let d := "/site/src/blog" in
  let w := fresh {[ d := {[ "old-post.md" := EFile "old"; "notes.txt" := EFile "keep";
                            "drafts.md" := EDir ]} ]} in
  let w' := snd (cleanDirectory example_platform d (Some is_markdown_name) w) in
  (forall n, dir_entries d w' !! n
             = match dir_entries d w !! n with
               | Some e => if cleaned (Some is_markdown_name) (n, e) then None else Some e
               | None => None
               end)
  /\ (forall d', d' <> d -> dir_entries d' w' = dir_entries d' w)
  /\ ["/site/src/blog/old-post.md"]
     = List.map (fun fe => path_join d (fst fe))
         (List.filter (cleaned (Some is_markdown_name)) (map_to_list (dir_entries d w)))
  /\ imageCache w' = imageCache w /\ calls w' = calls w /\ writes w' = writes w
  /\ console w' = console w.
Proof.
  intros d w w'.
  apply (cleanDirectory_exact example_platform d (Some is_markdown_name) w
           ["/site/src/blog/old-post.md"] w').
  vm_compute. reflexivity.
Defined.

(** ** The image cache *)

Lemma saveNotionImage_outcome P url pageSlug imageIndex imagesDir w :
  let run := saveNotionImage P (VStr url) pageSlug imageIndex imagesDir w in
  fst run = Ok (VStr url)
  \/ exists path, fst run = Ok (VStr path) /\ imageCache (snd run) !! url = Some path.
Proof.
  unfold saveNotionImage, try_catch, bind, gets, ensureDir, downloadImage, unlinkSync,
    renameSync, modify, throw, ret, lift. simpl.
  repeat case_match; simplify_eq; simpl;
    first [by left | right; eexists; split; [reflexivity|]; simpl;
           first [done | apply lookup_insert_eq]].
Qed.

(** X4.  Once an address has been saved (the call returned a local path
    rather than the address itself), every later call for that address,
    whatever the page, the index and the directory, returns the same path
    and changes nothing: no request, no file operation, no output. *)
Theorem saveNotionImage_cached_afterwards P url pageSlug imageIndex imagesDir w v w' :
  saveNotionImage P (VStr url) pageSlug imageIndex imagesDir w = (Ok v, w') ->
  v <> VStr url ->
  forall pageSlug' imageIndex' imagesDir',
    saveNotionImage P (VStr url) pageSlug' imageIndex' imagesDir' w' = (Ok v, w').
Proof.
  intros Hrun Hv pageSlug' imageIndex' imagesDir'.
  pose proof (saveNotionImage_outcome P url pageSlug imageIndex imagesDir w) as Hout.
  rewrite Hrun in Hout. simpl in Hout. destruct Hout as [[= ->]|(path & [= ->] & Hcache)]; [done|].
  unfold saveNotionImage, bind, gets, ret. by rewrite Hcache.
Qed.

Lemma saveNotionImage_cached_afterwards_witness :
  let one := "https://files.notion.example/one/logo.png" in
  let images := "/site/src/images/notion" in
  let first := saveNotionImage example_platform (VStr one) "my-first-post" "0" images (fresh ∅) in
  saveNotionImage example_platform (VStr one) "guide" "cover" "/site/src/images/docs" (snd first)
  = (Ok (VStr "/images/notion/my-first-post-0-0f0f0f0f.png"), snd first).
Proof.
  intros one images first.
  apply (saveNotionImage_cached_afterwards example_platform one "my-first-post" "0" images
           (fresh ∅)).
  - vm_compute. reflexivity.
  - discriminate.
Defined.





(** ** Image extensions *)

Lemma before_char_app sep a b :
  before_char sep (a ++ sep :: b) = before_char sep a.
Proof.
  induction a as [|c a IH]; simpl.
  - by rewrite Ascii.eqb_refl.
  - destruct (Ascii.eqb c sep); [done|]. by rewrite IH.
Qed.

(** X6.  The extension given to a downloaded image is always one of the
    six known ones ([jpg] when the address shows none of them), and a query
    string after the address plays no part in it. *)
Theorem getImageExtension_known url query :
  In (getImageExtension url) image_extensions
  /\ getImageExtension (url +:+ "?" +:+ query) = getImageExtension url.
Proof.
  split; [apply getImageExtension_in|].
  unfold getImageExtension. rewrite chars_app.
  change (chars ("?" +:+ query)) with ("?"%char :: chars query).
  by rewrite before_char_app.
Qed.

(** ** Listing the pages of a database *)

Lemma isArray_results r :
  isArray (own "results" r) = true ->
  nullish r = false /\ own "results" r = VArr (batch r).
Proof.
  unfold batch. destruct (own "results" r) eqn:E; try done. intros _.
  split; [by destruct r|done].
Qed.

Lemma fetch_pages_batches id firsts last rest cursor results w :
  (forall r, In r firsts -> truthy (own "has_more" r) = true) ->
  truthy (own "has_more" last) = false ->
  (forall r, In r (firsts ++ [last]) -> isArray (own "results" r) = true) ->
  fetch_pages id (List.map Ok (firsts ++ [last]) ++ rest) cursor results w
  = (Ok (results ++ concat (List.map batch (firsts ++ [last]))),
     queried id (cursor :: List.map (own "next_cursor") firsts) w).
Proof.
  revert cursor results w. induction firsts as [|r firsts IH]; intros cursor results w Hmore Hlast Harr.
  - destruct (isArray_results last) as [Hn Hres]; [apply Harr; by left|].
    cbn [app List.map fetch_pages]. unfold bind, modify, lift, ret.
    rewrite !get_non_nullish by done. cbn [rbind]. rewrite Hres, Hlast. cbn [iterate concat].
    by rewrite app_nil_r.
  - destruct (isArray_results r) as [Hn Hres]; [apply Harr; by left|].
    cbn [app List.map fetch_pages]. unfold bind at 1 2 3 4 5. unfold modify at 1. unfold lift at 1 2 3 4.
    rewrite !get_non_nullish by done. cbn [rbind]. rewrite Hres. cbn [iterate].
    rewrite (Hmore r) by (by left).
    rewrite IH; [|intros r' Hr'; apply Hmore; by right|done|intros r' Hr'; apply Harr; by right].
    cbn [concat List.map]. by rewrite app_assoc.
Qed.

(** X7.  When the database answers a series of listing requests, each
    answer announcing more pages except the last, [fetchAllPages] returns
    the pages of all the answers in order; it makes one request per answer,
    the first without cursor and each following one with the cursor that
    the previous answer gave, and no request after the last answer. *)
Theorem fetchAllPages_pagination P id w firsts last rest :
  databases_query P id = List.map Ok (firsts ++ [last]) ++ rest ->
  (forall r, In r firsts -> truthy (own "has_more" r) = true) ->
  truthy (own "has_more" last) = false ->
  (forall r, In r (firsts ++ [last]) -> isArray (own "results" r) = true) ->
  fetchAllPages P id w
  = (Ok (concat (List.map batch (firsts ++ [last]))),
     queried id (VUndef :: List.map (own "next_cursor") firsts) w).
Proof.
  intros Hq Hmore Hlast Harr. unfold fetchAllPages. rewrite Hq.
  by rewrite fetch_pages_batches.
Qed.

Lemma fetchAllPages_pagination_witness :
  fetchAllPages (paged_platform [Ok first_answer; Ok last_answer]) blog_id (fresh ∅)
  = (Ok (concat (List.map batch ([first_answer] ++ [last_answer]))),
     queried blog_id (VUndef :: List.map (own "next_cursor") [first_answer]) (fresh ∅)).
Proof.
  apply (fetchAllPages_pagination (paged_platform [Ok first_answer; Ok last_answer]) blog_id
           (fresh ∅) [first_answer] last_answer []).
  - reflexivity.
  - intros r [<-|[]]. reflexivity.
  - reflexivity.
  - intros r [<-|[<-|[]]]; reflexivity.
Defined.

Lemma fetch_pages_failure id firsts e rest cursor results w :
  (forall r, In r firsts -> truthy (own "has_more" r) = true) ->
  (forall r, In r firsts -> isArray (own "results" r) = true) ->
  fetch_pages id (List.map Ok firsts ++ Throw e :: rest) cursor results w
  = (Throw e, queried id (cursor :: List.map (own "next_cursor") firsts) w).
Proof.
  revert cursor results w. induction firsts as [|r firsts IH]; intros cursor results w Hmore Harr.
  - cbn [app List.map fetch_pages]. by unfold bind, modify, lift.
  - destruct (isArray_results r) as [Hn Hres]; [apply Harr; by left|].
    cbn [app List.map fetch_pages]. unfold bind at 1 2 3 4 5. unfold modify at 1. unfold lift at 1 2 3 4.
    rewrite !get_non_nullish by done. cbn [rbind]. rewrite Hres. cbn [iterate].
    rewrite (Hmore r) by (by left).
    by rewrite IH; [|intros r' Hr'; apply Hmore; by right|intros r' Hr'; apply Harr; by right].
Qed.

(** X8.  A listing request that fails makes [fetchAllPages] fail with the
    same error, whatever the earlier answers held: the pages already
    received are not returned, and no further request is made. *)
Theorem fetchAllPages_no_partial_listing P id w firsts e rest :
  databases_query P id = List.map Ok firsts ++ Throw e :: rest ->
  (forall r, In r firsts -> truthy (own "has_more" r) = true) ->
  (forall r, In r firsts -> isArray (own "results" r) = true) ->
  fetchAllPages P id w
  = (Throw e, queried id (VUndef :: List.map (own "next_cursor") firsts) w).
Proof.
  intros Hq Hmore Harr. unfold fetchAllPages. rewrite Hq. by apply fetch_pages_failure.
Qed.

Lemma fetchAllPages_no_partial_listing_witness :
  fetchAllPages (paged_platform [Ok first_answer; Throw (Error "rate limited")]) blog_id
    (fresh ∅)
  = (Throw (Error "rate limited"),
     queried blog_id (VUndef :: List.map (own "next_cursor") [first_answer]) (fresh ∅)).
Proof.
  apply (fetchAllPages_no_partial_listing
           (paged_platform [Ok first_answer; Throw (Error "rate limited")]) blog_id (fresh ∅)
           [first_answer] (Error "rate limited") []).
  - reflexivity.
  - intros r [<-|[]]. reflexivity.
  - intros r [<-|[]]. reflexivity.
Defined.

(** ** The body of a page *)

Lemma pageBodyMarkdown_conversion_error P pageId slug imagesDir pm w e :
  page_markdown P pageId = Throw e ->
  pageBodyMarkdown P pageId slug imagesDir pm w
  = (Ok "", add_console (WarnMarkdownError pageId (message e))
              (add_call (CallPageMarkdown pageId) w)).
Proof.
  intros He. unfold pageBodyMarkdown, try_catch, bind, modify, lift, ret. by rewrite He.
Qed.


Lemma strip_prefix_Some p l r : strip_prefix p l = Some r -> l = p ++ r.
Proof.
  revert l. induction p as [|c p IH]; intros [|d l]; simpl; try done.
  - by intros [= ->].
  - by intros [= ->].
  - destruct (Ascii.eqb_spec c d) as [->|]; [|done]. by intros ->%IH.
Qed.

Lemma split_first_complete pat pre post : is_Some (split_first pat (pre ++ pat ++ post)).
Proof.
  induction pre as [|c pre IH].
  - change ([] ++ pat ++ post) with (pat ++ post).
    destruct (pat ++ post) eqn:E; cbn [split_first]; rewrite <- ?E, strip_prefix_app; by eauto.
  - change ((c :: pre) ++ pat ++ post) with (c :: pre ++ pat ++ post). cbn [split_first].
    destruct (strip_prefix pat _); [by eauto|]. by destruct IH as [[b a] ->]; eauto.
Qed.

Lemma includes_occurs pat pre post : includes pat (str (pre ++ chars pat ++ post)) = true.
Proof.
  unfold includes. rewrite chars_str.
  by destruct (split_first_complete (chars pat) pre post) as [x ->].
Qed.

Lemma match_notion_at_occurs l id :
  match_notion_at l = Some id -> exists pre post, l = pre ++ chars "notion" ++ post.
Proof.
  unfold match_notion_at.
  destruct (strip_prefix (chars "http") l) as [l1|] eqn:E1; [|done].
  apply strip_prefix_Some in E1 as ->.
  set (l2 := match l1 with c :: r => if Ascii.eqb c "s" then r else l1 | [] => l1 end).
  assert (exists p2, l1 = p2 ++ l2) as [p2 H2].
  { unfold l2. destruct l1 as [|c r]; [by exists []|].
    destruct (Ascii.eqb c "s"); [by exists [c]|by exists []]. }
  clearbody l2. subst l1.
  destruct (strip_prefix (chars "://") l2) as [l3|] eqn:E3; [|done].
  apply strip_prefix_Some in E3 as ->.
  set (l4 := match strip_prefix (chars "www.") l3 with Some r => r | None => l3 end).
  assert (exists p4, l3 = p4 ++ l4) as [p4 H4].
  { unfold l4. destruct (strip_prefix (chars "www.") l3) as [r|] eqn:E.
    - apply strip_prefix_Some in E as ->. by eexists.
    - by exists []. }
  clearbody l4. subst l3.
  destruct (strip_prefix (chars "notion.so/") l4) as [l5|] eqn:E5; [|done].
  apply strip_prefix_Some in E5 as ->. intros _.
  exists (chars "http" ++ p2 ++ chars "://" ++ p4), (chars ".so/" ++ l5).
  rewrite <- !app_assoc. done.
Qed.

Lemma find_notion_id_occurs l id :
  find_notion_id l = Some id -> exists pre post, l = pre ++ chars "notion" ++ post.
Proof.
  induction l as [|c l IH]; cbn [find_notion_id].
  - destruct (match_notion_at []) eqn:E; [|done]. intros _. by eapply match_notion_at_occurs.
  - destruct (match_notion_at (c :: l)) eqn:E.
    + intros _. by eapply match_notion_at_occurs.
    + intros (pre & post & ->)%IH. by exists (c :: pre), post.
Qed.

Lemma foreign_address url :
  is_notion_asset url = false -> find_notion_id (chars url) = None.
Proof.
  unfold is_notion_asset. intros [[Hn _]%orb_false_iff _]%orb_false_iff.
  destruct (find_notion_id (chars url)) as [id|] eqn:E; [|done].
  apply find_notion_id_occurs in E as (pre & post & E).
  rewrite <- (str_chars url), E, includes_occurs in Hn. done.
Qed.

Lemma match_link_at_image A U T :
  ~ In "]"%char A -> ~ In ")"%char U -> U <> [] ->
  match_link_at ("!"%char :: "["%char :: A ++ "]"%char :: "("%char :: U ++ ")"%char :: T)
  = Some {| fullMatch := "!"%char :: "["%char :: A ++ "]"%char :: "("%char :: U ++ [")"%char];
            altText := A; linkUrl := U |}.
Proof.
  intros HA HU Hne. unfold match_link_at. cbn [Ascii.eqb Bool.eqb].
  rewrite span_until_app by done. cbn [Ascii.eqb Bool.eqb].
  rewrite span_until_app by done. destruct U; [done|]. done.
Qed.

Lemma scan_links_before_mark B R :
  ~ In "["%char B -> scan_links 0 (B ++ "!"%char :: R) = scan_links 0 ("!"%char :: R).
Proof.
  induction B as [|c B IH]; intros Hin; [done|].
  change ((c :: B) ++ "!"%char :: R) with (c :: B ++ "!"%char :: R). cbn [scan_links].
  rewrite match_link_at_other.
  - apply IH. intros H. apply Hin. by right.
  - intros ->. apply Hin. by left.
  - intros -> l' Hl. destruct B as [|d B]; [done|].
    injection Hl as -> _. apply Hin. right. by left.
Qed.

Lemma scan_links_single_image B A U T :
  ~ In "["%char B -> ~ In "]"%char A -> ~ In ")"%char U -> U <> [] -> ~ In "["%char T ->
  scan_links 0 (B ++ "!"%char :: ("["%char :: A ++ "]"%char :: "("%char :: U ++ [")"%char]) ++ T)
  = [{| fullMatch := "!"%char :: "["%char :: A ++ "]"%char :: "("%char :: U ++ [")"%char];
        altText := A; linkUrl := U |}].
Proof.
  intros HB HA HU Hne HT. rewrite scan_links_before_mark by done.
  set (link := "["%char :: A ++ "]"%char :: "("%char :: U ++ [")"%char]).
  cbn [scan_links].
  assert (link ++ T = "["%char :: A ++ "]"%char :: "("%char :: U ++ ")"%char :: T) as Hlink.
  { unfold link. simpl. rewrite <- !app_assoc. simpl. by rewrite <- !app_assoc. }
  rewrite Hlink at 1. rewrite match_link_at_image by done. cbn [fullMatch].
  fold link. replace (length ("!"%char :: link) - 1) with (length link) by (simpl; lia).
  rewrite scan_links_skip. by rewrite scan_links_no_bracket.
Qed.

Lemma ends_with_mark (B : list ascii) :
  plain_text B = false -> ~ In "["%char B -> exists t, B = t ++ ["!"%char].
Proof.
  unfold plain_text. intros H Hin.
  assert (existsb (Ascii.eqb "[") B = false) as Hb.
  { destruct (existsb _ B) eqn:E; [|done].
    apply existsb_exists in E as (c & Hc & Heq%Ascii.eqb_eq). by subst c. }
  rewrite Hb in H. simpl in H. apply negb_false_iff, Ascii.eqb_eq in H.
  destruct B as [|c B]; [done|]. exists (removelast (c :: B)).
  rewrite <- H. by apply app_removelast_last.
Qed.

(** X10.  A link, or an image when the text before it ends with an
    exclamation mark, whose address does not contain [notion],
    [secure.notion-static.com] or [s3.us-west] is left as it is: the body
    comes back unchanged, nothing is downloaded and nothing is printed
    (stated for a body with one link or image). *)
Theorem pageBodyMarkdown_foreign_address P pageId slug imagesDir pm before alt url after w :
  page_markdown P pageId
  = Ok (before +:+ "[" +:+ alt +:+ "](" +:+ url +:+ ")" +:+ after) ->
  is_notion_asset url = false ->
  url <> "" ->
  has_char "[" before = false ->
  has_char "]" alt = false ->
  has_char ")" url = false ->
  has_char "[" after = false ->
  pageBodyMarkdown P pageId slug imagesDir pm w
  = (Ok (before +:+ "[" +:+ alt +:+ "](" +:+ url +:+ ")" +:+ after),
     add_call (CallPageMarkdown pageId) w).
Proof.
  intros Hmd Hforeign Hne Hbefore Halt Hurl Hafter.
  apply has_char_false in Hbefore, Halt, Hurl, Hafter.
  assert (chars url <> []) as Hne'.
  { intros H. apply Hne. by rewrite <- (str_chars url), H. }
  set (link := "["%char :: chars alt ++ "]"%char :: "("%char :: chars url ++ [")"%char]).
  assert (chars (before +:+ "[" +:+ alt +:+ "](" +:+ url +:+ ")" +:+ after)
          = chars before ++ link ++ chars after) as Hshape.
  { rewrite !chars_app. unfold link. simpl. rewrite <- !app_assoc. simpl.
    by rewrite <- !app_assoc. }
  unfold pageBodyMarkdown, try_catch, bind at 1 2, modify, lift. rewrite Hmd, Hshape.
  destruct (plain_text (chars before)) eqn:Hplain.
  - unfold link. rewrite scan_links_single by done.
    cbn [scan_loop]. unfold bind at 1 2, scan_step. cbn [fullMatch linkUrl altText].
    rewrite foreign_address by done. by unfold ret.
  - destruct (ends_with_mark _ Hplain Hbefore) as [t Ht]. rewrite Ht.
    rewrite <- app_assoc. change (["!"%char] ++ link ++ chars after)
      with ("!"%char :: link ++ chars after).
    unfold link. rewrite scan_links_single_image; try done.
    + cbn [scan_loop]. unfold bind at 1 2, scan_step. cbn [fullMatch linkUrl altText].
      rewrite str_chars, Hforeign. by unfold ret.
    + intros H. apply Hbefore. rewrite Ht. apply in_app_iff. by left.
Qed.

Lemma pageBodyMarkdown_foreign_address_witness :
  pageBodyMarkdown
    (platform_with (databases_query example_platform)
       (fun _ => Ok ("Logo: !" +:+ "[" +:+ "logo" +:+ "](" +:+ "https://example.org/logo.png"
                     +:+ ")" +:+ ".")))
    (VStr post_id) "my-first-post" "/site/src/images/notion" ∅ (fresh ∅)
  = (Ok ("Logo: !" +:+ "[" +:+ "logo" +:+ "](" +:+ "https://example.org/logo.png" +:+ ")"
         +:+ "."),
     add_call (CallPageMarkdown (VStr post_id)) (fresh ∅)).
Proof.
  apply pageBodyMarkdown_foreign_address; try reflexivity. discriminate.
Defined.

(** ** Writing pages *)

Lemma append_empty_r s : s +:+ "" = s.
Proof. rewrite <- (str_chars (s +:+ "")), chars_app. simpl. by rewrite app_nil_r, str_chars. Qed.

(** X11.  A page whose conversion to Markdown fails is still written: its
    file holds the serialised front matter and nothing else. *)
Theorem writePage_failed_conversion P cfg page pm w out w' e :
  page_markdown P (own "id" page) = Throw e ->
  writePage P cfg page pm w = (Ok out, w') ->
  exists slug permalink front w1 fm,
    buildSlug P page (slugConf cfg) = Ok slug
    /\ front_matter P cfg page slug permalink w = (Ok front, w1)
    /\ toFrontMatterYaml P (VObj front) = Ok fm
    /\ out = path_join (dir cfg) (slug +:+ ".md")
    /\ dir_entries (dir cfg) w' !! (slug +:+ ".md") = Some (EFile fm).
Proof.
  intros Hmd Hw. unfold writePage in Hw.
  apply bind_Ok in Hw as (slug & wa & [Hslug ->]%lift_Ok & H).
  apply bind_Ok in H as (permalink & wa & [_ ->]%lift_Ok & H).
  apply bind_Ok in H as (front & wb & Hfront & H).
  apply bind_Ok in H as (fm & wb' & [Hfm ->]%lift_Ok & H).
  apply bind_Ok in H as (id & wb' & [[-> _]%get_Ok ->]%lift_Ok & H).
  apply bind_Ok in H as (body & wc & Hbody & H).
  apply bind_Ok in H as ([] & wd & Hdir & H).
  apply bind_Ok in H as ([] & we & Hwrite & [-> ->]%ret_Ok).
  exists slug, permalink, front, wb, fm. repeat split; try done.
  pose proof (pageBodyMarkdown_conversion_error P (own "id" page) slug (imagesDir cfg) pm wb e
                Hmd) as Hb.
  rewrite Hbody in Hb. injection Hb as -> _.
  pose proof (writeFileSync_Ok _ _ _ _ _ _ Hwrite (dir cfg)) as Hd.
  rewrite decide_True in Hd by done. by rewrite Hd, lookup_insert_eq, append_empty_r.
Qed.

Lemma writePage_failed_conversion_witness :
  let P := platform_with (databases_query example_platform)
             (fun _ => Throw (Error "conversion failed")) in
  let run := writePage P example_cfg post_page ∅ (fresh ∅) in
  exists slug permalink front w1 fm,
    buildSlug P post_page (slugConf example_cfg) = Ok slug
    /\ front_matter P example_cfg post_page slug permalink (fresh ∅) = (Ok front, w1)
    /\ toFrontMatterYaml P (VObj front) = Ok fm
    /\ "/site/src/blog/my-first-post.md" = path_join (dir example_cfg) (slug +:+ ".md")
    /\ dir_entries (dir example_cfg) (snd run) !! (slug +:+ ".md") = Some (EFile fm).
Proof.
  intros P run.
  apply (writePage_failed_conversion P example_cfg post_page ∅ (fresh ∅)
           "/site/src/blog/my-first-post.md" (snd run) (Error "conversion failed")).
  - reflexivity.
  - vm_compute. reflexivity.
Defined.

(** ** Validation of the configuration *)

(** X12.  With a token and a configuration object, the run is refused,
    before anything is read or written, when [databases] is not an array;
    an empty array is accepted, whatever the message of that error says:
    the run then returns no result and does nothing. *)
Theorem exportNotionToSSG_databases_array P opts conf w :
  truthy (js_or (notionToken opts) (env_token P)) = true ->
  the_config P opts = Ok conf ->
  nullish conf = false ->
  (isArray (own "databases" conf) = false ->
   exportNotionToSSG P opts w
   = (Throw (Error "Config must have a 'databases' array with at least one database"), w))
  /\ (own "databases" conf = VArr [] -> exportNotionToSSG P opts w = (Ok [], w)).
Proof.
  intros Htok Hconf Hnn. split.
  - intros Harr. unfold exportNotionToSSG. rewrite Htok. cbn [negb]. unfold bind, lift.
    fold (the_config P opts). rewrite Hconf, get_non_nullish by done.
    by destruct (own "databases" conf).
  - intros Hdbs. by rewrite (exportNotionToSSG_passes P opts w conf []).
Qed.

Lemma exportNotionToSSG_databases_array_witness :
  (isArray (own "databases" (config (options_of []))) = false ->
   exportNotionToSSG example_platform (options_of []) (fresh ∅)
   = (Throw (Error "Config must have a 'databases' array with at least one database"),
      fresh ∅))
  /\ (own "databases" (config (options_of [])) = VArr [] ->
      exportNotionToSSG example_platform (options_of []) (fresh ∅) = (Ok [], fresh ∅)).
Proof.
  apply (exportNotionToSSG_databases_array example_platform (options_of [])
           (config (options_of [])) (fresh ∅)); reflexivity.
Defined.

Lemma set_add_spec x l :
  NoDup l ->
  NoDup (set_add x l) /\ length (set_add x l) <= S (length l)
  /\ forall f, In f (set_add x l) <-> In f l \/ f = x.
Proof.
  intros Hl. unfold set_add. destruct (bool_decide (x ∈ l)) eqn:E.
  - apply bool_decide_eq_true in E. split; [done|]. split; [lia|].
    intros f. split; [by left|]. intros [?| ->]; [done|by apply list_elem_of_In].
  - apply bool_decide_eq_false in E. split; [|split].
    + apply NoDup_app. split; [done|]. split; [|apply NoDup_singleton].
      intros y Hy ->%list_elem_of_singleton. done.
    + rewrite length_app. simpl. lia.
    + intros f. rewrite in_app_iff. simpl. naive_solver.
Qed.

Lemma write_pages_files P cfg pm ps written w out w' :
  NoDup written ->
  write_pages P cfg pm ps written w = (Ok out, w') ->
  NoDup out /\ length out <= length written + length ps
  /\ forall f, In f out <->
               In f written
               \/ exists page slug, In page ps /\ buildSlug P page (slugConf cfg) = Ok slug
                                    /\ f = path_join (dir cfg) (slug +:+ ".md").
Proof.
  revert written w. induction ps as [|page ps IH]; intros written w Hnd; simpl.
  - intros [-> ->]%ret_Ok. split; [done|]. split; [lia|]. naive_solver.
  - intros (outPath & w1 & Hpage & H)%bind_Ok.
    apply bind_Ok in H as ([] & w2 & _ & H).
    apply writePage_markdown in Hpage as (slug & Hslug & -> & _).
    destruct (set_add_spec (path_join (dir cfg) (slug +:+ ".md")) written Hnd)
      as (Hnd' & Hlen & Hin).
    destruct (IH _ _ Hnd' H) as (Hout & Hlen' & Hfiles).
    split; [done|]. split; [lia|]. intros f. rewrite Hfiles, Hin. split.
    + intros [[?| ->]|(page' & slug' & ? & ? & ->)]; [by left|right..].
      * exists page, slug. auto.
      * exists page', slug'. auto.
    + intros [?|(page' & slug' & [<-|?] & Hs & ->)]; [by auto| |].
      * left. right. congruence.
      * right. exists page', slug'. auto.
Qed.

(** X13.  The second pass returns one result per configured source, in
    the order of the configuration.  Each result carries the identifier as
    configured and the number of pages enumerated for it; its written
    files are, without repetition, the files [<slug>.md] of these pages in
    the output directory, so pages that share a slug are counted once
    there; and nothing is reported deleted when cleaning is switched
    off. *)
Theorem second_pass_results P st dbs w rs w' :
  second_pass P st dbs w = (Ok rs, w') ->
  Forall2 (fun dbConf r =>
    exists s db,
      own "databaseId" dbConf = VStr s /\ allDbPages st !! s = Some db
      /\ databaseId r = VStr s
      /\ pagesExported r = length (pages db)
      /\ NoDup (filesWritten r)
      /\ length (filesWritten r) <= pagesExported r
      /\ (forall f, In f (filesWritten r) <->
            exists page slug, In page (pages db)
              /\ buildSlug P page (slugConf (dbCfg_of db)) = Ok slug
              /\ f = path_join (dir (dbCfg_of db)) (slug +:+ ".md"))
      /\ (cleanBeforeSync (dbCfg_of db) = false -> filesDeleted r = [])) dbs rs.
Proof.
  unfold second_pass. revert w rs. induction dbs as [|dbConf dbs IH]; intros w rs; simpl.
  - intros [-> _]%ret_Ok. constructor.
  - intros (r & w1 & Hsrc & (rs' & w2 & Hrest & [-> ->]%ret_Ok)%bind_Ok)%bind_Ok.
    constructor; [|by eapply IH]. clear IH Hrest.
    unfold write_source in Hsrc.
    apply bind_Ok in Hsrc as (dbId & w0 & [[-> _]%get_Ok ->]%lift_Ok & H).
    destruct (own "databaseId" dbConf) as [| | | |s| |] eqn:Hid; try (by discriminate H).
    destruct (allDbPages st !! s) as [db|] eqn:Hdb; [|by discriminate H].
    apply bind_Ok in H as ([] & wa & _ & H).
    apply bind_Ok in H as ([] & wb & _ & H).
    apply bind_Ok in H as (deleted & wc & Hclean & H).
    apply bind_Ok in H as ([] & wd & _ & H).
    apply bind_Ok in H as (written & we & Hpages & [-> ->]%ret_Ok).
    apply write_pages_files in Hpages as (Hnd & Hlen & Hfiles); [|apply NoDup_nil_2].
    exists s, db. cbn [databaseId pagesExported filesWritten filesDeleted].
    repeat split; try done.
    + intros Hin. apply Hfiles in Hin as [[]|?]. done.
    + intros Hex. apply Hfiles. by right.
    + intros Hoff. rewrite Hoff in Hclean. by apply ret_Ok in Hclean as [-> _].
Qed.

Lemma second_pass_results_witness :
  let P := example_platform in
  let st := ok_or empty_state (fst (first_pass P empty_state linked_sources (fresh ∅))) in
  let w := snd (first_pass P empty_state linked_sources (fresh ∅)) in
  let run := second_pass P st linked_sources w in
  Forall2 (fun dbConf r =>
    exists s db,
      own "databaseId" dbConf = VStr s /\ allDbPages st !! s = Some db
      /\ databaseId r = VStr s
      /\ pagesExported r = length (pages db)
      /\ NoDup (filesWritten r)
      /\ length (filesWritten r) <= pagesExported r
      /\ (forall f, In f (filesWritten r) <->
            exists page slug, In page (pages db)
              /\ buildSlug P page (slugConf (dbCfg_of db)) = Ok slug
              /\ f = path_join (dir (dbCfg_of db)) (slug +:+ ".md"))
      /\ (cleanBeforeSync (dbCfg_of db) = false -> filesDeleted r = []))
    linked_sources (ok_or [] (fst run)).
Proof.
  intros P st w run.
  apply (second_pass_results P st linked_sources w (ok_or [] (fst run)) (snd run)).
  vm_compute. reflexivity.
Defined.

(** ** The shape of slugs *)

Lemma trim_start_head l c r : trim_start l = c :: r -> is_space c = false.
Proof.
  induction l as [|d l IH]; simpl; [done|].
  destruct (is_space d) eqn:Hd; [done|]. by intros [= <- _].
Qed.

Lemma trim_start_suffix l : exists p, l = p ++ trim_start l.
Proof.
  induction l as [|d l [p IH]]; simpl; [by exists []|].
  destruct (is_space d); [|by exists []]. exists (d :: p). simpl. by rewrite <- IH.
Qed.

Lemma trim_start_fixed l c r : l = c :: r -> is_space c = false -> trim_start l = l.
Proof. intros -> H. simpl. by rewrite H. Qed.

Lemma trim_chars_last l t c : trim_chars l = t ++ [c] -> is_space c = false.
Proof.
  unfold trim_chars. intros H. apply (f_equal (@rev ascii)) in H.
  rewrite rev_involutive, rev_app_distr in H. simpl in H. by apply trim_start_head in H.
Qed.

Lemma trim_chars_head l c r : trim_chars l = c :: r -> is_space c = false.
Proof.
  unfold trim_chars. intros H. apply (f_equal (@rev ascii)) in H.
  rewrite rev_involutive in H. simpl in H.
  destruct (trim_start_suffix (rev (trim_start l))) as [p Hp]. rewrite H in Hp.
  apply (f_equal (@rev ascii)) in Hp. rewrite rev_involutive, !rev_app_distr in Hp.
  simpl in Hp. rewrite rev_involutive in Hp. simpl in Hp. by apply trim_start_head in Hp.
Qed.

Lemma trim_chars_incl l c : In c (trim_chars l) -> In c l.
Proof.
  unfold trim_chars. rewrite <- in_rev. intros H.
  destruct (trim_start_suffix (rev (trim_start l))) as [p Hp].
  assert (In c (rev (trim_start l))) as H1 by (rewrite Hp; apply in_app_iff; by right).
  rewrite <- in_rev in H1. destruct (trim_start_suffix l) as [q Hq].
  rewrite Hq. apply in_app_iff. by right.
Qed.

Lemma trim_chars_fixed l :
  (forall c r, l = c :: r -> is_space c = false) ->
  (forall t c, l = t ++ [c] -> is_space c = false) ->
  trim_chars l = l.
Proof.
  intros Hhead Hlast. unfold trim_chars.
  assert (trim_start l = l) as ->.
  { destruct l as [|c r]; [done|]. by eapply trim_start_fixed, Hhead. }
  assert (trim_start (rev l) = rev l) as ->; [|apply rev_involutive].
  destruct (rev l) as [|c r] eqn:E; [done|]. eapply trim_start_fixed; [done|].
  apply (Hlast (rev r)). by rewrite <- (rev_involutive l), E.
Qed.

Lemma dash_spaces_dashed l :
  (forall c, In c l -> is_alnum c || is_space c = true) ->
  (forall t c, l = t ++ [c] -> is_space c = false) ->
  dashed false (dash_spaces false l) = true
  /\ (l <> [] -> dashed true (dash_spaces true l) = true).
Proof.
  induction l as [|c l IH]; intros Hok Hlast; [done|].
  assert (l <> [] -> dashed false (dash_spaces false l) = true
                     /\ dashed true (dash_spaces true l) = true) as IH'.
  { intros Hne. destruct IH as [? ?]; [by auto using in_cons| |by auto].
    intros t d ->. apply (Hlast (c :: t)). done. }
  assert (is_space c = true -> l <> []) as Hrest.
  { intros Hc ->. specialize (Hlast [] c eq_refl). congruence. }
  assert (is_space c = false -> is_alnum c = true /\ Ascii.eqb c "-" = false) as Hal.
  { intros Hc. specialize (Hok c (or_introl eq_refl)). rewrite Hc, orb_false_r in Hok.
    split; [done|]. apply eqb_false_neq. by apply alnum_survives in Hok as [? _]. }
  assert (dashed false (dash_spaces false l) = true) as Hfalse.
  { destruct l as [|d l']; [done|]. by apply IH'. }
  cbn [dash_spaces]. destruct (is_space c) eqn:Hc.
  - destruct (IH' (Hrest eq_refl)) as [_ Htrue]. cbn [dashed Ascii.eqb Bool.eqb negb andb].
    by rewrite Htrue.
  - destruct (Hal eq_refl) as [Ha Hd]. cbn [dashed]. by rewrite Hd, Ha, Hfalse.
Qed.

Lemma to_lower_spec c :
  Ascii.eqb (to_lower c) "-" = Ascii.eqb c "-"
  /\ is_alnum (to_lower c) = is_alnum c
  /\ is_upper (to_lower c) = false.
Proof. destruct c as [[] [] [] [] [] [] [] []]; vm_compute; done. Qed.

Lemma dashed_lower a l : dashed a (List.map to_lower l) = dashed a l.
Proof.
  revert a. induction l as [|c l IH]; intros a; [done|]. cbn [List.map dashed].
  destruct (to_lower_spec c) as (-> & -> & _). by rewrite !IH.
Qed.

Lemma slugify_shape P lower s :
  (slugify P lower s = "" \/ dashed true (chars (slugify P lower s)) = true)
  /\ (lower = true -> forallb (fun c => negb (is_upper c)) (chars (slugify P lower s)) = true).
Proof.
  unfold slugify.
  set (l := trim_chars (List.filter (fun c => is_alnum c || is_space c)
                          (flat_map (slugify_char P) (chars s)))).
  assert (forall c, In c l -> is_alnum c || is_space c = true) as Hok.
  { intros c Hc%trim_chars_incl. by apply filter_In in Hc as [_ ?]. }
  assert (forall t c, l = t ++ [c] -> is_space c = false) as Hlast
    by (intros t c; apply trim_chars_last).
  assert (l = [] \/ dashed true (dash_spaces false l) = true) as Hshape.
  { destruct l as [|c r] eqn:E; [by left|right].
    assert (is_space c = false) as Hc by (by eapply trim_chars_head).
    pose proof (Hok c (or_introl eq_refl)) as Ha. rewrite Hc, orb_false_r in Ha.
    destruct (dash_spaces_dashed r) as [Hr _].
    - intros d Hd. apply Hok. by right.
    - intros t d ->. by apply (Hlast (c :: t)).
    - cbn [dash_spaces]. rewrite Hc. cbn [dashed].
      rewrite eqb_false_neq by (by apply alnum_survives in Ha as [? _]). by rewrite Ha, Hr. }
  split.
  - destruct Hshape as [->|Hd]; [left; by destruct lower|right].
    rewrite chars_str. destruct lower; [by rewrite dashed_lower|done].
  - intros ->. rewrite chars_str. apply forallb_forall. intros c (d & <- & _)%in_map_iff.
    by destruct (to_lower_spec d) as (_ & _ & ->).
Qed.

(** X14.  A slug is empty or made of words of ASCII letters and digits
    separated by single dashes: it has no other character, neither starts
    nor ends with a dash, and has no two dashes in a row.  Unless the rule
    says [lower: false], it has no capital letter. *)
Theorem buildSlug_shape P page slugConf slug :
  buildSlug P page slugConf = Ok slug ->
  (slug = "" \/ dashed true (chars slug) = true)
  /\ (own "lower" slugConf <> VBool false ->
      forallb (fun c => negb (is_upper c)) (chars slug) = true).
Proof.
  unfold buildSlug.
  intros (base & _ & (base' & _ & (lower & [-> _]%get_Ok & [= <-])%rbind_Ok)%rbind_Ok)%rbind_Ok.
  rewrite toSlug_string.
  destruct (slugify_shape P (is_not_false (own "lower" slugConf)) (js_String base'))
    as [Hshape Hlower].
  split; [done|]. intros Hl. apply Hlower. by destruct (own "lower" slugConf) as [| |[]| | | |].
Qed.

Lemma buildSlug_shape_witness :
  ("my-first-post" = "" \/ dashed true (chars "my-first-post") = true)
  /\ (own "lower" default_slugConf <> VBool false ->
      forallb (fun c => negb (is_upper c)) (chars "my-first-post") = true).
Proof.
  apply (buildSlug_shape example_platform
           (page_of post_id [("Name", title_prop " My  First: Post! ")]) default_slugConf).
  vm_compute. reflexivity.
Defined.

Lemma dashed_chars a l c : dashed a l = true -> In c l -> is_alnum c = true \/ c = "-"%char.
Proof.
  revert a. induction l as [|d l IH]; intros a; [done|]. cbn [dashed].
  destruct (Ascii.eqb_spec d "-") as [->|Hd].
  - intros [_ H]%andb_true_iff [<-|Hin]; [by right|by eapply IH].
  - intros [Ha H]%andb_true_iff [<-|Hin]; [by left|by eapply IH].
Qed.

Lemma slug_without c slug :
  is_alnum c = false -> c <> "-"%char ->
  slug = "" \/ dashed true (chars slug) = true -> ~ In c (chars slug).
Proof.
  intros Hc Hd [->|Hs] Hin; [done|].
  destruct (dashed_chars _ _ _ Hs Hin); [congruence|done].
Qed.

(** X15.  For a source without [permalink] in its configuration, the
    permalink of every page is the base path, a slash, the slug of the
    page and a slash (for a base path without opening brace). *)
Theorem default_permalink P dbConf meta cfg page slug base :
  detectDbConfig P dbConf meta = Ok cfg ->
  truthy (own "permalink" dbConf) = false ->
  own "basePath" dbConf = VStr base ->
  has_char "{" base = false ->
  buildSlug P page (slugConf cfg) = Ok slug ->
  renderPermalink (permalinkTpl cfg) slug = Ok (base +:+ "/" +:+ slug +:+ "/").
Proof.
  intros Hcfg Hperm Hbase Hbrace Hslug. unfold detectDbConfig in Hcfg.
  repeat match type of Hcfg with
         | rbind _ _ = Ok _ => apply rbind_Ok in Hcfg as (? & [-> _]%get_Ok & Hcfg)
         | (if ?b then _ else _) = Ok _ => destruct b; [discriminate Hcfg|]
         end.
  apply rbind_Ok in Hcfg as (d & _ & Hcfg).
  apply rbind_Ok in Hcfg as (? & [-> _]%get_Ok & Hcfg).
  apply rbind_Ok in Hcfg as (di & _ & Hcfg).
  apply rbind_Ok in Hcfg as (? & [-> _]%get_Ok & Hcfg).
  apply rbind_Ok in Hcfg as (ex & _ & Hcfg).
  repeat match type of Hcfg with
         | rbind _ _ = Ok _ => apply rbind_Ok in Hcfg as (? & [-> _]%get_Ok & Hcfg)
         end.
  injection Hcfg as <-. cbn [permalinkTpl slugConf] in *.
  unfold js_or at 1. rewrite Hperm, Hbase. cbn [js_String renderPermalink]. f_equal.
  assert (slug = "" \/ dashed true (chars slug) = true) as Hshape.
  { unfold buildSlug in Hslug.
    apply rbind_Ok in Hslug as (b0 & _ & (b1 & _ & (lower & _ & [= <-])%rbind_Ok)%rbind_Ok).
    rewrite toSlug_string. apply slugify_shape. }
  apply has_char_false in Hbrace.
  rewrite <- (str_chars (base +:+ "/{slug}/")), chars_app.
  change (chars "/{slug}/") with (["/"%char] ++ chars "{slug}" ++ ["/"%char]).
  rewrite app_assoc. change "{slug}" with (str ("{"%char :: chars "slug}")) at 1.
  rewrite js_replace_at.
  - rewrite <- (str_chars (base +:+ "/" +:+ slug +:+ "/")), !chars_app. f_equal.
    by rewrite <- !app_assoc.
  - intros [H|H]%in_app_iff; [done|]. simpl in H. by destruct H.
  - by apply slug_without.
Qed.

Lemma default_permalink_witness :
  renderPermalink
    (permalinkTpl (dbCfg_of (linked_source docs_id))) "guide"
  = Ok ("/src/docs" +:+ "/" +:+ "guide" +:+ "/").
Proof.
  apply (default_permalink example_platform (source_of docs_id "src/docs" [])
           (VObj [("title", rich "Docs")]) (dbCfg_of (linked_source docs_id)) guide_page
           "guide" "/src/docs"); vm_compute; reflexivity.
Defined.

(** ** Titles *)

Lemma title_text_trimmed title v :
  title_text title = Ok v -> v = VNull \/ exists s, v = VStr s /\ s <> "" /\ js_trim s = s.
Proof.
  unfold title_text. intros (l & _ & [= <-])%rbind_Ok. unfold js_or. cbn [truthy].
  destruct (String.eqb_spec (js_trim (js_join_empty l)) "") as [->|Hne]; [by left|right].
  cbn [negb]. eexists. split; [done|]. split; [done|].
  unfold js_trim. rewrite chars_str. f_equal.
  apply trim_chars_fixed; [apply trim_chars_head|apply trim_chars_last].
Qed.

(** X16.  The title of a page is [null] or a string that is neither empty
    nor blank and has no white space at its ends: a page without title
    property, with an empty one or with a blank one has the title
    [null]. *)
Theorem getFirstTitleText_trimmed page v :
  getFirstTitleText page = Ok v ->
  v = VNull \/ exists s, v = VStr s /\ s <> "" /\ js_trim s = s.
Proof.
  unfold getFirstTitleText. destruct (negb (truthy _)); [intros [= <-]; by left|].
  induction (entries (get_opt "properties" page)) as [|[name prop] props IH]; cbn [first_title].
  - intros [= <-]. by left.
  - destruct (is_filled_title prop); [apply title_text_trimmed|apply IH].
Qed.

Lemma getFirstTitleText_trimmed_witness :
  VStr "My First Post" = VNull
  \/ exists s, VStr "My First Post" = VStr s /\ s <> "" /\ js_trim s = s.
Proof.
  apply (getFirstTitleText_trimmed (page_of post_id [("Name", title_prop " My First Post ")])).
  reflexivity.
Defined.
(** * Properties of the other entry points *)

(** ** Markdown files of a directory, continued *)

Lemma filter_none {A} (f : A -> bool) l : (forall x, In x l -> f x = false) -> List.filter f l = [].
Proof.
  induction l as [|x l IH]; intros H; simpl; [done|].
  rewrite (H x) by (by left). apply IH. intros y Hy. apply H. by right.
Qed.

Lemma filter_map_fst {A B} (f : A -> bool) (l : list (A * B)) :
  List.filter f (List.map fst l) = List.map fst (List.filter (fun ab => f (fst ab)) l).
Proof.
  induction l as [|[a b] l IH]; simpl; [done|]. destruct (f a); simpl; by rewrite IH.
Qed.

(** X17.  In a directory that holds regular files only, the files that
    [cleanDirectory] removes for the Markdown pattern and reports are the
    ones that [getAllMarkdownFilesInDir] listed before, and the listing is
    empty afterwards. *)
Theorem cleanDirectory_empties_listing P d w deleted w' :
  (forall n e, dir_entries d w !! n = Some e -> is_file e = true) ->
  cleanDirectory P d (Some is_markdown_name) w = (Ok deleted, w') ->
  getAllMarkdownFilesInDir d w = (Ok deleted, w)
  /\ getAllMarkdownFilesInDir d w' = (Ok [], w').
Proof.
  intros Hfiles Hclean.
  destruct (cleanDirectory_removed _ _ _ _ _ _ Hclean) as (Hd & Hdel).
  assert (forall w0, getAllMarkdownFilesInDir d w0
            = (Ok (List.map (path_join d)
                     (List.filter is_markdown_name (List.map fst (map_to_list (dir_entries d w0))))),
               w0)) as Hlist.
  { intros w0. unfold getAllMarkdownFilesInDir, bind, gets, ret.
    destruct (bool_decide (is_Some (disk w0 !! d))) eqn:E; [done|]. cbn [negb].
    apply bool_decide_eq_false in E. unfold dir_entries.
    destruct (disk w0 !! d) eqn:E'; [exfalso; apply E; by eauto|].
    simpl. by rewrite map_to_list_empty. }
  rewrite !Hlist. split.
  - rewrite Hdel, filter_map_fst, List.map_map. do 2 f_equal.
    f_equal. apply filter_ext_in. intros [n e] Hin%list_elem_of_In%elem_of_map_to_list.
    unfold cleaned. cbn [fst snd pattern_matches]. by rewrite (Hfiles n e).
  - rewrite filter_none; [done|]. intros n (fe & <- & Hin)%in_map_iff. destruct fe as [n e].
    apply list_elem_of_In, elem_of_map_to_list in Hin. rewrite Hd in Hin. cbn [fst].
    destruct (dir_entries d w !! n) as [e0|] eqn:E0; [|done].
    unfold cleaned in Hin. cbn [fst snd pattern_matches] in Hin.
    rewrite (Hfiles n e0) in Hin by done. by destruct (is_markdown_name n).
Qed.

Lemma cleanDirectory_empties_listing_witness :
  let w := fresh old_disk in
  let run := cleanDirectory example_platform "/site/src/blog" (Some is_markdown_name) w in
  getAllMarkdownFilesInDir "/site/src/blog" w = (Ok ["/site/src/blog/old-post.md"], w)
  /\ getAllMarkdownFilesInDir "/site/src/blog" (snd run) = (Ok [], snd run).
Proof.
  intros w run.
  apply (cleanDirectory_empties_listing example_platform "/site/src/blog" w
           ["/site/src/blog/old-post.md"] (snd run)).
  - intros n e. unfold w, fresh, old_disk, dir_entries. cbn [disk].
    rewrite lookup_singleton_eq. cbv [default from_option id].
    intros [<- <-]%lookup_singleton_Some. reflexivity.
  - vm_compute. reflexivity.
Defined.

(** ** The configuration file *)

Lemma fold_left_normalize segs seg acc :
  seg <> [] -> seg <> chars "." -> seg <> chars ".." ->
  fold_left (fun acc seg =>
    match seg with
    | [] => acc
    | _ => if bool_decide (seg = chars ".") then acc
           else if bool_decide (seg = chars "..") then removelast acc
           else acc ++ [seg]
    end) (segs ++ [seg]) acc
  = fold_left (fun acc seg =>
      match seg with
      | [] => acc
      | _ => if bool_decide (seg = chars ".") then acc
             else if bool_decide (seg = chars "..") then removelast acc
             else acc ++ [seg]
      end) segs acc ++ [seg].
Proof.
  intros Hne Hdot Hdots. rewrite fold_left_app. cbn [fold_left].
  destruct seg as [|c seg]; [done|].
  by rewrite !bool_decide_eq_false_2.
Qed.

Lemma path_join_name a name :
  split_on "/" (chars name) = [chars name] ->
  chars name <> [] -> chars name <> chars "." -> chars name <> chars ".." ->
  path_join a name = of_segments (segments a) +:+ "/" +:+ name.
Proof.
  intros Hsplit Hne Hdot Hdots. unfold path_join, segments, normalize_segments.
  rewrite Hsplit, fold_left_normalize by done. unfold of_segments.
  rewrite flat_map_app, str_app. cbn [flat_map]. rewrite app_nil_r.
  change (str ("/"%char :: chars name)) with (String "/" (str (chars name))).
  by rewrite str_chars.
Qed.

Lemma endsWith_suffix p a b : endsWith p b = true -> endsWith p (a +:+ b) = true.
Proof.
  unfold endsWith. rewrite chars_app, rev_app_distr.
  destruct (strip_prefix (rev (chars p)) (rev (chars b))) as [r|] eqn:E; [|done].
  apply strip_prefix_Some in E as ->. intros _. by rewrite <- app_assoc, strip_prefix_app.
Qed.

Lemma strip_prefix_app_None p l z :
  length p <= length l -> strip_prefix p l = None -> strip_prefix p (l ++ z) = None.
Proof.
  revert l. induction p as [|c p IH]; intros [|d l]; simpl; try done; [lia|].
  intros Hlen. destruct (Ascii.eqb c d); [|done]. apply IH. lia.
Qed.

Lemma endsWith_suffix_false p a b :
  String.length p <= String.length b -> endsWith p b = false -> endsWith p (a +:+ b) = false.
Proof.
  unfold endsWith. rewrite chars_app, rev_app_distr, <- !length_chars. intros Hlen.
  destruct (strip_prefix (rev (chars p)) (rev (chars b))) eqn:E; [done|]. intros _.
  rewrite strip_prefix_app_None; [done| |done]. by rewrite !length_rev.
Qed.

(** X18.  With an explicit path [loadConfig] reads that file and no other:
    if it does not exist the error quotes the path, whatever default files
    are present.  Without a path it takes the first of
    [notion.config.json], [notion.config.yaml] and [notion.config.yml]
    that exists in the working directory, in this order; the first is
    parsed as JSON and the other two as YAML; and when the file that was
    chosen cannot be read or parsed the error is thrown, the next name is
    not tried. *)
Theorem loadConfig_order F cwd configPath :
  let at_root name := path_join cwd name in
  loadConfig F cwd configPath
  = if truthy configPath then
      match configPath with
      | VStr p =>
          if config_exists F p then read_config F p
          else Throw (Error ("Config file not found: " +:+ p))
      | _ => Throw (Error ("Config file not found: " +:+ js_String configPath))
      end
    else if config_exists F (at_root "notion.config.json") then
      let? text := config_read F (at_root "notion.config.json") in JSON_parse F text
    else if config_exists F (at_root "notion.config.yaml") then
      let? text := config_read F (at_root "notion.config.yaml") in yaml_load F text
    else if config_exists F (at_root "notion.config.yml") then
      let? text := config_read F (at_root "notion.config.yml") in yaml_load F text
    else
      Throw (Error ("No notion.config.json, notion.config.yaml, or notion.config.yml "
                    +:+ "found in project root")).
Proof.
  intros at_root. unfold loadConfig, tryPaths.
  destruct (truthy configPath) eqn:Ht.
  - destruct configPath; cbn [try_paths]; try done. by destruct (config_exists F s).
  - cbn [List.map default_config_names try_paths].
    fold (at_root "notion.config.json"). fold (at_root "notion.config.yaml").
    fold (at_root "notion.config.yml"). unfold read_config.
    assert (endsWith ".json" (at_root "notion.config.json") = true) as ->.
    { unfold at_root. rewrite path_join_name by done. by do 2 apply endsWith_suffix. }
    assert (endsWith ".json" (at_root "notion.config.yaml") = false) as ->.
    { unfold at_root. rewrite path_join_name, <- append_assoc by done.
      by apply endsWith_suffix_false; [simpl; lia|]. }
    assert (endsWith ".json" (at_root "notion.config.yml") = false) as ->.
    { unfold at_root. rewrite path_join_name, <- append_assoc by done.
      by apply endsWith_suffix_false; [simpl; lia|]. }
    destruct (config_exists F (at_root "notion.config.json")); [done|].
    destruct (config_exists F (at_root "notion.config.yaml")); [done|].
    by destruct (config_exists F (at_root "notion.config.yml")).
Qed.

(** ** The command line *)

Lemma last_default {A} (x : A) l d d' : List.last (x :: l) d = List.last (x :: l) d'.
Proof. revert x. induction l as [|y l IH]; intros x; [done|]. apply (IH y). Qed.

Lemma parse_args_without_config args flags :
  existsb is_config_flag args = false ->
  parse_args args flags
  = {| argConfigPath := List.last (List.map VStr (positional args)) (argConfigPath flags);
       showHelp := showHelp flags || existsb is_help args;
       showVersion := showVersion flags || existsb is_version args |}.
Proof.
  revert flags. induction args as [|arg args IH]; intros flags.
  - intros _. destruct flags. simpl. by rewrite !orb_false_r.
  - cbn [existsb]. intros [Hc Hrest]%orb_false_iff. cbn [parse_args existsb positional List.filter].
    fold (is_help arg) (is_version arg) (is_config_flag arg). rewrite Hc.
    destruct (is_help arg) eqn:Hh; [|destruct (is_version arg) eqn:Hv].
    + assert (is_version arg = false /\ startsWith "-" arg = true) as [-> ->].
      { unfold is_help in Hh. apply orb_true_iff in Hh as [H|H]; by apply String.eqb_eq in H as ->. }
      rewrite IH by done. simpl. by rewrite orb_true_r.
    + assert (startsWith "-" arg = true) as ->.
      { unfold is_version in Hv. apply orb_true_iff in Hv as [H|H]; by apply String.eqb_eq in H as ->. }
      rewrite IH by done. simpl. by rewrite orb_true_r.
    + destruct (startsWith "-" arg); cbn [negb]; rewrite IH by done; [done|].
      simpl. fold (positional args).
      destruct (positional args) as [|x l]; [done|]. cbn [List.map]. f_equal.
      apply (last_default (VStr x)).
Qed.

Lemma parse_args_app pre rest flags :
  existsb is_config_flag pre = false ->
  parse_args (pre ++ rest) flags = parse_args rest (parse_args pre flags).
Proof.
  revert flags. induction pre as [|arg pre IH]; intros flags; [done|].
  cbn [existsb]. intros [Hc Hrest]%orb_false_iff.
  change ((arg :: pre) ++ rest) with (arg :: pre ++ rest). cbn [parse_args].
  fold (is_config_flag arg). rewrite Hc.
  by repeat (destruct (_ || _) || destruct (negb _)); rewrite IH.
Qed.

(** X19.  Without [-c] and [--config] among the arguments, the help and
    version flags are set exactly when one of their spellings occurs, and
    the configuration path is the last argument that does not start with a
    dash ([null] when there is none); other arguments that start with a
    dash are ignored. *)
Theorem parse_args_flags args :
  existsb is_config_flag args = false ->
  parse_args args {| argConfigPath := VNull; showHelp := false; showVersion := false |}
  = {| argConfigPath := List.last (List.map VStr (positional args)) VNull;
       showHelp := existsb is_help args;
       showVersion := existsb is_version args |}.
Proof. intros H. by rewrite parse_args_without_config. Qed.

Lemma parse_args_flags_witness :
  parse_args ["first.yml"; "--verbose"; "-h"; "second.json"]
    {| argConfigPath := VNull; showHelp := false; showVersion := false |}
  = {| argConfigPath :=
         List.last (List.map VStr (positional ["first.yml"; "--verbose"; "-h"; "second.json"]))
           VNull;
       showHelp := existsb is_help ["first.yml"; "--verbose"; "-h"; "second.json"];
       showVersion := existsb is_version ["first.yml"; "--verbose"; "-h"; "second.json"] |}.
Proof. apply parse_args_flags. reflexivity. Defined.

(** X20.  The argument that follows [-c] or [--config] is taken as the
    configuration path as it is, also when it is spelled like a flag, and
    parsing goes on after it; a [-c] in the last position resets the path
    to [undefined]. *)
Theorem parse_args_config_value pre flag next post flags :
  existsb is_config_flag pre = false ->
  is_config_flag flag = true ->
  parse_args (pre ++ flag :: next :: post) flags
  = parse_args post {| argConfigPath := VStr next;
                       showHelp := showHelp (parse_args pre flags);
                       showVersion := showVersion (parse_args pre flags) |}
  /\ parse_args (pre ++ [flag]) flags
     = {| argConfigPath := VUndef;
          showHelp := showHelp (parse_args pre flags);
          showVersion := showVersion (parse_args pre flags) |}.
Proof.
  intros Hpre Hflag.
  assert (String.eqb flag "-h" || String.eqb flag "--help" = false) as Hh.
  { unfold is_config_flag in Hflag.
    apply orb_true_iff in Hflag as [H|H]; apply String.eqb_eq in H as ->; done. }
  assert (String.eqb flag "-v" || String.eqb flag "--version" = false) as Hv.
  { unfold is_config_flag in Hflag.
    apply orb_true_iff in Hflag as [H|H]; apply String.eqb_eq in H as ->; done. }
  unfold is_config_flag in Hflag.
  split; rewrite parse_args_app by done; cbn [parse_args]; by rewrite Hh, Hv, Hflag.
Qed.

Lemma parse_args_config_value_witness :
  let start := {| argConfigPath := VNull; showHelp := false; showVersion := false |} in
  parse_args (["old.yml"] ++ "--config" :: "--help" :: ["-v"]) start
  = parse_args ["-v"] {| argConfigPath := VStr "--help";
                         showHelp := showHelp (parse_args ["old.yml"] start);
                         showVersion := showVersion (parse_args ["old.yml"] start) |}
  /\ parse_args (["old.yml"] ++ ["--config"]) start
     = {| argConfigPath := VUndef;
          showHelp := showHelp (parse_args ["old.yml"] start);
          showVersion := showVersion (parse_args ["old.yml"] start) |}.
Proof. intros start. apply parse_args_config_value; reflexivity. Defined.

(** X21.  The version flag wins over the help flag, and either ends the
    command with exit code 0 before the export is started: nothing is
    requested, read or written.  Without them the export runs with the
    last positional argument as configuration path. *)
Theorem main_flags P version debug args w :
  existsb is_config_flag args = false ->
  main P version debug args w
  = if existsb is_version args then
      {| exit_code := Some 0%Z; output := [PrintVersion version]; final := w |}
    else if existsb is_help args then
      {| exit_code := Some 0%Z; output := [PrintHelp]; final := w |}
    else run_export P debug (List.last (List.map VStr (positional args)) VNull) w.
Proof. intros H. unfold main. by rewrite parse_args_without_config. Qed.

Lemma main_flags_witness :
  main example_platform (VStr "1.1.0") VUndef ["--help"; "site.yml"; "-v"] (fresh ∅)
  = if existsb is_version ["--help"; "site.yml"; "-v"] then
      {| exit_code := Some 0%Z; output := [PrintVersion (VStr "1.1.0")]; final := fresh ∅ |}
    else if existsb is_help ["--help"; "site.yml"; "-v"] then
      {| exit_code := Some 0%Z; output := [PrintHelp]; final := fresh ∅ |}
    else run_export example_platform VUndef
           (List.last (List.map VStr (positional ["--help"; "site.yml"; "-v"])) VNull)
           (fresh ∅).
Proof. apply main_flags. reflexivity. Defined.
(** * Properties of the comments plugin *)

Lemma escape_char_markup c d : In d (escape_char c) -> is_markup d = false.
Proof.
  unfold escape_char, is_markup.
  destruct (Ascii.eqb c "&") eqn:E1; [simpl; intros H; decompose [or] H; by subst|].
  destruct (Ascii.eqb c "<") eqn:E2; [simpl; intros H; decompose [or] H; by subst|].
  destruct (Ascii.eqb c ">") eqn:E3; [simpl; intros H; decompose [or] H; by subst|].
  destruct (Ascii.eqb c "034") eqn:E4; [simpl; intros H; decompose [or] H; by subst|].
  destruct (Ascii.eqb c "'") eqn:E5; [simpl; intros H; decompose [or] H; by subst|].
  intros [<-|[]]. by rewrite E2, E3, E4, E5.
Qed.

Lemma escape_char_plain c :
  Ascii.eqb c "&" = false -> is_markup c = false -> escape_char c = [c].
Proof.
  unfold escape_char, is_markup. intros ->.
  intros [[[-> ->]%orb_false_iff ->]%orb_false_iff ->]%orb_false_iff. done.
Qed.

(** X22.  The text that [escapeHtml] returns holds none of the characters
    [<], [>], double quote and single quote, and a text without these and
    without [&] is returned unchanged. *)
Theorem escapeHtml_no_markup s :
  exists t,
    escapeHtml (VStr s) = Ok t
    /\ forallb (fun c => negb (is_markup c)) (chars t) = true
    /\ (forallb (fun c => negb (Ascii.eqb c "&" || is_markup c)) (chars s) = true -> t = s).
Proof.
  eexists. split; [reflexivity|]. rewrite chars_str. split.
  - apply forallb_forall. intros d (c & _ & Hd)%in_flat_map.
    by rewrite (escape_char_markup c d).
  - intros Hplain. rewrite <- (str_chars s) at 2. f_equal.
    induction (chars s) as [|c l IH]; [done|]. cbn [flat_map forallb] in *.
    apply andb_true_iff in Hplain as [Hc Hl].
    apply negb_true_iff, orb_false_iff in Hc as [Ha Hm].
    by rewrite escape_char_plain, IH.
Qed.

Ltac escape_cases c :=
  unfold escape_char;
  destruct (Ascii.eqb_spec c "&") as [->|?]; [|
  destruct (Ascii.eqb_spec c "<") as [->|?]; [|
  destruct (Ascii.eqb_spec c ">") as [->|?]; [|
  destruct (Ascii.eqb_spec c "034") as [->|?]; [|
  destruct (Ascii.eqb_spec c "'") as [->|?]]]]].

Lemma escape_char_injective c d x y :
  escape_char c ++ x = escape_char d ++ y -> c = d /\ x = y.
Proof.
  escape_cases c; escape_cases d; simpl; intros H; try (injection H as; congruence);
    split; congruence.
Qed.

(** X23.  [escapeHtml] loses nothing: two texts with the same escaped form
    are the same text. *)
Theorem escapeHtml_injective a b :
  escapeHtml (VStr a) = escapeHtml (VStr b) -> a = b.
Proof.
  unfold escapeHtml. intros [= H].
  apply (f_equal chars) in H. rewrite !chars_str in H.
  rewrite <- (str_chars a), <- (str_chars b). f_equal.
  revert H. generalize (chars b). induction (chars a) as [|c l IH]; intros [|d l']; simpl.
  - done.
  - intros H. exfalso. revert H. escape_cases d; discriminate.
  - intros H. exfalso. revert H. escape_cases c; discriminate.
  - intros [-> H]%escape_char_injective. f_equal. by apply IH.
Qed.

Lemma escapeHtml_injective_witness : "Tom & <Jerry>" = "Tom & <Jerry>".
Proof. apply escapeHtml_injective. reflexivity. Defined.

(** ** Submitting and fetching comments *)

Lemma checked_comment_complete client settings commentData :
  checked_comment client settings commentData
  = if complete_comment commentData then
      Ok (comment_page client settings (own "pageId" commentData) (own "author" commentData)
            (own "email" commentData) (own "content" commentData))
    else
      match commentData with
      | VUndef | VNull =>
          Throw (TypeError "Cannot destructure property 'pageId' of 'commentData'")
      | _ => Throw (Error "Missing required fields: pageId, author, email, content")
      end.
Proof.
  unfold checked_comment, complete_comment.
  destruct commentData; try done;
    destruct (truthy (own "pageId" _)), (truthy (own "author" _)),
      (truthy (own "email" _)), (truthy (own "content" _)); done.
Qed.

(** X24.  [submitComment] sends nothing to Notion and throws when one of
    [pageId], [author], [email] and [content] is missing or empty; when all
    four are given it sends exactly one request, which creates a page in
    the comments database, and returns or throws what Notion answers. *)
Theorem submitComment_requires_fields client settings commentData :
  (complete_comment commentData = false ->
   exists e, submitComment client settings commentData = (Throw e, []))
  /\ (complete_comment commentData = true ->
      exists request,
        own "database_id" (own "parent" request) = VStr (commentsDatabaseId settings)
        /\ fst (submitComment client settings commentData) = pages_create client request
        /\ exists printed,
             snd (submitComment client settings commentData) = SentCreate request :: printed
             /\ forall event, In event printed -> exists m, event = PrintedSubmitError m).
Proof.
  unfold submitComment. rewrite checked_comment_complete. split; intros ->.
  - destruct commentData; by eexists.
  - exists (comment_page client settings (own "pageId" commentData) (own "author" commentData)
              (own "email" commentData) (own "content" commentData)).
    split; [reflexivity|]. destruct (pages_create client _) as [response|error].
    + split; [done|]. exists []. by split.
    + split; [done|]. eexists. split; [reflexivity|]. intros event [<-|[]]. by eexists.
Qed.

(** X25.  Under moderation (the default) a submitted comment is created
    with [published] unchecked, and [fetchComments] asks only for comments
    whose [published] is checked: what a visitor submits is not shown until
    someone checks it in Notion.  Without moderation the comment is created
    published and the query has no such condition. *)
Theorem moderation_hides_new_comments client settings commentData pageId request :
  checked_comment client settings commentData = Ok request ->
  own "checkbox" (own "published" (own "properties" request))
  = VBool (negb (enableModeration settings))
  /\ (In published_filter
         (elements_of (own "and" (own "filter" (comments_query settings pageId))))
      <-> enableModeration settings = true).
Proof.
  intros Hreq. split.
  - rewrite checked_comment_complete in Hreq.
    destruct (complete_comment commentData); [by injection Hreq as <-|].
    by destruct commentData.
  - unfold comments_query. cbn. destruct (enableModeration settings).
    + split; [done|]. intros _. right. by left.
    + split; [|done]. by intros [[=]|[]].
Qed.

Lemma moderation_hides_new_comments_witness :
  let client := {| query_database := fun _ => Ok (VObj [("results", VArr [])]);
                   pages_create := fun request => Ok request;
                   now_iso := "2025-01-01T00:00:00.000Z" |} in
  let settings := {| commentsDatabaseId := blog_id; commentFormAction := VStr "/api/comments";
                     enableModeration := true; cacheComments := true |} in
  let data := VObj [("pageId", VStr "/blog/my-first-post/"); ("author", VStr "Ann");
                    ("email", VStr "ann@example.org"); ("content", VStr "Nice.")] in
  own "checkbox" (own "published" (own "properties"
      (comment_page client settings (VStr "/blog/my-first-post/") (VStr "Ann")
         (VStr "ann@example.org") (VStr "Nice."))))
  = VBool (negb (enableModeration settings))
  /\ (In published_filter
         (elements_of (own "and" (own "filter"
            (comments_query settings (VStr "/blog/my-first-post/")))))
      <-> enableModeration settings = true).
Proof.
  intros client settings data.
  apply (moderation_hides_new_comments client settings data). reflexivity.
Defined.

Lemma mapM_Ok_Forall2 {A B} (f : A -> res B) l ys :
  mapM f l = Ok ys -> Forall2 (fun x y => f x = Ok y) l ys.
Proof.
  revert ys. induction l as [|x l IH]; intros ys; simpl.
  - intros [= <-]. constructor.
  - intros (y & Hy & (ys' & Hys & [= <-])%rbind_Ok)%rbind_Ok. constructor; [done|by apply IH].
Qed.

Lemma mapM_Throw {A B} (f : A -> res B) l x e :
  In x l -> f x = Throw e -> exists e', mapM f l = Throw e'.
Proof.
  induction l as [|y l IH]; [done|]. intros [->|Hin] Hx; simpl.
  - rewrite Hx. by eexists.
  - destruct (f y); [|by eexists]. destruct (IH Hin Hx) as [e' ->]. by eexists.
Qed.

(** X26.  [fetchComments] sends one query and returns one comment per row
    of the answer, in order, each with the identifier of its row; but it is
    all or nothing: when a single row cannot be read, the error is printed
    and no comment at all is returned. *)
Theorem fetchComments_all_or_nothing client settings pageId response rows :
  query_database client (comments_query settings pageId) = Ok response ->
  own "results" response = VArr rows ->
  let run := fetchComments client settings pageId in
  (Forall2 (fun row comment => comment_of row = Ok comment /\ own "id" comment = own "id" row)
     rows (fst run)
   /\ snd run = [SentQuery (comments_query settings pageId)])
  \/ (fst run = []
      /\ exists row e message,
           In row rows /\ comment_of row = Throw e
           /\ snd run = [SentQuery (comments_query settings pageId);
                         PrintedFetchError pageId message]).
Proof.
  intros Hq Hrows run. unfold run, fetchComments. rewrite Hq. cbn [rbind].
  rewrite get_non_nullish by (by destruct response). rewrite Hrows. cbn [rbind js_map].
  destruct (mapM comment_of rows) as [comments|e] eqn:E.
  - left. split; [|done]. cbn [fst]. apply mapM_Ok_Forall2 in E.
    eapply Forall2_impl; [exact E|]. intros row comment Hc. split; [done|].
    unfold comment_of in Hc.
    repeat match type of Hc with
           | rbind _ _ = Ok _ => apply rbind_Ok in Hc as (? & ? & Hc)
           end.
    injection Hc as <-. cbn. by match goal with H : get "id" _ = Ok _ |- _ =>
                                  apply get_Ok in H as [-> _] end.
  - right. split; [done|].
    assert (exists row e', In row rows /\ comment_of row = Throw e') as (row & e' & ? & ?).
    { clear -E. induction rows as [|r rows IH]; simpl in E; [done|].
      destruct (comment_of r) as [c|e0] eqn:Er; [|by exists r, e0; split; [left|]].
      destruct (mapM comment_of rows) as [cs|e1]; [done|].
      destruct IH as (row & e' & ? & ?); [done|]. exists row, e'. split; [by right|done]. }
    by exists row, e', (message e).
Qed.

Lemma fetchComments_all_or_nothing_witness :
  let good := VObj [("id", VStr "c1");
                    ("properties",
                     VObj [("author", VObj [("type", VStr "title"); ("title", rich "Ann")]);
                           ("content", VObj [("type", VStr "rich_text");
                                             ("rich_text", rich "Nice.")])])] in
  let bad := VObj [("id", VStr "c2")] in
  let client := {| query_database := fun _ => Ok (VObj [("results", VArr [good; bad])]);
                   pages_create := fun request => Ok request;
                   now_iso := "2025-01-01T00:00:00.000Z" |} in
  let settings := {| commentsDatabaseId := blog_id; commentFormAction := VStr "/api/comments";
                     enableModeration := true; cacheComments := true |} in
  let run := fetchComments client settings (VStr "/blog/my-first-post/") in
  (Forall2 (fun row comment => comment_of row = Ok comment /\ own "id" comment = own "id" row)
     [good; bad] (fst run)
   /\ snd run = [SentQuery (comments_query settings (VStr "/blog/my-first-post/"))])
  \/ (fst run = []
      /\ exists row e message,
           In row [good; bad] /\ comment_of row = Throw e
           /\ snd run = [SentQuery (comments_query settings (VStr "/blog/my-first-post/"));
                         PrintedFetchError (VStr "/blog/my-first-post/") message]).
Proof.
  intros good bad client settings run.
  apply (fetchComments_all_or_nothing client settings (VStr "/blog/my-first-post/")
           (VObj [("results", VArr [good; bad])])); reflexivity.
Defined.

(** ** The options of the plugin *)

(** X27.  When the options of the plugin are accepted, a token was given
    (in the options or the environment), the database is kept as a bare
    32-digit identifier even if an address was given, the form action is
    [/api/comments] unless one is given, and moderation is on unless
    [enableModeration] is exactly [false]. *)
Theorem pluginSettings_accepted envToken options settings :
  pluginSettings envToken options = Ok settings ->
  truthy (js_or (own "notionToken" options) envToken) = true
  /\ is_hex32 (commentsDatabaseId settings) = true
  /\ extractDatabaseId (own "databaseId" options) = Ok (commentsDatabaseId settings)
  /\ commentFormAction settings = js_or (own "commentFormAction" options) (VStr "/api/comments")
  /\ (enableModeration settings = false <-> own "enableModeration" options = VBool false).
Proof.
  unfold pluginSettings.
  set (o := match options with VUndef => VObj [] | _ => options end).
  assert (forall k, own k o = own k options) as Hown by (intros k; by destruct options).
  intros (tok & [-> _]%get_Ok & H)%rbind_Ok.
  destruct (truthy (js_or (own "notionToken" o) envToken)) eqn:Htok; [|done]. cbn [negb] in H.
  apply rbind_Ok in H as (db & [-> _]%get_Ok & H).
  destruct (truthy (own "databaseId" o)); [|done]. cbn [negb] in H.
  apply rbind_Ok in H as (id & Hid & H).
  apply rbind_Ok in H as (action & [-> _]%get_Ok & H).
  apply rbind_Ok in H as (moderation & [-> _]%get_Ok & H).
  apply rbind_Ok in H as (cache & [-> _]%get_Ok & [= <-]).
  cbn [commentsDatabaseId commentFormAction enableModeration]. rewrite !Hown in *.
  repeat split; try done.
  - by apply extractDatabaseId_Ok in Hid as [? _].
  - by destruct (own "enableModeration" options) as [| |[]| | | |].
  - by intros ->.
Qed.

Lemma pluginSettings_accepted_witness :
  let options := VObj [("databaseId",
                        VStr ("https://www.notion.so/team/" +:+ blog_id +:+ "?v=2"));
                       ("enableModeration", VNum 0)] in
  let settings := {| commentsDatabaseId := blog_id; commentFormAction := VStr "/api/comments";
                     enableModeration := true; cacheComments := true |} in
  truthy (js_or (own "notionToken" options) (VStr "secret")) = true
  /\ is_hex32 (commentsDatabaseId settings) = true
  /\ extractDatabaseId (own "databaseId" options) = Ok (commentsDatabaseId settings)
  /\ commentFormAction settings = js_or (own "commentFormAction" options) (VStr "/api/comments")
  /\ (enableModeration settings = false <-> own "enableModeration" options = VBool false).
Proof.
  intros options settings. apply (pluginSettings_accepted (VStr "secret")). reflexivity.
Defined.
(** * Further properties of the page writer *)

(** ** Values of the front matter *)










(** ** Images of the body *)

Lemma split_first_second c1 c2 pat B T :
  c1 <> c2 -> ~ In c2 B ->
  split_first (c1 :: c2 :: pat) (B ++ (c1 :: c2 :: pat) ++ T) = Some (B, T).
Proof.
  intros Hne Hin. induction B as [|b B IH].
  - change ([] ++ (c1 :: c2 :: pat) ++ T) with ((c1 :: c2 :: pat) ++ T).
    destruct ((c1 :: c2 :: pat) ++ T) eqn:E; cbn [split_first]; rewrite <- ?E;
      by rewrite strip_prefix_app.
  - change ((b :: B) ++ (c1 :: c2 :: pat) ++ T) with (b :: B ++ (c1 :: c2 :: pat) ++ T).
    cbn [split_first].
    assert (strip_prefix (c1 :: c2 :: pat) (b :: B ++ (c1 :: c2 :: pat) ++ T) = None) as ->.
    { cbn [strip_prefix]. destruct (Ascii.eqb c1 b); [|done].
      destruct B as [|d B]; simpl.
      - by rewrite eqb_false_neq by congruence.
      - rewrite eqb_false_neq; [done|]. intros <-. apply Hin. right. by left. }
    rewrite IH; [done|]. intros H. apply Hin. by right.
Qed.

Lemma js_replace_second c1 c2 pat repl B T :
  c1 <> c2 -> ~ In c2 B -> ~ In "$"%char (chars repl) ->
  js_replace (str (c1 :: c2 :: pat)) repl (str (B ++ (c1 :: c2 :: pat) ++ T))
  = str (B ++ chars repl ++ T).
Proof.
  intros Hne HB Hrepl. unfold js_replace. rewrite !chars_str, split_first_second by done.
  by rewrite expand_replacement_plain.
Qed.

(** X29.  An image of the body whose address is a Notion address, not
    yet in the cache and answered with status 200, is downloaded once; its
    address in the body is replaced by the path, relative to the site
    source, of [<slug>-0-<first 8 digits of the content hash>.<ext>] in the
    images directory, and the cache remembers that path for the address
    (stated for a body with one image, when no file operation fails). *)
Theorem pageBodyMarkdown_image_saved P pageId slug imagesDir pm before alt url after w body :
  let path := relative_to_src P imagesDir
                (imageFilename slug "0" (String.substring 0 8 (md5_hex P body))
                   (getImageExtension url)) in
  no_faults P -> files_only w ->
  imageCache w !! url = None ->
  http_get P url = Download200 body ->
  page_markdown P pageId
  = Ok (before +:+ "![" +:+ alt +:+ "](" +:+ url +:+ ")" +:+ after) ->
  is_notion_asset url = true ->
  has_char "[" before = false ->
  has_char "]" alt = false ->
  has_char "$" alt = false ->
  has_char ")" url = false ->
  has_char "[" after = false ->
  has_char "$" path = false ->
  exists w',
    pageBodyMarkdown P pageId slug imagesDir pm w
    = (Ok (before +:+ "![" +:+ alt +:+ "](" +:+ path +:+ ")" +:+ after), w')
    /\ calls w' = CallHttpGet url :: CallPageMarkdown pageId :: calls w
    /\ imageCache w' !! url = Some path.
Proof.
  intros path HP Hw Hcache Hget Hmd Hasset Hbefore Halt Halt' Hurl Hafter Hpath.
  apply has_char_false in Hbefore, Halt, Halt', Hurl, Hafter, Hpath.
  assert (chars url <> []) as Hne.
  { intros H. rewrite <- (str_chars url), H in Hasset. done. }
  set (link := "["%char :: chars alt ++ "]"%char :: "("%char :: chars url ++ [")"%char]).
  assert (chars (before +:+ "![" +:+ alt +:+ "](" +:+ url +:+ ")" +:+ after)
          = chars before ++ "!"%char :: link ++ chars after) as Hshape.
  { rewrite !chars_app. unfold link. simpl. rewrite <- !app_assoc. simpl.
    by rewrite <- !app_assoc. }
  unfold pageBodyMarkdown, try_catch. unfold bind at 1. unfold modify at 1.
  unfold bind at 1. unfold lift at 1. rewrite Hmd, Hshape.
  unfold link at 1. rewrite scan_links_single_image by done.
  cbn [scan_loop]. unfold bind at 1 2. unfold scan_step. cbn [fullMatch linkUrl altText length].
  rewrite str_chars, Hasset. unfold bind at 1.
  set (w0 := add_call (CallPageMarkdown pageId) w).
  destruct (saveNotionImage_miss P url slug (string_of_Z (Z.of_nat 0)) imagesDir w0 HP)
    as (w' & -> & Hc & Hcalls & _); [by apply (files_only_disk w)|done|].
  unfold saved_path in *. rewrite Hget in *. cbn [default] in *.
  change (string_of_Z (Z.of_nat 0)) with "0" in *. fold path in Hc |- *. clearbody path.
  unfold ret. exists w'. split; [|split].
  - f_equal. f_equal. unfold id, apply_replacements.
    cbn [app fold_right original replacement_text js_String].
    rewrite <- (str_chars (before +:+ _)) at 1. rewrite Hshape.
    change ("!"%char :: link ++ chars after) with (("!"%char :: link) ++ chars after).
    unfold link. rewrite js_replace_second; [|done|done|].
    + rewrite <- (str_chars (before +:+ "![" +:+ alt +:+ "](" +:+ path +:+ ")" +:+ after)).
      f_equal. rewrite !chars_app, str_chars. simpl.
      rewrite <- !app_assoc. simpl. by rewrite <- !app_assoc.
    + rewrite !chars_app, str_chars. simpl. intros [H|[H|H]]; [done..|].
      apply in_app_iff in H as [H|H]; [done|]. simpl in H. destruct H as [H|[H|H]]; try done.
      apply in_app_iff in H as [H|H]; [done|]. simpl in H. naive_solver.
  - by rewrite Hcalls.
  - rewrite Hc. apply lookup_insert_eq.
Qed.

Lemma pageBodyMarkdown_image_saved_witness :
  let P := platform_with (databases_query example_platform)
             (fun _ => Ok ("Logo: " +:+ "![" +:+ "logo" +:+ "]("
                           +:+ "https://files.notion.example/one/logo.png" +:+ ")" +:+ ".")) in
  exists w',
    pageBodyMarkdown P (VStr post_id) "my-first-post" "/site/src/images/notion" ∅ (fresh ∅)
    = (Ok ("Logo: " +:+ "![" +:+ "logo" +:+ "]("
           +:+ relative_to_src P "/site/src/images/notion"
                 (imageFilename "my-first-post" "0"
                    (String.substring 0 8 (md5_hex P "PNG"))
                    (getImageExtension "https://files.notion.example/one/logo.png"))
           +:+ ")" +:+ "."), w')
    /\ calls w' = CallHttpGet "https://files.notion.example/one/logo.png"
                  :: CallPageMarkdown (VStr post_id) :: calls (fresh ∅)
    /\ imageCache w' !! "https://files.notion.example/one/logo.png"
       = Some (relative_to_src P "/site/src/images/notion"
                 (imageFilename "my-first-post" "0"
                    (String.substring 0 8 (md5_hex P "PNG"))
                    (getImageExtension "https://files.notion.example/one/logo.png"))).
Proof.
  intros P.
  apply (pageBodyMarkdown_image_saved P (VStr post_id) "my-first-post"
           "/site/src/images/notion" ∅ "Logo: " "logo"
           "https://files.notion.example/one/logo.png" "." (fresh ∅) "PNG");
    try reflexivity.
  - intros op. reflexivity.
  - apply map_Forall_empty.
Defined.
